(** * APEX ledger core: executor, DPoS engine, slasher, staking manager, mempool

    A shallow embedding of the Go packages [types], [storage], [core],
    [consensus], [staking] and [mempool], one Rocq module per package, and the
    properties of the ledger specification stated over it.

    Conventions.
    - [*big.Int] is [Z]; [uint64] is a [Z] in [0, 2^64) with the wrap-around
      written out ([u64]); [int64(x)] of a [uint64] is [to_int64].
    - [types.Address] ([20]byte) and [types.Hash] ([32]byte) are the natural
      numbers their bytes spell out (big endian), so that they can key a [gmap].
    - A Go [map] is a [gmap]; where the code ranges over a map, the order of
      the visit is an explicit argument, since Go leaves it unspecified.
    - A pointer to a registered validator is represented by the address the
      validator is registered under (the DPoS registry is the heap of
      validators).
    - A Go method with receiver state [S] that returns [(T, error)] is a
      function [S -> outcome T * S]; the state is threaded through failures,
      because what was written before an error stays written.
    - Wall-clock fields ([CreatedAt], [JailTime], [Timestamp]) are left out:
      no operation modelled here reads them. *)

From Stdlib Require Import ZArith Floats.
From stdpp Require Import base gmap list strings sorting.

#[local] Set Warnings "-inexact-float".

#[local] Open Scope string_scope.
#[local] Open Scope Z_scope.

(** ** Machine integers *)

Definition u64 (z : Z) : Z := z mod 2 ^ 64.

(** [int64(x)] for a [uint64] value [x]: the same 64 bits read as two's
    complement. *)
Definition to_int64 (z : Z) : Z := if z <? 2 ^ 63 then z else z - 2 ^ 64.

(** ** Outcomes of a call: a value, a returned [error], or a run-time panic *)

Inductive outcome (A : Type) : Type :=
| Ok (a : A)
| Err (msg : string)
| Panic (msg : string).
Arguments Ok {A} a.
Arguments Err {A} msg.
Arguments Panic {A} msg.

Definition is_ok {A} (o : outcome A) : bool :=
  match o with Ok _ => true | _ => false end.

Definition is_err {A} (o : outcome A) : bool :=
  match o with Err _ => true | _ => false end.

(** State-and-error monad of a Go method over receiver state [S]. *)
Definition M (S A : Type) : Type := S -> outcome A * S.

Definition ret {S A} (a : A) : M S A := fun s => (Ok a, s).
Definition fail {S A} (msg : string) : M S A := fun s => (Err msg, s).
Definition panic {S A} (msg : string) : M S A := fun s => (Panic msg, s).
Definition get {S} : M S S := fun s => (Ok s, s).
Definition put {S} (s : S) : M S unit := fun _ => (Ok tt, s).
Definition modify {S} (f : S -> S) : M S unit := fun s => (Ok tt, f s).

Definition bind {S A B} (m : M S A) (f : A -> M S B) : M S B :=
  fun s =>
    match m s with
    | (Ok a, s') => f a s'
    | (Err e, s') => (Err e, s')
    | (Panic e, s') => (Panic e, s')
    end.

Notation "'let*' x := m 'in' k" := (bind m (fun x => k))
  (at level 10, x name, m at level 100, k at level 200).
Notation "'do*' m 'in' k" := (bind m (fun _ => k))
  (at level 10, m at level 100, k at level 200).

(** [if cond { return errors.New(msg) }] *)
Definition fail_if {S} (cond : bool) (msg : string) : M S unit :=
  if cond then fail msg else ret tt.

(** A sequence in which a [range] over the map [m] may visit its keys: every
    key once. *)
Definition range_order {V} (m : gmap N V) (order : list N) : Prop :=
  NoDup order /\ list_to_set order = dom m.

(** ** Package types *)

Module types.

Definition Address : Type := N.
Definition Hash : Type := N.

Definition Decimals : Z := 18.
Definition MaxValidators : Z := 21.
Definition MinStakeAmount : Z := 100000.
Definition EpochLength : Z := 1200.
Definition UnbondingPeriod : Z := 201600.

(** [ToWei(apx)] multiplies by [10^18] in [big.Float] arithmetic with a
    64-bit mantissa and truncates. For the two integral arguments the code
    passes (100000 and 10) the product has fewer than 64 significant bits,
    so the result is the exact integer product. *)
Definition ToWei (apx : Z) : Z := apx * 10 ^ Decimals.

(** *** Account *)

Record Account := mkAccount {
  acc_Address : Address;
  Balance : Z;
  Nonce : Z;
  Staked : Z;
  Locked : Z
}.

Definition NewAccount (addr : Address) : Account :=
  {| acc_Address := addr; Balance := 0; Nonce := 0; Staked := 0; Locked := 0 |}.

Definition AddBalance (a : Account) (amount : Z) : Account :=
  {| acc_Address := acc_Address a; Balance := Balance a + amount;
     Nonce := Nonce a; Staked := Staked a; Locked := Locked a |}.

(** Returns the updated account and the boolean the Go method returns. *)
Definition SubBalance (a : Account) (amount : Z) : Account * bool :=
  if Balance a <? amount then (a, false)
  else ({| acc_Address := acc_Address a; Balance := Balance a - amount;
           Nonce := Nonce a; Staked := Staked a; Locked := Locked a |}, true).

Definition AddStake (a : Account) (amount : Z) : Account :=
  {| acc_Address := acc_Address a; Balance := Balance a;
     Nonce := Nonce a; Staked := Staked a + amount; Locked := Locked a |}.

Definition SubStake (a : Account) (amount : Z) : Account * bool :=
  if Staked a <? amount then (a, false)
  else ({| acc_Address := acc_Address a; Balance := Balance a;
           Nonce := Nonce a; Staked := Staked a - amount; Locked := Locked a |}, true).

(** [account.Locked.Add(account.Locked, amount)] *)
Definition AddLocked (a : Account) (amount : Z) : Account :=
  {| acc_Address := acc_Address a; Balance := Balance a;
     Nonce := Nonce a; Staked := Staked a; Locked := Locked a + amount |}.

(** [account.Nonce++] on a [uint64] *)
Definition IncNonce (a : Account) : Account :=
  {| acc_Address := acc_Address a; Balance := Balance a;
     Nonce := u64 (Nonce a + 1); Staked := Staked a; Locked := Locked a |}.

Definition TotalBalance (a : Account) : Z := Balance a + Staked a + Locked a.

(** *** Validator *)

Inductive ValidatorStatus :=
| ValidatorStatusActive
| ValidatorStatusInactive
| ValidatorStatusJailed
| ValidatorStatusUnbonding.

#[global] Instance ValidatorStatus_eq_dec : EqDecision ValidatorStatus.
Proof. solve_decision. Defined.

Record Validator := mkValidator {
  val_Address : Address;
  PublicKey : list Z;
  VotingPower : Z;
  SelfStake : Z;
  Commission : Z;
  Status : ValidatorStatus;
  Jailed : bool;
  MissedBlocks : Z;
  ProducedBlocks : Z;
  LastActiveEpoch : Z;
  TotalRewards : Z
}.

#[global] Instance Validator_eq_dec : EqDecision Validator.
Proof. solve_decision. Defined.

Definition NewValidator (addr : Address) (pubKey : list Z) (selfStake : Z)
    (commission : Z) : Validator :=
  {| val_Address := addr; PublicKey := pubKey;
     VotingPower := selfStake; SelfStake := selfStake;
     Commission := commission; Status := ValidatorStatusActive;
     Jailed := false; MissedBlocks := 0; ProducedBlocks := 0;
     LastActiveEpoch := 0; TotalRewards := 0 |}.

Definition IsActive (v : Validator) : bool :=
  bool_decide (Status v = ValidatorStatusActive) && negb (Jailed v).

Definition CanProduceBlocks (v : Validator) : bool :=
  IsActive v && (ToWei MinStakeAmount <=? VotingPower v).

Definition set_VotingPower (v : Validator) (p : Z) : Validator :=
  {| val_Address := val_Address v; PublicKey := PublicKey v;
     VotingPower := p; SelfStake := SelfStake v;
     Commission := Commission v; Status := Status v;
     Jailed := Jailed v; MissedBlocks := MissedBlocks v;
     ProducedBlocks := ProducedBlocks v;
     LastActiveEpoch := LastActiveEpoch v; TotalRewards := TotalRewards v |}.

Definition set_SelfStake (v : Validator) (p : Z) : Validator :=
  {| val_Address := val_Address v; PublicKey := PublicKey v;
     VotingPower := VotingPower v; SelfStake := p;
     Commission := Commission v; Status := Status v;
     Jailed := Jailed v; MissedBlocks := MissedBlocks v;
     ProducedBlocks := ProducedBlocks v;
     LastActiveEpoch := LastActiveEpoch v; TotalRewards := TotalRewards v |}.

(** [validator.Jailed = true; validator.Status = ValidatorStatusJailed] *)
Definition set_Jailed (v : Validator) : Validator :=
  {| val_Address := val_Address v; PublicKey := PublicKey v;
     VotingPower := VotingPower v; SelfStake := SelfStake v;
     Commission := Commission v; Status := ValidatorStatusJailed;
     Jailed := true; MissedBlocks := MissedBlocks v;
     ProducedBlocks := ProducedBlocks v;
     LastActiveEpoch := LastActiveEpoch v; TotalRewards := TotalRewards v |}.

Definition AddVotingPower (v : Validator) (amount : Z) : Validator :=
  set_VotingPower v (VotingPower v + amount).

Definition SubVotingPower (v : Validator) (amount : Z) : Validator :=
  let p := VotingPower v - amount in
  if p <? 0 then set_VotingPower v 0 else set_VotingPower v p.

(** *** Delegation and UnbondingDelegation *)

Record Delegation := mkDelegation {
  del_Delegator : Address;
  del_Validator : Address;
  del_Amount : Z;
  del_Rewards : Z
}.

Definition NewDelegation (delegator validator : Address) (amount : Z) : Delegation :=
  {| del_Delegator := delegator; del_Validator := validator;
     del_Amount := amount; del_Rewards := 0 |}.

Definition set_Amount (d : Delegation) (a : Z) : Delegation :=
  {| del_Delegator := del_Delegator d; del_Validator := del_Validator d;
     del_Amount := a; del_Rewards := del_Rewards d |}.

Record UnbondingDelegation := mkUnbonding {
  ub_Delegator : Address;
  ub_Validator : Address;
  ub_Amount : Z;
  CompletionBlock : Z
}.

#[global] Instance UnbondingDelegation_eq_dec : EqDecision UnbondingDelegation.
Proof. solve_decision. Defined.

(** *** Rewards *)

Definition BlockTime : Z := 3.

Definition set_TotalRewards (v : Validator) (r : Z) : Validator :=
  {| val_Address := val_Address v; PublicKey := PublicKey v;
     VotingPower := VotingPower v; SelfStake := SelfStake v;
     Commission := Commission v; Status := Status v;
     Jailed := Jailed v; MissedBlocks := MissedBlocks v;
     ProducedBlocks := ProducedBlocks v;
     LastActiveEpoch := LastActiveEpoch v; TotalRewards := r |}.

(** [CalculateCommission]: [rewards * int64(Commission) / 10000] *)
Definition CalculateCommission (v : Validator) (rewards : Z) : Z :=
  rewards * to_int64 (Commission v) / 10000.

Definition set_Rewards (d : Delegation) (r : Z) : Delegation :=
  {| del_Delegator := del_Delegator d; del_Validator := del_Validator d;
     del_Amount := del_Amount d; del_Rewards := r |}.

Definition AddRewards (d : Delegation) (amount : Z) : Delegation :=
  set_Rewards d (del_Rewards d + amount).

Definition set_Commission (v : Validator) (c : Z) : Validator :=
  {| val_Address := val_Address v; PublicKey := PublicKey v;
     VotingPower := VotingPower v; SelfStake := SelfStake v;
     Commission := c; Status := Status v;
     Jailed := Jailed v; MissedBlocks := MissedBlocks v;
     ProducedBlocks := ProducedBlocks v;
     LastActiveEpoch := LastActiveEpoch v; TotalRewards := TotalRewards v |}.

Definition set_MissedBlocks (v : Validator) (n : Z) : Validator :=
  {| val_Address := val_Address v; PublicKey := PublicKey v;
     VotingPower := VotingPower v; SelfStake := SelfStake v;
     Commission := Commission v; Status := Status v;
     Jailed := Jailed v; MissedBlocks := n;
     ProducedBlocks := ProducedBlocks v;
     LastActiveEpoch := LastActiveEpoch v; TotalRewards := TotalRewards v |}.

End types.

(** ** Package storage: the state database

    [StateDB] serialises each record to JSON under a key derived from its
    address(es) in a key-value store. Every [Get] decodes a fresh copy, so the
    store holds values, not shared objects. The store itself is taken to be
    reliable: [Put] and [Delete] succeed, and [Get] fails exactly on an absent
    key. *)

Module storage.
Import types.

Record StateDB := mkStateDB {
  accounts : gmap Address Account;
  validators : gmap Address Validator;
  delegations : gmap (Address * Address) Delegation
}.

Definition ErrKeyNotFound : string := "Key not found".

Definition GetAccount (addr : Address) : M StateDB Account :=
  fun s => match accounts s !! addr with
           | Some a => (Ok a, s)
           | None => (Err ErrKeyNotFound, s)
           end.

Definition SetAccount (a : Account) : M StateDB unit :=
  modify (fun s => {| accounts := <[acc_Address a := a]> (accounts s);
                      validators := validators s;
                      delegations := delegations s |}).

Definition GetValidator (addr : Address) : M StateDB Validator :=
  fun s => match validators s !! addr with
           | Some v => (Ok v, s)
           | None => (Err ErrKeyNotFound, s)
           end.

Definition SetValidator (v : Validator) : M StateDB unit :=
  modify (fun s => {| accounts := accounts s;
                      validators := <[val_Address v := v]> (validators s);
                      delegations := delegations s |}).

Definition GetDelegation (delegator validator : Address) : M StateDB Delegation :=
  fun s => match delegations s !! (delegator, validator) with
           | Some d => (Ok d, s)
           | None => (Err ErrKeyNotFound, s)
           end.

Definition SetDelegation (d : Delegation) : M StateDB unit :=
  modify (fun s => {| accounts := accounts s;
                      validators := validators s;
                      delegations :=
                        <[(del_Delegator d, del_Validator d) := d]> (delegations s) |}).

Definition DeleteDelegation (delegator validator : Address) : M StateDB unit :=
  modify (fun s => {| accounts := accounts s;
                      validators := validators s;
                      delegations := delete (delegator, validator) (delegations s) |}).

(** [v, err := Get(..); if err != nil { v = dflt }] *)
Definition or_else {A} (m : M StateDB A) (dflt : A) : M StateDB A :=
  fun s => match m s with
           | (Err _, s') => (Ok dflt, s')
           | r => r
           end.

(** [v, err := Get(..); if err != nil { return errors.New(msg) }] *)
Definition or_fail {A} (m : M StateDB A) (msg : string) : M StateDB A :=
  fun s => match m s with
           | (Err _, s') => (Err msg, s')
           | r => r
           end.

(** The keys of the account table are the addresses of the accounts stored
    under them: [SetAccount] derives the key from the record. *)
Definition keyed (s : StateDB) : Prop :=
  forall k a, accounts s !! k = Some a -> acc_Address a = k.

End storage.

(** ** Package core: transactions and the executor *)

Module core.
Import types storage.

(** [TxType] is a [uint8]. *)
Definition TxTypeTransfer : Z := 0.
Definition TxTypeStake : Z := 1.
Definition TxTypeUnstake : Z := 2.
Definition TxTypeDelegate : Z := 3.
Definition TxTypeUndelegate : Z := 4.
Definition TxTypeVote : Z := 5.
Definition TxTypeCreateValidator : Z := 6.
Definition TxTypeEditValidator : Z := 7.

Record StakeData := mkStakeData {
  sd_Validator : Address;
  sd_Amount : Z
}.

Record CreateValidatorData := mkCreateValidatorData {
  cv_PublicKey : list Z;
  cv_Commission : Z;
  cv_SelfStake : Z
}.

(** [tx.Data] holds JSON bytes that each handler decodes with
    [json.Unmarshal] into the struct it expects. The payload is kept here
    as what each of the two decodings yields, [None] when [Unmarshal]
    returns an error. (The descriptive strings of [CreateValidatorData] are
    never read.) *)
Record TxData := mkTxData {
  asStakeData : option StakeData;
  asCreateValidatorData : option CreateValidatorData
}.

Record Transaction := mkTransaction {
  tx_Hash : Hash;
  tx_Type : Z;
  From : Address;
  To : Address;
  Value : Z;
  Data : TxData;
  tx_Nonce : Z;
  GasLimit : Z;
  GasPrice : Z;
  Signature : list Z
}.

Definition ErrUnmarshal : string := "json: cannot unmarshal".

Definition unmarshal {A} (o : option A) : M StateDB A :=
  match o with
  | Some a => ret a
  | None => fail ErrUnmarshal
  end.

(** [GetCost]: [Value + int64(GasLimit) * GasPrice] *)
Definition GetCost (tx : Transaction) : Z :=
  Value tx + to_int64 (GasLimit tx) * GasPrice tx.

Definition ErrInvalidTxValue : string := "invalid transaction value".
Definition ErrInvalidGasLimit : string := "invalid gas limit".
Definition ErrInvalidGasPrice : string := "invalid gas price".
Definition ErrMissingSignature : string := "missing signature".

(** [Transaction.Validate]; [None] is the [nil] error. *)
Definition Validate (tx : Transaction) : option string :=
  if Value tx <? 0 then Some ErrInvalidTxValue
  else if GasLimit tx =? 0 then Some ErrInvalidGasLimit
  else if GasPrice tx <=? 0 then Some ErrInvalidGasPrice
  else if (length (Signature tx) =? 0)%nat then Some ErrMissingSignature
  else None.

(** *** Executor *)

Definition executeTransfer (tx : Transaction) : M StateDB unit :=
  let* sender := GetAccount (From tx) in
  do* fail_if (negb (Nonce sender =? tx_Nonce tx)) "invalid nonce" in
  let cost := GetCost tx in
  do* fail_if (Balance sender <? cost) "insufficient balance" in
  let sender := fst (SubBalance sender cost) in
  let sender := IncNonce sender in
  let* recipient := or_else (GetAccount (To tx)) (NewAccount (To tx)) in
  let recipient := AddBalance recipient (Value tx) in
  do* SetAccount sender in
  do* SetAccount recipient in
  ret tt.

Definition executeStake (tx : Transaction) : M StateDB unit :=
  let* data := unmarshal (asStakeData (Data tx)) in
  let* account := GetAccount (From tx) in
  do* fail_if (Balance account <? sd_Amount data) "insufficient balance for staking" in
  let account := fst (SubBalance account (sd_Amount data)) in
  let account := AddStake account (sd_Amount data) in
  let account := IncNonce account in
  SetAccount account.

Definition executeUnstake (tx : Transaction) : M StateDB unit :=
  let* data := unmarshal (asStakeData (Data tx)) in
  let* account := GetAccount (From tx) in
  do* fail_if (Staked account <? sd_Amount data) "insufficient staked amount" in
  let account := fst (SubStake account (sd_Amount data)) in
  let account := AddLocked account (sd_Amount data) in
  let account := IncNonce account in
  SetAccount account.

Definition executeDelegate (tx : Transaction) : M StateDB unit :=
  let* data := unmarshal (asStakeData (Data tx)) in
  let* account := GetAccount (From tx) in
  do* fail_if (Balance account <? sd_Amount data) "insufficient balance for delegation" in
  let* validator := or_fail (GetValidator (sd_Validator data)) "validator not found" in
  let* delegation :=
    (fun s => match GetDelegation (From tx) (sd_Validator data) s with
              | (Ok d, s') => (Ok (set_Amount d (del_Amount d + sd_Amount data)), s')
              | (_, s') => (Ok (NewDelegation (From tx) (sd_Validator data) (sd_Amount data)), s')
              end) in
  let account := fst (SubBalance account (sd_Amount data)) in
  let account := AddStake account (sd_Amount data) in
  let account := IncNonce account in
  let validator := AddVotingPower validator (sd_Amount data) in
  do* SetAccount account in
  do* SetValidator validator in
  do* SetDelegation delegation in
  ret tt.

Definition executeUndelegate (tx : Transaction) : M StateDB unit :=
  let* data := unmarshal (asStakeData (Data tx)) in
  let* delegation := or_fail (GetDelegation (From tx) (sd_Validator data)) "delegation not found" in
  do* fail_if (del_Amount delegation <? sd_Amount data) "insufficient delegated amount" in
  let* validator := GetValidator (sd_Validator data) in
  let* account := GetAccount (From tx) in
  let delegation := set_Amount delegation (del_Amount delegation - sd_Amount data) in
  let validator := SubVotingPower validator (sd_Amount data) in
  let account := fst (SubStake account (sd_Amount data)) in
  let account := AddLocked account (sd_Amount data) in
  let account := IncNonce account in
  do* SetAccount account in
  do* SetValidator validator in
  if del_Amount delegation =? 0
  then DeleteDelegation (From tx) (sd_Validator data)
  else SetDelegation delegation.

Definition executeCreateValidator (tx : Transaction) : M StateDB unit :=
  let* data := unmarshal (asCreateValidatorData (Data tx)) in
  let* account := GetAccount (From tx) in
  do* fail_if (Balance account <? cv_SelfStake data) "insufficient balance for self-stake" in
  let validator := NewValidator (From tx) (cv_PublicKey data) (cv_SelfStake data)
                                (cv_Commission data) in
  let account := fst (SubBalance account (cv_SelfStake data)) in
  let account := AddStake account (cv_SelfStake data) in
  let account := IncNonce account in
  do* SetAccount account in
  SetValidator validator.

Definition ExecuteTransaction (tx : Transaction) : M StateDB unit :=
  if tx_Type tx =? TxTypeTransfer then executeTransfer tx
  else if tx_Type tx =? TxTypeStake then executeStake tx
  else if tx_Type tx =? TxTypeUnstake then executeUnstake tx
  else if tx_Type tx =? TxTypeDelegate then executeDelegate tx
  else if tx_Type tx =? TxTypeUndelegate then executeUndelegate tx
  else if tx_Type tx =? TxTypeCreateValidator then executeCreateValidator tx
  else fail "unknown transaction type".

(** [ExecuteBlock], on the block's transaction list. *)
Fixpoint ExecuteBlock (txs : list Transaction) : M StateDB unit :=
  match txs with
  | [] => ret tt
  | tx :: rest => do* ExecuteTransaction tx in ExecuteBlock rest
  end.

(** *** Blocks *)

Record BlockHeader := mkBlockHeader {
  hdr_Number : Z;
  PreviousHash : Hash;
  TransactionRoot : Hash;
  StateRoot : Hash;
  hdr_Validator : Address;
  hdr_Signature : list Z;
  GasUsed : Z;
  hdr_GasLimit : Z
}.

Record Block := mkBlock {
  Header : BlockHeader;
  Transactions : list Transaction;
  blk_Hash : Hash
}.

Definition NewBlock (number : Z) (previousHash : Hash) (validator : Address) : Block :=
  {| Header := {| hdr_Number := number; PreviousHash := previousHash;
                  TransactionRoot := 0%N; StateRoot := 0%N;
                  hdr_Validator := validator; hdr_Signature := [];
                  GasUsed := 0; hdr_GasLimit := 10000000 |};
     Transactions := []; blk_Hash := 0%N |}.

Definition set_GasUsed (h : BlockHeader) (g : Z) : BlockHeader :=
  {| hdr_Number := hdr_Number h; PreviousHash := PreviousHash h;
     TransactionRoot := TransactionRoot h; StateRoot := StateRoot h;
     hdr_Validator := hdr_Validator h; hdr_Signature := hdr_Signature h;
     GasUsed := g; hdr_GasLimit := hdr_GasLimit h |}.

(** [Block.AddTransaction]: the sum [GasUsed + txGas] is a [uint64] sum. *)
Definition AddTransaction (tx : Transaction) (b : Block) : Block * bool :=
  let txGas := GasLimit tx in
  if hdr_GasLimit (Header b) <? u64 (GasUsed (Header b) + txGas) then (b, false)
  else ({| Header := set_GasUsed (Header b) (u64 (GasUsed (Header b) + txGas));
           Transactions := (Transactions b ++ [tx])%list;
           blk_Hash := blk_Hash b |}, true).

(** The loop of [ProduceBlock] that fills the new block: every offered
    transaction the block accepts adds its gas price to [totalFees]. *)
Fixpoint fill_block (transactions : list Transaction) (block : Block) (totalFees : Z)
    : Block * Z :=
  match transactions with
  | [] => (block, totalFees)
  | tx :: rest =>
      let '(block', added) := AddTransaction tx block in
      if added then fill_block rest block' (totalFees + GasPrice tx)
      else fill_block rest block' totalFees
  end.

Definition GetTotalValue (b : Block) : Z :=
  foldr Z.add 0 (Value <$> Transactions b).

End core.

(** ** The parts of the Go runtime and standard library the code calls *)

Module goruntime.

(** [int64(f)] for a finite [float64]: truncation toward zero. *)
Definition int64_of_float (f : float) : Z :=
  match Prim2SF f with
  | S754_finite s m e =>
      let v := if 0 <=? e then Z.pos m * 2 ^ e else Z.pos m / 2 ^ (- e) in
      if s then - v else v
  | _ => 0
  end.

(** [sort.Slice] on a slice of at most twelve elements is a plain insertion
    sort: element [i] is swapped leftwards while it is [less] than its left
    neighbour. [ins_rev] works on the already sorted prefix held in reverse
    order. *)
Fixpoint ins_rev {A} (less : A -> A -> bool) (x : A) (rprefix : list A) : list A :=
  match rprefix with
  | [] => [x]
  | e :: rest => if less x e then e :: ins_rev less x rest else x :: e :: rest
  end.

Definition insertion_sort {A} (less : A -> A -> bool) (l : list A) : list A :=
  reverse (fold_left (fun acc x => ins_rev less x acc) l []).

(** What [sort.Slice] promises for any length, for a [less] that is a
    strict weak order: the result permutes the input, and no element is
    [less] than one placed before it. Nothing is promised about the
    relative order of elements neither of which is [less] than the other. *)
Definition sorted_by {A} (less : A -> A -> bool) : list A -> Prop :=
  StronglySorted (fun x y => less y x = false).

Definition sort_contract {A} (less : A -> A -> bool)
    (sort_slice : list A -> list A) : Prop :=
  forall l, sort_slice l ≡ₚ l /\ sorted_by less (sort_slice l).

(** *** container/heap over a slice, with the element order [less] *)

Section heap.
Context {A : Type} (less : A -> A -> bool).

(** [h.Less(i, j)] *)
Definition Less (h : list A) (i j : nat) : bool :=
  match h !! i, h !! j with
  | Some a, Some b => less a b
  | _, _ => false
  end.

(** [h.Swap(i, j)] *)
Definition Swap (h : list A) (i j : nat) : list A :=
  match h !! i, h !! j with
  | Some a, Some b => <[i := b]> (<[j := a]> h)
  | _, _ => h
  end.

(** [up(h, j)]: each round moves [j] to its parent, so [j + 1] rounds
    are enough. *)
Fixpoint up_loop (fuel : nat) (h : list A) (j : nat) : list A :=
  match fuel with
  | O => h
  | S fuel' =>
      let i := Z.to_nat (Z.quot (Z.of_nat j - 1) 2) in
      if bool_decide (i = j) || negb (Less h j i) then h
      else up_loop fuel' (Swap h i j) i
  end.

Definition up (h : list A) (j : nat) : list A := up_loop (S j) h j.

(** [down(h, i0, n)]: each round moves [i] to a child, so [n] rounds are
    enough. *)
Fixpoint down_loop (fuel : nat) (h : list A) (i n : nat) : list A :=
  match fuel with
  | O => h
  | S fuel' =>
      let j1 := (2 * i + 1)%nat in
      if bool_decide (n <= j1)%nat then h
      else
        let j2 := (j1 + 1)%nat in
        let j := if bool_decide (j2 < n)%nat && Less h j2 j1 then j2 else j1 in
        if negb (Less h j i) then h
        else down_loop fuel' (Swap h i j) j n
  end.

Definition down (h : list A) (i0 n : nat) : list A := down_loop n h i0 n.

(** [heap.Push(h, x)] *)
Definition heap_Push (h : list A) (x : A) : list A :=
  let h := (h ++ [x])%list in
  up h (length h - 1).

(** [heap.Pop(h)] on a non-empty heap: the popped element and the rest. *)
Definition heap_Pop (h : list A) : option (A * list A) :=
  let n := (length h - 1)%nat in
  let h := Swap h 0 n in
  let h := down h 0 n in
  match last h with
  | Some x => Some (x, take n h)
  | None => None
  end.
End heap.

(** *** [heap.Remove], and the heap invariant *)

Section heap_order.
Context {A : Type} (less : A -> A -> bool).

(** Where [down] stops; it reports whether that is below where it
    started. *)
Fixpoint down_stop (fuel : nat) (h : list A) (i n : nat) : nat :=
  match fuel with
  | O => i
  | S fuel' =>
      let j1 := (2 * i + 1)%nat in
      if bool_decide (n <= j1)%nat then i
      else
        let j2 := (j1 + 1)%nat in
        let j := if bool_decide (j2 < n)%nat && Less less h j2 j1 then j2 else j1 in
        if negb (Less less h j i) then i
        else down_stop fuel' (Swap h i j) j n
  end.

(** [heap.Remove(h, i)] *)
Definition heap_Remove (h : list A) (i : nat) : option (A * list A) :=
  let n := (length h - 1)%nat in
  let h :=
    if bool_decide (n = i) then h
    else
      let h := Swap h i n in
      let moved := bool_decide (i < down_stop n h i n)%nat in
      let h := down less h i n in
      if moved then h else up less h i in
  match last h with
  | Some x => Some (x, take n h)
  | None => None
  end.

(** The parent of slot [j] in the implicit binary tree. *)
Definition parent (j : nat) : nat := ((j - 1) / 2)%nat.

(** No element among the first [n] is [less] than its parent. *)
Definition heap_ordered_upto (n : nat) (h : list A) : Prop :=
  forall k, (0 < k < n)%nat -> Less less h k (parent k) = false.

Definition heap_ordered (h : list A) : Prop := heap_ordered_upto (length h) h.

(** Where slot [k] of [Swap h i j] comes from. *)
Definition swapped (i j k : nat) : nat :=
  if decide (k = i) then j else if decide (k = j) then i else k.

(** The state of [up] on the first [n] slots: only slot [j] may be less
    than its parent, and its children respect its parent. *)
Definition up_inv (n : nat) (h : list A) (j : nat) : Prop :=
  (forall k, (0 < k < n)%nat -> k <> j -> Less less h k (parent k) = false) /\
  (forall k, (0 < k < n)%nat -> parent k = j -> (0 < j)%nat ->
             Less less h k (parent j) = false).

(** The state of [down] on the first [n] slots: only the children of [i]
    may be less than it, and they respect its parent. *)
Definition down_inv (n : nat) (h : list A) (i : nat) : Prop :=
  (forall k, (0 < k < n)%nat -> parent k <> i -> Less less h k (parent k) = false) /\
  (forall k, (0 < k < n)%nat -> parent k = i -> (0 < i)%nat ->
             Less less h k (parent i) = false).

(** No child of slot [i] among the first [n] slots is less than it. *)
Definition settled (n : nat) (h : list A) (i : nat) : Prop :=
  forall k, (0 < k < n)%nat -> parent k = i -> Less less h k i = false.
End heap_order.

End goruntime.

(** ** Package consensus: the DPoS engine and the slasher *)

Module consensus.
Import types goruntime.

Record DPoS := mkDPoS {
  validators : gmap Address Validator;
  delegations : gmap Address (gmap Address Delegation);
  activeValidators : list Address;
  currentEpoch : Z
}.

Definition NewDPoS : DPoS :=
  {| validators := ∅; delegations := ∅; activeValidators := []; currentEpoch := 0 |}.

Definition set_validators (d : DPoS) (vs : gmap Address Validator) : DPoS :=
  {| validators := vs; delegations := delegations d;
     activeValidators := activeValidators d; currentEpoch := currentEpoch d |}.

Definition set_delegations (d : DPoS)
    (ds : gmap Address (gmap Address Delegation)) : DPoS :=
  {| validators := validators d; delegations := ds;
     activeValidators := activeValidators d; currentEpoch := currentEpoch d |}.

Definition set_activeValidators (d : DPoS) (l : list Address) : DPoS :=
  {| validators := validators d; delegations := delegations d;
     activeValidators := l; currentEpoch := currentEpoch d |}.

Definition RegisterValidator (validator : Validator) : M DPoS unit :=
  fun d =>
    if bool_decide (is_Some (validators d !! val_Address validator))
    then (Err "validator already registered", d)
    else if SelfStake validator <? ToWei MinStakeAmount
    then (Err "insufficient self-stake", d)
    else (Ok tt, set_validators d (<[val_Address validator := validator]> (validators d))).

(** [d.delegations[delegator]], an absent inner map reading as empty *)
Definition inner (d : DPoS) (delegator : Address) : gmap Address Delegation :=
  default ∅ (delegations d !! delegator).

Definition Delegate (delegator validator : Address) (amount : Z) : M DPoS unit :=
  fun d =>
    match validators d !! validator with
    | None => (Err "validator not found", d)
    | Some val =>
        let delegation :=
          match inner d delegator !! validator with
          | None => NewDelegation delegator validator amount
          | Some delegation => set_Amount delegation (del_Amount delegation + amount)
          end in
        let d := set_delegations d
                   (<[delegator := <[validator := delegation]> (inner d delegator)]>
                      (delegations d)) in
        let val := AddVotingPower val amount in
        (Ok tt, set_validators d (<[validator := val]> (validators d)))
    end.

Definition Undelegate (delegator validator : Address) (amount : Z) : M DPoS unit :=
  fun d =>
    match inner d delegator !! validator with
    | None => (Err "delegation not found", d)
    | Some delegation =>
        if del_Amount delegation <? amount
        then (Err "insufficient delegated amount", d)
        else
          let delegation := set_Amount delegation (del_Amount delegation - amount) in
          let d := set_delegations d
                     (<[delegator := <[validator := delegation]> (inner d delegator)]>
                        (delegations d)) in
          match validators d !! validator with
          | None => (Panic "nil pointer dereference", d)
          | Some val =>
              let val := SubVotingPower val amount in
              let d := set_validators d (<[validator := val]> (validators d)) in
              if del_Amount delegation =? 0
              then (Ok tt, set_delegations d
                             (<[delegator := delete validator (inner d delegator)]>
                                (delegations d)))
              else (Ok tt, d)
          end
    end.

(** The comparison handed to [sort.Slice]. *)
Definition by_power (a b : Address * Validator) : bool :=
  VotingPower (snd b) <? VotingPower (snd a).

(** The validators a [range] over the registry yields when it visits the
    keys in the sequence [order]. *)
Definition ranged (d : DPoS) (order : list Address) : list (Address * Validator) :=
  omap (fun k => (fun v => (k, v)) <$> validators d !! k) order.

(** [SelectValidators]. [sort_slice] is [sort.Slice] with the comparison
    above; [order] is the sequence in which the [range] visits the
    registry. Returns the validators the selected pointers point to. *)
Definition SelectValidators
    (sort_slice : list (Address * Validator) -> list (Address * Validator))
    (order : list Address) : M DPoS (list Validator) :=
  fun d =>
    let validators := filter (fun kv => CanProduceBlocks (snd kv) = true) (ranged d order) in
    let validators := sort_slice validators in
    let maxValidators := MaxValidators in
    let maxValidators :=
      if Z.of_nat (length validators) <? maxValidators
      then Z.of_nat (length validators) else maxValidators in
    let top := take (Z.to_nat maxValidators) validators in
    (Ok (snd <$> top), set_activeValidators d (fst <$> top)).

Definition GetBlockProducer (blockNumber : Z) : M DPoS Address :=
  fun d =>
    if (length (activeValidators d) =? 0)%nat
    then (Err "no active validators", d)
    else
      let index := blockNumber mod Z.of_nat (length (activeValidators d)) in
      match activeValidators d !! Z.to_nat index with
      | Some v => (Ok v, d)
      | None => (Panic "index out of range", d)
      end.

Definition GetValidator (addr : Address) : M DPoS Validator :=
  fun d =>
    match validators d !! addr with
    | Some v => (Ok v, d)
    | None => (Err "validator not found", d)
    end.

(** *** Slasher *)

Definition SlashingReasonDoubleSign : Z := 0.
Definition SlashingReasonDowntime : Z := 1.
Definition SlashingReasonInvalidBlock : Z := 2.

Record SlashingEvent := mkSlashingEvent {
  ev_Validator : Address;
  ev_Reason : Z;
  ev_Amount : Z;
  ev_BlockNum : Z
}.

Record Slasher := mkSlasher {
  dpos : DPoS;
  events : list SlashingEvent
}.

(** The [switch] that sets [slashPercentage]. *)
Definition slashPercentage (reason : Z) : option float :=
  if reason =? SlashingReasonDoubleSign then Some 0.05%float
  else if reason =? SlashingReasonDowntime then Some 0.01%float
  else if reason =? SlashingReasonInvalidBlock then Some 0.03%float
  else None.

(** [big.NewInt(int64(slashPercentage*10000))] *)
Definition basisPoints (pct : float) : Z :=
  int64_of_float (pct * 10000)%float.

(** Runs a DPoS method on the engine the slasher points to. *)
Definition on_dpos {A} (m : M DPoS A) : M Slasher A :=
  fun s => let '(r, d) := m (dpos s) in (r, {| dpos := d; events := events s |}).

Definition SlashValidator (address : Address) (reason blockNum : Z) : M Slasher unit :=
  let* validator := on_dpos (GetValidator address) in
  match slashPercentage reason with
  | None => fail "unknown slashing reason"
  | Some pct =>
      let slashAmount := VotingPower validator * basisPoints pct / 10000 in
      let validator := SubVotingPower validator slashAmount in
      let selfStakeSlash := SelfStake validator * basisPoints pct / 10000 in
      let validator := set_SelfStake validator (SelfStake validator - selfStakeSlash) in
      let event := {| ev_Validator := address; ev_Reason := reason;
                      ev_Amount := slashAmount; ev_BlockNum := blockNum |} in
      let validator :=
        if (reason =? SlashingReasonDoubleSign) || (reason =? SlashingReasonInvalidBlock)
        then set_Jailed validator else validator in
      fun s =>
        (Ok tt, {| dpos := set_validators (dpos s)
                             (<[address := validator]> (validators (dpos s)));
                   events := (events s ++ [event])%list |})
  end.

(** The percentage of a slashing reason: 5, 1, 3. *)
Definition percent (reason : Z) : Z :=
  if reason =? SlashingReasonDoubleSign then 5
  else if reason =? SlashingReasonDowntime then 1
  else 3.

(** The registered validators that may produce blocks. *)
Definition eligible (d : DPoS) : list (Address * Validator) :=
  filter (fun kv => CanProduceBlocks (snd kv) = true) (map_to_list (validators d)).

(** No two validators that may produce blocks have the same voting power. *)
Definition distinct_powers (d : DPoS) : Prop :=
  forall k1 k2 v1 v2,
    validators d !! k1 = Some v1 -> validators d !! k2 = Some v2 ->
    CanProduceBlocks v1 = true -> CanProduceBlocks v2 = true ->
    VotingPower v1 = VotingPower v2 -> k1 = k2.

(** The calls that change voting power, as a client of the engine and of
    the slasher issues them. *)
Inductive Op :=
| OpDelegate (delegator validator : Address) (amount : Z)
| OpUndelegate (delegator validator : Address) (amount : Z)
| OpSlash (address : Address) (reason blockNum : Z).

Definition run_op (op : Op) : M Slasher unit :=
  match op with
  | OpDelegate delegator validator amount => on_dpos (Delegate delegator validator amount)
  | OpUndelegate delegator validator amount => on_dpos (Undelegate delegator validator amount)
  | OpSlash address reason blockNum => SlashValidator address reason blockNum
  end.

(** The state after a sequence of calls, whatever each one returned. *)
Fixpoint run_ops (ops : list Op) (s : Slasher) : Slasher :=
  match ops with
  | [] => s
  | op :: rest => run_ops rest (snd (run_op op s))
  end.

(** *** Validator manager *)

(** [ValidatorManager.CreateValidator] *)
Definition CreateValidator (address : Address) (pubKey : list Z)
    (selfStake commission : Z) : M DPoS unit :=
  if 10000 <? commission then fail "commission rate must be <= 100%"
  else if selfStake <? ToWei MinStakeAmount then fail "insufficient self-stake for validator"
  else RegisterValidator (NewValidator address pubKey selfStake commission).

(** [ValidatorManager.EditValidator]; [None] is the [nil] commission. *)
Definition EditValidator (address : Address) (commission : option Z) : M DPoS unit :=
  let* validator := GetValidator address in
  match commission with
  | None => ret tt
  | Some c =>
      if 10000 <? c then fail "commission rate must be <= 100%"
      else modify (fun d => set_validators d
                              (<[address := set_Commission validator c]> (validators d)))
  end.

(** [ValidatorManager.JailValidator] (the jail time it also records is a
    wall-clock field) *)
Definition JailValidator (address : Address) : M DPoS unit :=
  let* validator := GetValidator address in
  if Jailed validator then fail "validator already jailed"
  else modify (fun d => set_validators d
                          (<[address := set_Jailed validator]> (validators d))).

Definition missedBlockThreshold : Z := 100.

(** [ValidatorManager.IncrementMissedBlocks] *)
Definition IncrementMissedBlocks (address : Address) : M DPoS unit :=
  let* validator := GetValidator address in
  let validator := set_MissedBlocks validator (u64 (MissedBlocks validator + 1)) in
  do* modify (fun d => set_validators d (<[address := validator]> (validators d))) in
  if (missedBlockThreshold <=? MissedBlocks validator) && negb (Jailed validator)
  then JailValidator address
  else ret tt.

(** The calls of the validator manager that write to the registry. *)
Inductive ManagerOp :=
| OpCreateValidator (address : Address) (pubKey : list Z) (selfStake commission : Z)
| OpEditValidator (address : Address) (commission : option Z)
| OpJailValidator (address : Address)
| OpIncrementMissedBlocks (address : Address).

Definition run_manager_op (op : ManagerOp) : M DPoS unit :=
  match op with
  | OpCreateValidator address pubKey selfStake commission =>
      CreateValidator address pubKey selfStake commission
  | OpEditValidator address commission => EditValidator address commission
  | OpJailValidator address => JailValidator address
  | OpIncrementMissedBlocks address => IncrementMissedBlocks address
  end.

Fixpoint run_manager_ops (ops : list ManagerOp) (d : DPoS) : DPoS :=
  match ops with
  | [] => d
  | op :: rest => run_manager_ops rest (snd (run_manager_op op d))
  end.

(** Every validator is registered under its own address, with a commission
    of at most 10000 basis points and a self-stake of at least the minimum. *)
Definition registry_sound (d : DPoS) : Prop :=
  map_Forall (fun k v => val_Address v = k /\ Commission v <= 10000 /\
                         ToWei MinStakeAmount <= SelfStake v) (validators d).

(** *** Reward calculator *)

(** A positive [big.Float] value [m * 2^e] rounded to [prec] mantissa bits,
    to nearest, ties to even. *)
Definition round_mantissa (prec m e : Z) : Z * Z :=
  let bits := Z.log2 m + 1 in
  if bits <=? prec then (m, e)
  else
    let sh := bits - prec in
    let q := m / 2 ^ sh in
    let r := m mod 2 ^ sh in
    let half := 2 ^ (sh - 1) in
    if (half <? r) || ((r =? half) && Z.odd q) then (q + 1, e + sh) else (q, e + sh).

(** [types.ToWei] on its [float64] argument: the argument, exact with a
    53-bit mantissa, is multiplied by [10^18] held with a 64-bit mantissa;
    the product gets the larger precision, 64 bits, and [Int] truncates it
    toward zero. *)
Definition ToWeiFloat (apx : float) : Z :=
  match Prim2SF apx with
  | S754_finite s m e =>
      let '(m', e') := round_mantissa 64 (Z.pos m * 10 ^ Decimals) e in
      let v := if 0 <=? e' then m' * 2 ^ e' else m' / 2 ^ (- e') in
      if s then - v else v
  | _ => 0
  end.

Definition blocksPerYear : Z := 365 * 24 * 60 * 60 / BlockTime.
Definition halvingPeriod : Z := blocksPerYear * 4.

(** [CalculateBlockReward]: the loop divides the reward by two once per
    halving. *)
Definition CalculateBlockReward (blockNumber : Z) : Z :=
  let baseReward := ToWeiFloat 2 in
  let halvings := blockNumber / halvingPeriod in
  let reward := Nat.iter (Z.to_nat halvings) (fun reward => reward / 2) baseReward in
  let minReward := ToWeiFloat 0.1 in
  if reward <? minReward then minReward else reward.

(** [DPoS.GetDelegation] *)
Definition GetDelegation (delegator validator : Address) : M DPoS Delegation :=
  fun d =>
    match delegations d !! delegator with
    | None => (Err "no delegations found", d)
    | Some ds =>
        match ds !! validator with
        | None => (Err "delegation not found", d)
        | Some delegation => (Ok delegation, d)
        end
    end.

(** One round of the loop of [distributeToDelegate], for the key
    [delegatorAddr]. The caller has checked that the voting power is
    positive, where [big.Int.Div] is the floor division. *)
Definition reward_delegator (validatorAddr : Address) (totalReward votingPower : Z)
    (ds : gmap Address (gmap Address Delegation)) (delegatorAddr : Address)
    : gmap Address (gmap Address Delegation) :=
  match ds !! delegatorAddr with
  | None => ds
  | Some delegations =>
      match delegations !! validatorAddr with
      | None => ds
      | Some delegation =>
          let share := totalReward * del_Amount delegation / votingPower in
          <[delegatorAddr := <[validatorAddr := AddRewards delegation share]> delegations]> ds
      end
  end.

(** [distributeToDelegate]; [order] is the sequence in which the [range]
    visits the delegators. *)
Definition distributeToDelegate (validatorAddr : Address) (totalReward : Z)
    (order : list Address) : M DPoS unit :=
  fun d =>
    match validators d !! validatorAddr with
    | None => (Panic "nil pointer dereference", d)
    | Some validator =>
        (Ok tt, set_delegations d
                  (fold_left (reward_delegator validatorAddr totalReward
                                (VotingPower validator))
                     order (delegations d)))
    end.

Definition DistributeBlockReward (validatorAddr : Address) (blockNumber txFees : Z)
    (order : list Address) : M DPoS unit :=
  let* validator := GetValidator validatorAddr in
  let blockReward := CalculateBlockReward blockNumber in
  let totalReward := blockReward + txFees in
  let commission := CalculateCommission validator totalReward in
  let delegatorReward := totalReward - commission in
  let validator := set_TotalRewards validator (TotalRewards validator + commission) in
  do* modify (fun d => set_validators d (<[validatorAddr := validator]> (validators d))) in
  if 0 <? VotingPower validator
  then distributeToDelegate validatorAddr delegatorReward order
  else ret tt.

(** A delegator's delegations after [distributeToDelegate] has credited the
    one to [validatorAddr], if there is one. *)
Definition credit_share (validatorAddr : Address) (totalReward votingPower : Z)
    (delegations : gmap Address Delegation) : gmap Address Delegation :=
  match delegations !! validatorAddr with
  | None => delegations
  | Some delegation =>
      <[validatorAddr := AddRewards delegation
                           (totalReward * del_Amount delegation / votingPower)]> delegations
  end.

Definition Zsum (l : list Z) : Z := foldr Z.add 0 l.

(** The stake the delegators listed in [order] have delegated to
    [validatorAddr], and the rewards their delegations to it have
    accumulated. *)
Definition delegated_to (d : DPoS) (validatorAddr : Address) (order : list Address) : Z :=
  Zsum ((fun k => default 0 (del_Amount <$> inner d k !! validatorAddr)) <$> order).

Definition rewards_of (d : DPoS) (validatorAddr : Address) (order : list Address) : Z :=
  Zsum ((fun k => default 0 (del_Rewards <$> inner d k !! validatorAddr)) <$> order).

(** [ClaimRewards] *)
Definition ClaimRewards (delegatorAddr validatorAddr : Address) : M DPoS Z :=
  let* delegation := GetDelegation delegatorAddr validatorAddr in
  if del_Rewards delegation =? 0 then fail "no rewards to claim"
  else
    let rewards := del_Rewards delegation in
    do* modify (fun d =>
                  set_delegations d
                    (<[delegatorAddr := <[validatorAddr := set_Rewards delegation 0]>
                                          (inner d delegatorAddr)]> (delegations d))) in
    ret rewards.

(** [DetectDoubleSign] *)
Definition DetectDoubleSign (address : Address) (block1Height block2Height : Z)
    : M Slasher unit :=
  if block1Height =? block2Height
  then SlashValidator address SlashingReasonDoubleSign block1Height
  else ret tt.

(** [CheckDowntime]; the threshold constant of the code is 50. *)
Definition downtimeThreshold : Z := 50.

Definition CheckDowntime (address : Address) (missedBlocks : Z) : M Slasher unit :=
  if downtimeThreshold <=? missedBlocks then
    let* validator := on_dpos (GetValidator address) in
    SlashValidator address SlashingReasonDowntime (LastActiveEpoch validator)
  else ret tt.

(** [GetValidatorSlashingHistory] *)
Definition GetValidatorSlashingHistory (address : Address) (s : Slasher)
    : list SlashingEvent :=
  filter (fun event => ev_Validator event = address) (events s).

(** Every registered validator has a voting power of at least zero. *)
Definition powers_nonneg (s : Slasher) : Prop :=
  map_Forall (fun _ v => 0 <= VotingPower v) (validators (dpos s)).

(** The amount a call adds to a voting power is not negative. *)
Definition adds_nonneg (op : Op) : Prop :=
  match op with
  | OpDelegate _ _ amount => 0 <= amount
  | _ => True
  end.

End consensus.

(** ** Package staking: the staking manager and its unbonding queue *)

Module staking.
Import types consensus.

Record StakingManager := mkStakingManager {
  sm_dpos : DPoS;
  unbondingQueue : gmap Address (list UnbondingDelegation);
  minStakeAmount : Z;
  unbondingPeriod : Z
}.

Definition NewStakingManager (d : DPoS) : StakingManager :=
  {| sm_dpos := d; unbondingQueue := ∅;
     minStakeAmount := ToWei 10; unbondingPeriod := UnbondingPeriod |}.

Definition set_dpos (sm : StakingManager) (d : DPoS) : StakingManager :=
  {| sm_dpos := d; unbondingQueue := unbondingQueue sm;
     minStakeAmount := minStakeAmount sm; unbondingPeriod := unbondingPeriod sm |}.

Definition set_unbondingQueue (sm : StakingManager)
    (q : gmap Address (list UnbondingDelegation)) : StakingManager :=
  {| sm_dpos := sm_dpos sm; unbondingQueue := q;
     minStakeAmount := minStakeAmount sm; unbondingPeriod := unbondingPeriod sm |}.

(** Runs a DPoS method on the engine the manager points to. *)
Definition on_dpos {A} (m : M DPoS A) : M StakingManager A :=
  fun sm => let '(r, d) := m (sm_dpos sm) in (r, set_dpos sm d).

Definition Stake (delegator validator : Address) (amount : Z) : M StakingManager unit :=
  fun sm =>
    if amount <? minStakeAmount sm then (Err "stake amount below minimum", sm)
    else on_dpos (Delegate delegator validator amount) sm.

(** [sm.unbondingQueue[delegator]], an absent entry reading as the nil slice *)
Definition queued (sm : StakingManager) (delegator : Address) : list UnbondingDelegation :=
  default [] (unbondingQueue sm !! delegator).

Definition Unstake (delegator validator : Address) (amount currentBlock : Z)
    : M StakingManager unit :=
  do* on_dpos (Undelegate delegator validator amount) in
  fun sm =>
    let unbonding :=
      {| ub_Delegator := delegator; ub_Validator := validator; ub_Amount := amount;
         CompletionBlock := u64 (currentBlock + unbondingPeriod sm) |} in
    (Ok tt, set_unbondingQueue sm
              (<[delegator := (queued sm delegator ++ [unbonding])%list]>
                 (unbondingQueue sm))).

(** The entries of a slice that are complete at [currentBlock]
    ([currentBlock >= unbonding.CompletionBlock]), and the others. *)
Definition matured (currentBlock : Z) (l : list UnbondingDelegation)
    : list UnbondingDelegation :=
  filter (fun u => CompletionBlock u <= currentBlock) l.

Definition pending (currentBlock : Z) (l : list UnbondingDelegation)
    : list UnbondingDelegation :=
  filter (fun u => ~ CompletionBlock u <= currentBlock) l.

(** One round of the outer loop of [ProcessUnbonding], for the key
    [delegator]: its entries are split into the completed ones, appended to
    [completed], and the remaining ones, which replace the entry of the
    queue or, when none remains, make the key be deleted. *)
Definition process_delegator (currentBlock : Z)
    (st : list UnbondingDelegation * gmap Address (list UnbondingDelegation))
    (delegator : Address)
    : list UnbondingDelegation * gmap Address (list UnbondingDelegation) :=
  let '(completed, queue) := st in
  match queue !! delegator with
  | None => (completed, queue)
  | Some unbondings =>
      let done := matured currentBlock unbondings in
      let remaining := pending currentBlock unbondings in
      ((completed ++ done)%list,
       if (0 <? length remaining)%nat then <[delegator := remaining]> queue
       else delete delegator queue)
  end.

(** [ProcessUnbonding]; [order] is the sequence in which the [range] visits
    the keys of the queue. *)
Definition ProcessUnbonding (currentBlock : Z) (order : list Address)
    : M StakingManager (list UnbondingDelegation) :=
  fun sm =>
    let '(completed, queue) :=
      fold_left (process_delegator currentBlock) order ([], unbondingQueue sm) in
    (Ok completed, set_unbondingQueue sm queue).

Definition Redelegate (delegator srcValidator dstValidator : Address) (amount : Z)
    : M StakingManager unit :=
  do* on_dpos (Undelegate delegator srcValidator amount) in
  on_dpos (Delegate delegator dstValidator amount).

End staking.

(** ** Package mempool *)

Module mempool.
Import types core goruntime.

(** [txHeap.Less]: higher gas price first. *)
Definition txLess (a b : Transaction) : bool := GasPrice b <? GasPrice a.

Record Mempool := mkMempool {
  transactions : gmap Hash Transaction;
  queue : list Transaction;
  maxSize : Z
}.

Definition NewMempool (maxSize : Z) : Mempool :=
  {| transactions := ∅; queue := []; maxSize := maxSize |}.

(** [PriorityQueue.Pop]: [None] is the [nil] it returns on an empty queue. *)
Definition Pop (items : list Transaction) : option Transaction * list Transaction :=
  if (length items =? 0)%nat then (None, items)
  else match heap_Pop txLess items with
       | Some (x, rest) => (Some x, rest)
       | None => (None, items)
       end.

Definition Push (items : list Transaction) (tx : Transaction) : list Transaction :=
  heap_Push txLess items tx.

Definition AddTransaction (tx : Transaction) : M Mempool unit :=
  fun m =>
    if bool_decide (is_Some (transactions m !! tx_Hash tx))
    then (Err "transaction already in mempool", m)
    else match Validate tx with
    | Some e => (Err e, m)
    | None =>
        let m :=
          if maxSize m <=? Z.of_nat (size (transactions m)) then
            match Pop (queue m) with
            | (Some lowest, rest) =>
                {| transactions := delete (tx_Hash lowest) (transactions m);
                   queue := rest; maxSize := maxSize m |}
            | (None, rest) =>
                {| transactions := transactions m; queue := rest; maxSize := maxSize m |}
            end
          else m in
        (Ok tt, {| transactions := <[tx_Hash tx := tx]> (transactions m);
                   queue := Push (queue m) tx; maxSize := maxSize m |})
    end.

(** [Mempool.Has], [Mempool.Size] *)
Definition Has (m : Mempool) (hash : Hash) : bool :=
  bool_decide (is_Some (transactions m !! hash)).

Definition Size (m : Mempool) : Z := Z.of_nat (size (transactions m)).

(** [PriorityQueue.Top]: the first [n] slots of the heap array; [make]
    panics on a negative length. *)
Definition Top (items : list Transaction) (n : Z) : outcome (list Transaction) :=
  let n := if Z.of_nat (length items) <? n then Z.of_nat (length items) else n in
  if n <? 0 then Panic "makeslice: len out of range"
  else Ok (take (Z.to_nat n) items).

(** [Mempool.GetTransactions] *)
Definition GetTransactions (limit : Z) (m : Mempool) : outcome (list Transaction) :=
  Top (queue m) limit.

(** The index and the queue hold the same transactions, each indexed under
    its own hash, and the queue is a heap for [txLess]. *)
Definition pool_sound (m : Mempool) : Prop :=
  queue m ≡ₚ (map_to_list (transactions m)).*2 /\
  map_Forall (fun hash tx => tx_Hash tx = hash) (transactions m) /\
  heap_ordered txLess (queue m).

(** [PriorityQueue.Remove]: the first slot holding the hash leaves the
    heap. *)
Definition Remove (items : list Transaction) (tx : Transaction) : list Transaction :=
  match list_find (fun item => tx_Hash item = tx_Hash tx) items with
  | Some (i, _) =>
      match heap_Remove txLess items i with
      | Some (_, rest) => rest
      | None => items
      end
  | None => items
  end.

(** [Mempool.RemoveTransaction], [Mempool.RemoveTransactions],
    [Mempool.Clear] *)
Definition RemoveTransaction (hash : Hash) (m : Mempool) : Mempool :=
  match transactions m !! hash with
  | Some tx => {| transactions := delete hash (transactions m);
                  queue := Remove (queue m) tx; maxSize := maxSize m |}
  | None => m
  end.

Definition RemoveTransactions (hashes : list Hash) (m : Mempool) : Mempool :=
  foldl (fun m hash => RemoveTransaction hash m) m hashes.

Definition Clear (m : Mempool) : Mempool :=
  {| transactions := ∅; queue := []; maxSize := maxSize m |}.

End mempool.

(** ** Concrete ledgers, transactions and registries used by the examples *)

Module scenarios.
Import types storage core consensus staking mempool goruntime.

Definition alice : Address := 1%N.
Definition bob : Address := 2%N.
Definition val1 : Address := 10%N.
Definition val2 : Address := 11%N.

Definition funded (addr : Address) (balance : Z) : Account :=
  {| acc_Address := addr; Balance := balance; Nonce := 0; Staked := 0; Locked := 0 |}.

(** A ledger holding one account, [alice], with 100000 units. *)
Definition ledger0 : StateDB :=
  {| storage.accounts := {[ alice := funded alice 100000 ]};
     storage.validators := ∅; storage.delegations := ∅ |}.

Definition no_data : TxData := {| asStakeData := None; asCreateValidatorData := None |}.

Definition transfer (h : Hash) (from to : Address) (value nonce gasLimit gasPrice : Z)
    : Transaction :=
  {| tx_Hash := h; tx_Type := TxTypeTransfer; From := from; To := to; Value := value;
     Data := no_data; tx_Nonce := nonce; GasLimit := gasLimit; GasPrice := gasPrice;
     Signature := [1] |}.

(** alice pays bob 10, gas 21000 at price 1, nonce 0 *)
Definition pay_bob : Transaction := transfer 1%N alice bob 10 0 21000 1.
(** the same payment with a nonce alice's account does not have *)
Definition pay_bob_stale : Transaction := transfer 2%N alice bob 10 7 21000 1.
Definition block_ok_then_bad : list Transaction := [pay_bob; pay_bob_stale].

(** alice pays herself 10 *)
Definition pay_self : Transaction := transfer 3%N alice alice 10 0 21000 1.

(** alice stakes 10, nonce 0 *)
Definition stake10 : Transaction :=
  {| tx_Hash := 4%N; tx_Type := TxTypeStake; From := alice; To := alice; Value := 0;
     Data := {| asStakeData := Some {| sd_Validator := val1; sd_Amount := 10 |};
                asCreateValidatorData := None |};
     tx_Nonce := 0; GasLimit := 21000; GasPrice := 1; Signature := [1] |}.

(** alice registers as a validator with a self-stake of 1 unit *)
Definition create_tiny_validator : Transaction :=
  {| tx_Hash := 5%N; tx_Type := TxTypeCreateValidator; From := alice; To := alice;
     Value := 0;
     Data := {| asStakeData := None;
                asCreateValidatorData :=
                  Some {| cv_PublicKey := [4]; cv_Commission := 1000; cv_SelfStake := 1 |} |};
     tx_Nonce := 0; GasLimit := 21000; GasPrice := 1; Signature := [1] |}.

(** Three pending transfers with gas prices 1, 5 and 3, and a pool of
    capacity 2 that holds the first two. *)
Definition cheap : Transaction := transfer 101%N alice bob 1 0 21000 1.
Definition dear : Transaction := transfer 105%N alice bob 1 1 21000 5.
Definition middle : Transaction := transfer 103%N alice bob 1 2 21000 3.
Definition full_pool : Mempool :=
  snd (AddTransaction dear (snd (AddTransaction cheap (NewMempool 2)))).

(** Registries *)
Definition validator_with (addr : Address) (power : Z) : Validator :=
  NewValidator addr [] power 1000.

Definition min_power : Z := ToWei MinStakeAmount.

(** two validators of equal voting power *)
Definition tied : DPoS :=
  {| consensus.validators :=
       {[ val1 := validator_with val1 min_power; val2 := validator_with val2 min_power ]};
     consensus.delegations := ∅; activeValidators := []; currentEpoch := 0 |}.

(** two validators of different voting power, [val2] the stronger *)
Definition ranked : DPoS :=
  {| consensus.validators :=
       {[ val1 := validator_with val1 min_power;
          val2 := validator_with val2 (2 * min_power) ]};
     consensus.delegations := ∅; activeValidators := []; currentEpoch := 0 |}.

Definition sort_by_power := insertion_sort by_power.

(** [ranked] after a selection *)
Definition elected : DPoS := snd (SelectValidators sort_by_power [val1; val2] ranked).

(** a validator of voting power and self-stake 1,000,000 *)
Definition million : Slasher :=
  {| dpos := {| consensus.validators := {[ val1 := validator_with val1 1000000 ]};
                consensus.delegations := ∅; activeValidators := []; currentEpoch := 0 |};
     events := [] |}.

(** a slasher over [ranked] *)
Definition ranked_slasher : Slasher := {| dpos := ranked; events := [] |}.

(** alice "delegates" a negative amount that exceeds [val1]'s voting power by one *)
Definition negative_delegation : Op := OpDelegate alice val1 (- min_power - 1).

(** a delegation, its withdrawal, and a slashing for downtime *)
Definition usual_ops : list Op :=
  [OpDelegate alice val1 500; OpUndelegate alice val1 500;
   OpSlash val1 SlashingReasonDowntime 9].

(** alice has delegated [2 * 10^19] to [val1] *)
Definition staked_manager : StakingManager :=
  snd (Stake alice val1 (2 * ToWei 10) (NewStakingManager ranked)).

Definition unstaking_manager : StakingManager :=
  snd (Unstake alice val1 (ToWei 10) 1000 staked_manager).

(** the ledger after alice has paid bob *)
Definition ledger_paid : StateDB := snd (ExecuteTransaction pay_bob ledger0).

(** a ledger with alice's account and the validator [val1] *)
Definition ledger_val : StateDB :=
  {| storage.accounts := {[ alice := funded alice 100000 ]};
     storage.validators := {[ val1 := validator_with val1 min_power ]};
     storage.delegations := ∅ |}.

Definition staking_tx (h : Hash) (type : Z) (amount nonce : Z) : Transaction :=
  {| tx_Hash := h; tx_Type := type; From := alice; To := alice; Value := 0;
     Data := {| asStakeData := Some {| sd_Validator := val1; sd_Amount := amount |};
                asCreateValidatorData := None |};
     tx_Nonce := nonce; GasLimit := 21000; GasPrice := 1; Signature := [1] |}.

(** alice delegates 10 to [val1], unstakes 10, then undelegates the 10 *)
Definition delegate10 : Transaction := staking_tx 6%N TxTypeDelegate 10 0.
Definition unstake10 : Transaction := staking_tx 7%N TxTypeUnstake 10 1.
Definition undelegate10 : Transaction := staking_tx 8%N TxTypeUndelegate 10 2.
Definition ledger_unstaked : StateDB :=
  snd (ExecuteBlock [delegate10; unstake10] ledger_val).

(** the engine of [staked_manager]: alice has [2 * 10^19] delegated to [val1],
    whose voting power is [10^23 + 2 * 10^19] and whose commission is 10% *)
Definition staked_engine : DPoS := sm_dpos staked_manager.

(** the engine after [val1] was paid for block 1 with no fees *)
Definition rewarded_engine : DPoS :=
  snd (DistributeBlockReward val1 1 0 [alice] staked_engine).

(** a fresh block at height 1, and a transfer that asks for all the gas a
    [uint64] can name *)
Definition block1 : Block := NewBlock 1 0%N val1.
Definition greedy : Transaction := transfer 9%N alice bob 1 1 (2 ^ 64 - 1) 1.

(** a day of the validator manager *)
Definition manager_ops : list ManagerOp :=
  [OpCreateValidator bob [] min_power 500; OpEditValidator bob (Some 10001);
   OpEditValidator val1 (Some 10000); OpCreateValidator alice [] min_power 20000].

End scenarios.

(** * Properties *)

(** ** Machine integers and the monad *)

Lemma u64_small z : 0 <= z < 2 ^ 64 -> u64 z = z.
Proof. intros H. unfold u64. by apply Z.mod_small. Qed.

Lemma to_int64_small z : z < 2 ^ 63 -> to_int64 z = z.
Proof. intros H. unfold to_int64. case_match; [done | lia]. Qed.

Lemma bind_ok {S A B} (m : M S A) (f : A -> M S B) s b s' :
  bind m f s = (Ok b, s') ->
  exists a s1, m s = (Ok a, s1) /\ f a s1 = (Ok b, s').
Proof.
  unfold bind. destruct (m s) as [[a | e | e] s1]; intros H; [eauto | done | done].
Qed.

Lemma bind_err {S A B} (m : M S A) (f : A -> M S B) s e s' :
  bind m f s = (Err e, s') ->
  m s = (Err e, s') \/ exists a s1, m s = (Ok a, s1) /\ f a s1 = (Err e, s').
Proof.
  unfold bind. destruct (m s) as [[a | e0 | e0] s1]; intros H;
    [right; eauto | left; by simplify_eq | done].
Qed.

(** ** Executor *)

Section executor.
Import types storage core.

(** Splits on every test the executor makes. *)
Ltac exec_cases :=
  repeat (simplify_eq /=; try done;
          match goal with
          | H : context [match ?x with _ => _ end] |- _ =>
              let E := fresh "E" in destruct x eqn:E
          | |- context [match ?x with _ => _ end] =>
              let E := fresh "E" in destruct x eqn:E
          end);
  simplify_eq /=; try done.

Ltac unfold_exec :=
  unfold ExecuteTransaction, executeTransfer, executeStake, executeUnstake,
    executeDelegate, executeUndelegate, executeCreateValidator,
    bind, fail_if, unmarshal, or_else, or_fail, GetAccount, GetValidator,
    GetDelegation, SetAccount, SetValidator, SetDelegation, DeleteDelegation,
    modify, ret, fail in *.

(** A transaction that fails has written nothing: every handler reads and
    checks first and writes last. *)
Lemma ExecuteTransaction_err_unchanged tx s e s' :
  ExecuteTransaction tx s = (Err e, s') -> s' = s.
Proof. unfold_exec. intros H. exec_cases. Qed.

Lemma ExecuteTransaction_no_panic tx s e s' :
  ExecuteTransaction tx s <> (Panic e, s').
Proof. unfold_exec. intros H. exec_cases. Qed.

Lemma ExecuteBlock_app pre post s s1 :
  ExecuteBlock pre s = (Ok tt, s1) ->
  ExecuteBlock (pre ++ post) s = ExecuteBlock post s1.
Proof.
  revert s. induction pre as [| tx pre IH]; intros s H; simpl in *.
  - unfold ret in H. by simplify_eq.
  - apply bind_ok in H as (a & s2 & Htx & Hrest).
    unfold bind. rewrite Htx. by apply IH.
Qed.

(** C1 (as amended): [ExecuteBlock] runs the transactions in list order and
    fails with the error of the first failing one; that transaction and the
    ones after it write nothing, but nothing is rolled back: the state after
    a failed [ExecuteBlock] is the state reached by the transactions before
    the failing one. *)
Theorem ExecuteBlock_fails_after_prefix txs s e s' :
  ExecuteBlock txs s = (Err e, s') ->
  exists pre tx post,
    txs = (pre ++ tx :: post)%list /\
    ExecuteBlock pre s = (Ok tt, s') /\
    ExecuteTransaction tx s' = (Err e, s').
Proof.
  revert s. induction txs as [| tx txs IH]; intros s H; simpl in H.
  - done.
  - apply bind_err in H as [H | (a & s1 & Htx & Hrest)].
    + pose proof (ExecuteTransaction_err_unchanged _ _ _ _ H) as ->.
      by exists [], tx, txs.
    + destruct (IH _ Hrest) as (pre & tx' & post & -> & Hpre & Hfail).
      exists (tx :: pre), tx', post. split_and!; [done | | done].
      simpl. unfold bind. destruct a. by rewrite Htx.
Qed.

(** A transfer between two different accounts: what it requires and what
    it writes. *)
Lemma executeTransfer_between tx s s' :
  keyed s -> From tx <> To tx ->
  executeTransfer tx s = (Ok tt, s') ->
  exists sender,
    accounts s !! From tx = Some sender /\
    Nonce sender = tx_Nonce tx /\
    GetCost tx <= Balance sender /\
    accounts s' !! From tx =
      Some {| acc_Address := From tx; Balance := Balance sender - GetCost tx;
              Nonce := u64 (Nonce sender + 1);
              Staked := Staked sender; Locked := Locked sender |} /\
    accounts s' !! To tx =
      Some (AddBalance (default (NewAccount (To tx)) (accounts s !! To tx)) (Value tx)) /\
    (forall k, k <> From tx -> k <> To tx -> accounts s' !! k = accounts s !! k) /\
    validators s' = validators s /\ delegations s' = delegations s.
Proof.
  intros Hk Hne H. unfold_exec. unfold SubBalance, IncNonce in H.
  destruct (accounts s !! From tx) as [sender |] eqn:Hs; [| done].
  pose proof (Hk _ _ Hs) as Hks.
  destruct (Nonce sender =? tx_Nonce tx) eqn:Hn; simpl in H; [| done].
  destruct (Balance sender <? GetCost tx) eqn:Hb; simpl in H; [done |].
  exists sender. apply Z.eqb_eq in Hn. apply Z.ltb_ge in Hb.
  destruct (accounts s !! To tx) as [recipient |] eqn:Hr; simplify_eq /=.
  - pose proof (Hk _ _ Hr) as Hkr. rewrite Hkr, Hks.
    split_and!; try done.
    + rewrite lookup_insert_ne by done. by rewrite lookup_insert_eq.
    + by rewrite lookup_insert_eq.
    + intros k H1 H2. by rewrite !lookup_insert_ne.
  - rewrite Hks. split_and!; try done.
    + rewrite lookup_insert_ne by done. by rewrite lookup_insert_eq.
    + by rewrite lookup_insert_eq.
    + intros k H1 H2. by rewrite !lookup_insert_ne.
Qed.

(** A successful stake, unstake, delegate, undelegate or create-validator
    transaction advances the sender's nonce by one. *)
Lemma staking_tx_bumps_nonce tx s s' :
  keyed s -> tx_Type tx <> TxTypeTransfer ->
  ExecuteTransaction tx s = (Ok tt, s') ->
  exists a a',
    accounts s !! From tx = Some a /\ accounts s' !! From tx = Some a' /\
    Nonce a' = u64 (Nonce a + 1).
Proof.
  intros Hk Hty H. unfold_exec. unfold SubBalance, SubStake, IncNonce in H.
  destruct (tx_Type tx =? TxTypeTransfer) eqn:E0; [apply Z.eqb_eq in E0; done |].
  destruct (accounts s !! From tx) as [a |] eqn:Ha.
  2:{ exec_cases. }
  pose proof (Hk _ _ Ha) as Hka.
  exists a. exec_cases; eexists; (split; [done |]);
    rewrite ?Hka, lookup_insert_eq; done.

Qed.

(** A transfer cannot be replayed: once it has succeeded, the same
    transaction fails on the resulting state, as long as the sender is not
    the recipient and the nonce counter has not reached its last value. *)
Lemma transfer_replay_rejected tx s s' :
  keyed s -> From tx <> To tx -> 0 <= tx_Nonce tx < 2 ^ 64 - 1 ->
  executeTransfer tx s = (Ok tt, s') ->
  executeTransfer tx s' = (Err "invalid nonce", s').
Proof.
  intros Hk Hne Hn H.
  destruct (executeTransfer_between _ _ _ Hk Hne H)
    as (sender & Hs & Hnonce & _ & Hs' & _).
  unfold executeTransfer, bind, GetAccount, fail_if. rewrite Hs'. simpl.
  rewrite Hnonce, u64_small by lia.
  destruct (tx_Nonce tx + 1 =? tx_Nonce tx) eqn:E; [apply Z.eqb_eq in E; lia | done].
Qed.

(** What a successful create-validator transaction requires and writes. *)
Lemma executeCreateValidator_ok tx s s' :
  keyed s ->
  executeCreateValidator tx s = (Ok tt, s') ->
  exists data account,
    asCreateValidatorData (Data tx) = Some data /\
    accounts s !! From tx = Some account /\
    cv_SelfStake data <= Balance account /\
    validators s' !! From tx =
      Some (NewValidator (From tx) (cv_PublicKey data) (cv_SelfStake data)
                         (cv_Commission data)) /\
    accounts s' !! From tx =
      Some {| acc_Address := From tx;
              Balance := Balance account - cv_SelfStake data;
              Nonce := u64 (Nonce account + 1);
              Staked := Staked account + cv_SelfStake data;
              Locked := Locked account |}.
Proof.
  intros Hk H. unfold_exec. unfold SubBalance, AddStake, IncNonce in H.
  destruct (asCreateValidatorData (Data tx)) as [data |] eqn:Hd; [| done].
  destruct (accounts s !! From tx) as [account |] eqn:Ha; [| done].
  pose proof (Hk _ _ Ha) as Hka.
  destruct (Balance account <? cv_SelfStake data) eqn:Hb; simpl in H; [done |].
  apply Z.ltb_ge in Hb. exists data, account. simplify_eq /=.
  rewrite Hka, !lookup_insert_eq. done.
Qed.

(** C1, the claim as stated fails: the block [pay_bob; pay_bob_stale] is
    rejected for its second transaction, and alice's account keeps the debit
    and the nonce of the first. *)
Lemma ExecuteBlock_keeps_prefix_writes :
  let r := ExecuteBlock scenarios.block_ok_then_bad scenarios.ledger0 in
  fst r = Err "invalid nonce" /\
  accounts scenarios.ledger0 !! scenarios.alice
    = Some (scenarios.funded scenarios.alice 100000) /\
  accounts (snd r) !! scenarios.alice
    = Some {| acc_Address := scenarios.alice; Balance := 78990; Nonce := 1;
              Staked := 0; Locked := 0 |} /\
  snd r <> scenarios.ledger0.
Proof.
  assert (accounts (snd (ExecuteBlock scenarios.block_ok_then_bad scenarios.ledger0))
            !! scenarios.alice
          = Some {| acc_Address := scenarios.alice; Balance := 78990; Nonce := 1;
                    Staked := 0; Locked := 0 |}) as Hafter by (vm_compute; reflexivity).
  assert (accounts scenarios.ledger0 !! scenarios.alice
          = Some (scenarios.funded scenarios.alice 100000)) as Hbefore
    by (vm_compute; reflexivity).
  cbv zeta. split_and!; [vm_compute; reflexivity | done | done |].
  intros Heq. rewrite Heq, Hbefore in Hafter. discriminate Hafter.
Qed.

Lemma ExecuteBlock_fails_after_prefix_witness :
  exists pre tx post,
    scenarios.block_ok_then_bad = (pre ++ tx :: post)%list /\
    ExecuteBlock pre scenarios.ledger0
      = (Ok tt, snd (ExecuteBlock scenarios.block_ok_then_bad scenarios.ledger0)) /\
    ExecuteTransaction tx (snd (ExecuteBlock scenarios.block_ok_then_bad scenarios.ledger0))
      = (Err "invalid nonce",
         snd (ExecuteBlock scenarios.block_ok_then_bad scenarios.ledger0)).
Proof.
  apply (ExecuteBlock_fails_after_prefix scenarios.block_ok_then_bad scenarios.ledger0
           "invalid nonce").
  vm_compute. reflexivity.
Defined.

(** C3, the failing input: a transfer whose recipient is its sender. The
    recipient is read from the store after the sender was debited in memory
    only, and is written last, over the sender: alice ends with her balance
    raised by the value and her nonce unchanged. *)
Theorem executeTransfer_to_self :
  let r := ExecuteTransaction scenarios.pay_self scenarios.ledger0 in
  fst r = Ok tt /\
  accounts scenarios.ledger0 !! scenarios.alice
    = Some {| acc_Address := scenarios.alice; Balance := 100000; Nonce := 0;
              Staked := 0; Locked := 0 |} /\
  accounts (snd r) !! scenarios.alice
    = Some {| acc_Address := scenarios.alice; Balance := 100010; Nonce := 0;
              Staked := 0; Locked := 0 |}.
Proof. cbv zeta. split_and!; vm_compute; reflexivity. Qed.

(** C4, the failing input: a stake transaction executed twice. Only the
    transfer handler compares the transaction's nonce with the account's, so
    the second execution succeeds and stakes again. *)
Theorem stake_replay_accepted :
  let r1 := ExecuteTransaction scenarios.stake10 scenarios.ledger0 in
  let r2 := ExecuteTransaction scenarios.stake10 (snd r1) in
  tx_Nonce scenarios.stake10 = 0 /\
  fst r1 = Ok tt /\
  accounts (snd r1) !! scenarios.alice
    = Some {| acc_Address := scenarios.alice; Balance := 99990; Nonce := 1;
              Staked := 10; Locked := 0 |} /\
  fst r2 = Ok tt /\
  accounts (snd r2) !! scenarios.alice
    = Some {| acc_Address := scenarios.alice; Balance := 99980; Nonce := 2;
              Staked := 20; Locked := 0 |}.
Proof. cbv zeta. split_and!; vm_compute; reflexivity. Qed.

(** C8, the failing input: a create-validator transaction with a self-stake
    of 1 unit, far below the minimum of [10^23]. The executor only checks the
    balance, so the validator is created, while the registration path of the
    DPoS engine rejects the same validator. *)
Theorem executeCreateValidator_below_minimum :
  let r := ExecuteTransaction scenarios.create_tiny_validator scenarios.ledger0 in
  fst r = Ok tt /\
  validators (snd r) !! scenarios.alice
    = Some (NewValidator scenarios.alice [4] 1 1000) /\
  1 < ToWei MinStakeAmount /\
  fst (consensus.RegisterValidator (NewValidator scenarios.alice [4] 1 1000)
         consensus.NewDPoS) = Err "insufficient self-stake".
Proof. cbv zeta. split_and!; vm_compute; reflexivity. Qed.

End executor.

(** ** DPoS engine and slasher *)

Section dpos.
Import types goruntime consensus.

(** C6: [GetBlockProducer h] returns [activeSet[h mod len(activeSet)]] and no
    error when the active set is not empty, fails with "no active validators"
    when it is empty, depends on nothing but the active set and the height,
    and leaves the engine, its active set included, as it was. *)
Theorem GetBlockProducer_round_robin (d : DPoS) (h : Z) :
  (activeValidators d <> [] ->
   exists v,
     activeValidators d !! Z.to_nat (h mod Z.of_nat (length (activeValidators d))) = Some v /\
     GetBlockProducer h d = (Ok v, d)) /\
  (activeValidators d = [] -> GetBlockProducer h d = (Err "no active validators", d)) /\
  snd (GetBlockProducer h d) = d /\
  (forall d', activeValidators d' = activeValidators d ->
     fst (GetBlockProducer h d') = fst (GetBlockProducer h d)).
Proof.
  unfold GetBlockProducer. split_and!.
  - intros Hne. destruct (activeValidators d) as [| a l] eqn:Hl; [done |].
    set (n := length (a :: l)).
    assert (0 < Z.of_nat n) as Hpos by (subst n; simpl; lia).
    pose proof (Z.mod_pos_bound h (Z.of_nat n) Hpos) as Hb.
    destruct (lookup_lt_is_Some_2 (a :: l) (Z.to_nat (h mod Z.of_nat n))) as [v Hv].
    { fold n. lia. }
    exists v. split; [done |]. fold n.
    replace (n =? 0)%nat with false by (symmetry; apply Nat.eqb_neq; lia).
    by rewrite Hv.
  - intros ->. done.
  - repeat case_match; done.
  - intros d' ->. repeat case_match; done.
Qed.

Lemma GetBlockProducer_round_robin_witness :
  activeValidators scenarios.elected = [scenarios.val2; scenarios.val1] /\
  GetBlockProducer 7 scenarios.elected = (Ok scenarios.val1, scenarios.elected) /\
  GetBlockProducer 7 NewDPoS = (Err "no active validators", NewDPoS).
Proof.
  assert (activeValidators scenarios.elected = [scenarios.val2; scenarios.val1]) as Ha
    by (vm_compute; reflexivity).
  split_and!; [done | |].
  - destruct (GetBlockProducer_round_robin scenarios.elected 7) as (H & _).
    destruct H as (v & Hv & ->); [by rewrite Ha |].
    rewrite Ha in Hv. vm_compute in Hv. injection Hv as <-. reflexivity.
  - by apply (GetBlockProducer_round_robin NewDPoS 7).
Defined.

(** The basis points the slasher computes from its floating-point
    percentages: the products [0.05 * 10000], [0.01 * 10000] and
    [0.03 * 10000] round to the integers 500, 100 and 300. *)
Lemma basisPoints_exact :
  basisPoints 0.05%float = 500 /\ basisPoints 0.01%float = 100 /\
  basisPoints 0.03%float = 300.
Proof. vm_compute. auto. Qed.

Lemma slashPercentage_percent reason :
  reason = SlashingReasonDoubleSign \/ reason = SlashingReasonDowntime \/
  reason = SlashingReasonInvalidBlock ->
  exists pct, slashPercentage reason = Some pct /\
              forall x, x * basisPoints pct / 10000 = x * percent reason / 100.
Proof.
  destruct basisPoints_exact as (H5 & H1 & H3).
  intros [-> | [-> | ->]]; eexists; (split; [reflexivity |]); intros x;
    rewrite ?H5, ?H1, ?H3; unfold percent; simpl.
  - replace (x * 500) with (x * 5 * 100) by lia.
    replace 10000 with (100 * 100) by lia. by rewrite Z.div_mul_cancel_r.
  - replace (x * 100) with (x * 1 * 100) by lia.
    replace 10000 with (100 * 100) by lia. by rewrite Z.div_mul_cancel_r.
  - replace (x * 300) with (x * 3 * 100) by lia.
    replace 10000 with (100 * 100) by lia. by rewrite Z.div_mul_cancel_r.
Qed.

(** C7: [SlashValidator] takes the fixed percentage of its reason (5% for
    double-sign, 1% for downtime, 3% for invalid-block), in whole units, off
    the validator's voting power and off its self-stake, and appends an event
    with the validator, the reason, the amount taken off the voting power
    and the height; a validator of voting power 1,000,000 slashed for
    downtime ends at 990,000. *)
Theorem SlashValidator_percentage (s : Slasher) (address : Address)
    (reason blockNum : Z) (v : Validator) :
  validators (dpos s) !! address = Some v ->
  reason = SlashingReasonDoubleSign \/ reason = SlashingReasonDowntime \/
  reason = SlashingReasonInvalidBlock ->
  let amount := VotingPower v * percent reason / 100 in
  exists s' v',
    SlashValidator address reason blockNum s = (Ok tt, s') /\
    validators (dpos s') !! address = Some v' /\
    VotingPower v' = Z.max 0 (VotingPower v - amount) /\
    (0 <= VotingPower v ->
       VotingPower v' = VotingPower v - amount /\
       100 * amount <= percent reason * VotingPower v < 100 * amount + 100) /\
    SelfStake v' = SelfStake v - SelfStake v * percent reason / 100 /\
    events s' = (events s ++ [{| ev_Validator := address; ev_Reason := reason;
                                ev_Amount := amount; ev_BlockNum := blockNum |}])%list /\
    (VotingPower v = 1000000 -> reason = SlashingReasonDowntime ->
       VotingPower v' = 990000 /\ amount = 10000).
Proof.
  intros Hv Hr amount.
  destruct (slashPercentage_percent reason Hr) as (pct & Hpct & Hbp).
  unfold SlashValidator, bind, on_dpos, GetValidator. rewrite Hv. simpl.
  rewrite Hpct, !Hbp. fold amount.
  set (v1 := SubVotingPower v amount).
  set (v2 := set_SelfStake v1 (SelfStake v1 - SelfStake v1 * percent reason / 100)).
  set (v3 := if (reason =? SlashingReasonDoubleSign) || (reason =? SlashingReasonInvalidBlock)
             then set_Jailed v2 else v2).
  assert (VotingPower v3 = VotingPower v1 /\ SelfStake v3 = SelfStake v2) as [Hp3 Hs3]
    by (subst v3; case_match; done).
  assert (VotingPower v1 = Z.max 0 (VotingPower v - amount) /\ SelfStake v1 = SelfStake v)
    as [Hp1 Hs1].
  { subst v1. unfold SubVotingPower. case_match eqn:E; simpl; split; try done.
    - apply Z.ltb_lt in E. lia.
    - apply Z.ltb_ge in E. lia. }
  assert (0 <= percent reason <= 5) as Hpc
    by (destruct Hr as [-> | [-> | ->]]; vm_compute; split; discriminate).
  eexists _, v3. split_and!; [reflexivity | simpl; by rewrite lookup_insert_eq
                             | congruence | | | done |].
  - intros Hnn.
    pose proof (Z.div_mod (VotingPower v * percent reason) 100 ltac:(lia)) as Hdm.
    pose proof (Z.mod_pos_bound (VotingPower v * percent reason) 100 ltac:(lia)) as Hmb.
    fold amount in Hdm.
    assert (amount <= VotingPower v) by nia.
    split; [rewrite Hp3, Hp1; lia | lia].
  - rewrite Hs3. subst v2. simpl. by rewrite Hs1.
  - intros Hm ->. rewrite Hp3, Hp1. subst amount. rewrite Hm. by vm_compute.
Qed.

Lemma SlashValidator_percentage_witness :
  exists s' v',
    SlashValidator scenarios.val1 SlashingReasonDowntime 42 scenarios.million = (Ok tt, s') /\
    validators (dpos s') !! scenarios.val1 = Some v' /\
    VotingPower v' = 990000 /\ SelfStake v' = 990000 /\
    events s' = [{| ev_Validator := scenarios.val1; ev_Reason := SlashingReasonDowntime;
                    ev_Amount := 10000; ev_BlockNum := 42 |}].
Proof.
  destruct (SlashValidator_percentage scenarios.million scenarios.val1
              SlashingReasonDowntime 42 (scenarios.validator_with scenarios.val1 1000000))
    as (s' & v' & Hrun & Hv' & _ & _ & Hself & Hev & Hm).
  - vm_compute. reflexivity.
  - right. left. reflexivity.
  - exists s', v'. destruct Hm as [Hm _]; [reflexivity | reflexivity |].
    split_and!; [exact Hrun | exact Hv' | exact Hm | exact Hself | exact Hev].
Defined.

Lemma SubVotingPower_nonneg v amount : 0 <= VotingPower (SubVotingPower v amount).
Proof.
  unfold SubVotingPower. case_match eqn:E; simpl; [done |]. by apply Z.ltb_ge in E.
Qed.

Lemma powers_nonneg_insert s s' k v :
  powers_nonneg s -> 0 <= VotingPower v ->
  validators (dpos s') = <[k := v]> (validators (dpos s)) ->
  powers_nonneg s'.
Proof.
  intros Hs Hv Heq k' v' Hl. rewrite Heq in Hl.
  destruct (decide (k = k')) as [-> | Hne].
  - rewrite lookup_insert_eq in Hl. by simplify_eq.
  - rewrite lookup_insert_ne in Hl by done. by eapply Hs.
Qed.

Lemma run_op_powers_nonneg op s :
  powers_nonneg s -> adds_nonneg op -> powers_nonneg (snd (run_op op s)).
Proof.
  intros Hs Hop. destruct op as [dl vl amount | dl vl amount | address reason blockNum];
    simpl in *.
  - unfold on_dpos, Delegate.
    destruct (validators (dpos s) !! vl) as [val |] eqn:Hval; simpl; [| done].
    eapply powers_nonneg_insert; [done | | done].
    simpl. specialize (Hs _ _ Hval). simpl in Hs. lia.
  - unfold on_dpos, Undelegate.
    destruct (inner (dpos s) dl !! vl) as [dg |]; simpl; [| done].
    destruct (del_Amount dg <? amount); simpl; [done |].
    destruct (validators (dpos s) !! vl) as [val |] eqn:Hval; simpl; [| done].
    destruct (del_Amount dg - amount =? 0); simpl;
      (eapply powers_nonneg_insert; [done | apply SubVotingPower_nonneg | done]).
  - unfold SlashValidator, bind, on_dpos, GetValidator.
    destruct (validators (dpos s) !! address) as [val |] eqn:Hval; simpl; [| done].
    destruct (slashPercentage reason) as [pct |]; simpl; [| done].
    eapply powers_nonneg_insert; [done | | done].
    case_match; simpl; apply SubVotingPower_nonneg.
Qed.

(** C10 (as amended): after any sequence of [Delegate], [Undelegate] and
    [SlashValidator] calls in which no [Delegate] has a negative amount,
    started on a registry without negative voting power, every validator's
    voting power is at least zero: [Undelegate] and [SlashValidator] lower it
    through [SubVotingPower], which stops at zero, and [Delegate] adds its
    amount as it comes. *)
Theorem voting_power_never_negative (ops : list Op) (s : Slasher) :
  powers_nonneg s -> Forall adds_nonneg ops -> powers_nonneg (run_ops ops s).
Proof.
  revert s. induction ops as [| op ops IH]; intros s Hs Hops; simpl; [done |].
  inversion Hops as [| ? ? Hop Hrest]; subst.
  apply IH; [| done]. by apply run_op_powers_nonneg.
Qed.

Lemma voting_power_never_negative_witness :
  powers_nonneg (run_ops scenarios.usual_ops scenarios.ranked_slasher).
Proof.
  apply (voting_power_never_negative scenarios.usual_ops scenarios.ranked_slasher).
  - unfold powers_nonneg. apply (bool_decide_unpack _). vm_compute. reflexivity.
  - repeat constructor. simpl. lia.
Defined.

(** C10, the claim as stated fails: [Delegate] adds its amount to the
    voting power without looking at its sign, so a delegation of a negative
    amount is accepted and takes the voting power of [val1] from [10^23]
    to [-1]. *)
Lemma Delegate_negative_amount :
  let s := scenarios.ranked_slasher in
  let r := run_op scenarios.negative_delegation s in
  VotingPower <$> validators (dpos s) !! scenarios.val1 = Some (10 ^ 23) /\
  fst r = Ok tt /\
  VotingPower <$> validators (dpos (snd r)) !! scenarios.val1 = Some (-1) /\
  ~ powers_nonneg (run_ops [scenarios.negative_delegation] s).
Proof.
  cbv zeta.
  assert (VotingPower <$> validators (dpos (snd (run_op scenarios.negative_delegation
                                                    scenarios.ranked_slasher)))
                            !! scenarios.val1 = Some (-1)) as Hneg
    by (vm_compute; reflexivity).
  split_and!; [vm_compute; reflexivity | vm_compute; reflexivity | done |].
  intros Hall. simpl in Hall.
  destruct (validators (dpos (snd (run_op scenarios.negative_delegation
                                      scenarios.ranked_slasher))) !! scenarios.val1)
    as [v |] eqn:Hv; [| done].
  specialize (Hall _ _ Hv). simpl in Hall, Hneg. simplify_eq. lia.
Qed.

(** *** Selection of the active set *)

Lemma sorted_by_lookup {A} (less : A -> A -> bool) (l : list A) i j x y :
  sorted_by less l -> (i < j)%nat -> l !! i = Some x -> l !! j = Some y ->
  less y x = false.
Proof.
  unfold sorted_by. intros Hs Hij Hi Hj.
  rewrite <- (take_drop j l) in Hs.
  eapply (StronglySorted_app_1_elem_of _ _ _ x y Hs).
  - apply elem_of_take. eauto.
  - apply list_elem_of_lookup. exists 0%nat. rewrite lookup_drop.
    by rewrite Nat.add_0_r.
Qed.

Lemma ins_rev_Permutation {A} (less : A -> A -> bool) x l :
  ins_rev less x l ≡ₚ x :: l.
Proof.
  induction l as [| e l IH]; simpl; [done |].
  case_match; [| done]. rewrite IH. apply Permutation_swap.
Qed.

Lemma ins_rev_sorted {A} (less : A -> A -> bool) x l :
  (forall a b, less a b = true -> less b a = false) ->
  (forall a b c, less a b = false -> less b c = false -> less a c = false) ->
  StronglySorted (fun a b => less a b = false) l ->
  StronglySorted (fun a b => less a b = false) (ins_rev less x l).
Proof.
  intros Hasym Htrans. induction 1 as [| e l Hl IH He]; simpl.
  - repeat constructor.
  - destruct (less x e) eqn:Hxe.
    + constructor; [done |].
      rewrite Forall_forall. intros y Hy.
      rewrite ins_rev_Permutation in Hy.
      apply elem_of_cons in Hy as [-> | Hy]; [by apply Hasym |].
      rewrite Forall_forall in He. by apply He.
    + constructor; [by constructor |].
      constructor; [done |].
      rewrite Forall_forall in He |- *. intros y Hy. eapply Htrans; eauto.
Qed.

Lemma StronglySorted_reverse {A} (R : relation A) l :
  StronglySorted R l -> StronglySorted (flip R) (reverse l).
Proof.
  induction 1 as [| x l Hl IH Hx]; [constructor |].
  rewrite reverse_cons. apply StronglySorted_app_2; [| done | repeat constructor].
  intros a b Ha Hb. apply list_elem_of_singleton in Hb as ->.
  rewrite elem_of_reverse in Ha. rewrite Forall_forall in Hx.
  unfold flip. by apply Hx.
Qed.

(** Insertion sort keeps the promise of [sort.Slice]. *)
Lemma insertion_sort_contract {A} (less : A -> A -> bool) :
  (forall a b, less a b = true -> less b a = false) ->
  (forall a b c, less a b = false -> less b c = false -> less a c = false) ->
  sort_contract less (insertion_sort less).
Proof.
  intros Hasym Htrans l. unfold insertion_sort.
  assert (forall acc,
            fold_left (fun acc x => ins_rev less x acc) l acc ≡ₚ (l ++ acc)%list /\
            (StronglySorted (fun a b => less a b = false) acc ->
             StronglySorted (fun a b => less a b = false)
               (fold_left (fun acc x => ins_rev less x acc) l acc))) as H.
  { induction l as [| x l IH]; intros acc; simpl; [done |].
    destruct (IH (ins_rev less x acc)) as [Hp Hs]. split.
    - rewrite Hp, ins_rev_Permutation. by rewrite Permutation_middle.
    - intros Hacc. by apply Hs, ins_rev_sorted. }
  destruct (H []) as [Hp Hs]. split.
  - by rewrite reverse_Permutation, Hp, app_nil_r.
  - apply (StronglySorted_reverse (fun a b => less a b = false)), Hs. constructor.
Qed.

Lemma sort_by_power_contract : sort_contract by_power scenarios.sort_by_power.
Proof.
  apply insertion_sort_contract; unfold by_power.
  - intros a b H. apply Z.ltb_lt in H. apply Z.ltb_ge. lia.
  - intros a b c H1 H2. apply Z.ltb_ge in H1, H2. apply Z.ltb_ge. lia.
Qed.

(** A [range] over the registry yields its entries, in some order. *)
Lemma ranged_Permutation d order :
  range_order (validators d) order -> ranged d order ≡ₚ map_to_list (validators d).
Proof.
  intros [Hnd Hdom]. unfold ranged.
  assert (order ≡ₚ (map_to_list (validators d)).*1) as ->.
  { apply NoDup_Permutation; [done | apply NoDup_fst_map_to_list |].
    intros k. rewrite <- (elem_of_list_to_set (C := gset N)), Hdom, elem_of_dom.
    rewrite list_elem_of_fmap. split.
    - intros [v Hv]. exists (k, v). by rewrite elem_of_map_to_list.
    - intros ([k' v] & -> & Hkv). apply elem_of_map_to_list in Hkv. eauto. }
  assert (forall l : list (Address * Validator),
            (forall kv, kv ∈ l -> validators d !! kv.1 = Some kv.2) ->
            omap (fun k => (fun v => (k, v)) <$> validators d !! k) (l.*1) = l) as Hl.
  { induction l as [| [k v] l IH]; intros Hall; simpl; [done |].
    pose proof (Hall (k, v) ltac:(by left)) as Hhd. simpl in Hhd.
    rewrite Hhd. simpl. f_equal.
    apply IH. intros kv Hkv. apply Hall. by right. }
  rewrite Hl; [done |]. intros [k v] Hkv. by apply elem_of_map_to_list.
Qed.

Section selection.
Variable sort_slice : list (Address * Validator) -> list (Address * Validator).
Hypothesis sort_slice_ok : sort_contract by_power sort_slice.

Lemma sorted_eligible_unique d l1 l2 :
  distinct_powers d ->
  l1 ≡ₚ eligible d -> l2 ≡ₚ eligible d ->
  sorted_by by_power l1 -> sorted_by by_power l2 -> l1 = l2.
Proof.
  intros Hd H1 H2 Hs1 Hs2.
  eapply StronglySorted_unique_strong; [| exact Hs1 | exact Hs2 | by rewrite H1, H2].
  intros [k1 v1] [k2 v2] Hin1 Hin2 Hle1 Hle2.
  rewrite H1 in Hin1. rewrite H2 in Hin2. unfold eligible in *.
  apply list_elem_of_filter in Hin1 as [Hc1 Hm1], Hin2 as [Hc2 Hm2].
  apply elem_of_map_to_list in Hm1, Hm2. unfold by_power in *. simpl in *.
  apply Z.ltb_ge in Hle1, Hle2.
  assert (k1 = k2) as -> by (eapply Hd; eauto; lia).
  by simplify_eq.
Qed.

(** C2 (as amended): [SelectValidators] returns the validators that may
    produce blocks in descending order of voting power, cut to the first
    [MaxValidators]; no validator left out has more voting power than one
    selected. When no two such validators have equal voting power the result
    is the same for every instance with the same registry and for every
    order in which the registry is visited. Equal voting powers are not
    ordered by address: their order is the one the visit and the sort leave
    them in. *)
Theorem SelectValidators_deterministic_without_ties d1 d2 order1 order2 :
  validators d1 = validators d2 ->
  range_order (validators d1) order1 ->
  range_order (validators d2) order2 ->
  let r1 := SelectValidators sort_slice order1 d1 in
  let r2 := SelectValidators sort_slice order2 d2 in
  (exists selected,
     fst r1 = Ok selected /\
     Z.of_nat (length selected) = Z.min MaxValidators (Z.of_nat (length (eligible d1))) /\
     (forall i j x y, (i < j)%nat -> selected !! i = Some x -> selected !! j = Some y ->
                      VotingPower y <= VotingPower x) /\
     (forall x, x ∈ selected -> x ∈ (eligible d1).*2) /\
     (forall v x, v ∈ (eligible d1).*2 -> v ∉ selected -> x ∈ selected ->
                  VotingPower v <= VotingPower x)) /\
  (distinct_powers d1 ->
     fst r1 = fst r2 /\ activeValidators (snd r1) = activeValidators (snd r2)).
Proof.
  intros Hv Ho1 Ho2 r1 r2. subst r1 r2. unfold SelectValidators. simpl.
  set (l1 := filter (fun kv => CanProduceBlocks kv.2 = true) (ranged d1 order1)).
  set (l2 := filter (fun kv => CanProduceBlocks kv.2 = true) (ranged d2 order2)).
  assert (l1 ≡ₚ eligible d1) as Hl1
    by (subst l1; unfold eligible; by rewrite ranged_Permutation).
  assert (l2 ≡ₚ eligible d1) as Hl2
    by (subst l2; unfold eligible; rewrite ranged_Permutation by done; by rewrite Hv).
  destruct (sort_slice_ok l1) as [Hp1 Hs1]. destruct (sort_slice_ok l2) as [Hp2 Hs2].
  set (n := Z.to_nat (if Z.of_nat (length (sort_slice l1)) <? MaxValidators
                      then Z.of_nat (length (sort_slice l1)) else MaxValidators)).
  assert (length (sort_slice l1) = length (eligible d1)) as Hlen
    by (by rewrite Hp1, Hl1).
  split.
  - exists ((take n (sort_slice l1)).*2). split_and!.
    + done.
    + rewrite length_fmap, length_take. subst n. rewrite Hlen.
      unfold MaxValidators. case_match eqn:E; [apply Z.ltb_lt in E | apply Z.ltb_ge in E]; lia.
    + intros i j x y Hij Hx Hy.
      rewrite list_lookup_fmap in Hx, Hy.
      destruct (take n (sort_slice l1) !! i) as [kx |] eqn:Hkx; [| done].
      destruct (take n (sort_slice l1) !! j) as [ky |] eqn:Hky; [| done].
      simpl in Hx, Hy. simplify_eq.
      apply lookup_take_Some in Hkx as [Hkx _], Hky as [Hky _].
      pose proof (sorted_by_lookup _ _ _ _ _ _ Hs1 Hij Hkx Hky) as Hle.
      unfold by_power in Hle. apply Z.ltb_ge in Hle. done.
    + intros x Hx. apply list_elem_of_fmap in Hx as (kv & -> & Hkv).
      apply elem_of_take in Hkv as (i & Hi & _).
      apply list_elem_of_fmap. exists kv. split; [done |].
      rewrite <- Hl1, <- Hp1. apply list_elem_of_lookup. eauto.
    + intros v x Hv' Hnot Hx.
      apply list_elem_of_fmap in Hv' as (kv & -> & Hkv).
      rewrite <- Hl1, <- Hp1 in Hkv. apply list_elem_of_lookup in Hkv as [j Hj].
      apply list_elem_of_fmap in Hx as (kx & -> & Hkx).
      apply elem_of_take in Hkx as (i & Hi & Hin).
      destruct (decide (j < n)%nat) as [Hjn | Hjn].
      { exfalso. apply Hnot. apply list_elem_of_fmap. exists kv. split; [done |].
        apply elem_of_take. eauto. }
      assert (i < j)%nat as Hij by lia.
      pose proof (sorted_by_lookup _ _ _ _ _ _ Hs1 Hij Hi Hj) as Hle.
      unfold by_power in Hle. by apply Z.ltb_ge in Hle.
  - intros Hd.
    assert (sort_slice l1 = sort_slice l2) as Heq.
    { apply (sorted_eligible_unique d1); [done | by rewrite Hp1 | by rewrite Hp2 | done..]. }
    rewrite <- Heq. done.
Qed.
End selection.

Lemma SelectValidators_deterministic_witness :
  fst (SelectValidators scenarios.sort_by_power [scenarios.val1; scenarios.val2]
         scenarios.ranked)
  = fst (SelectValidators scenarios.sort_by_power [scenarios.val2; scenarios.val1]
           scenarios.ranked).
Proof.
  assert (forall order, order = [scenarios.val1; scenarios.val2] \/
                        order = [scenarios.val2; scenarios.val1] ->
                        range_order (validators scenarios.ranked) order) as Hrange.
  { intros order [-> | ->]; (split; [by apply (bool_decide_unpack _) |]);
      apply (bool_decide_unpack _); vm_compute; reflexivity. }
  apply (SelectValidators_deterministic_without_ties scenarios.sort_by_power
           sort_by_power_contract scenarios.ranked scenarios.ranked
           [scenarios.val1; scenarios.val2] [scenarios.val2; scenarios.val1]);
    [reflexivity | apply Hrange; by left | apply Hrange; by right |].
  intros k1 k2 v1 v2 H1 H2 _ _ Hp.
  change (validators scenarios.ranked) with
    (<[scenarios.val1 := scenarios.validator_with scenarios.val1 scenarios.min_power]>
       (<[scenarios.val2 := scenarios.validator_with scenarios.val2 (2 * scenarios.min_power)]>
          (∅ : gmap Address Validator))) in H1, H2.
  apply lookup_insert_Some in H1 as [[<- <-] | [Hn1 H1]];
    apply lookup_insert_Some in H2 as [[<- <-] | [Hn2 H2]]; try done.
  - apply lookup_insert_Some in H2 as [[<- <-] | [_ H2]]; [by vm_compute in Hp | done].
  - apply lookup_insert_Some in H1 as [[<- <-] | [_ H1]]; [by vm_compute in Hp | done].
  - apply lookup_insert_Some in H1 as [[<- <-] | [_ H1]]; [| done].
    apply lookup_insert_Some in H2 as [[<- <-] | [_ H2]]; done.
Defined.

(** C2, the claim as stated fails: in a registry of two validators with the
    same voting power, the selection returns them in the order in which the
    registry was visited, and Go visits a map in no fixed order; so two
    selections on the same state can differ, and the tie is not decided by
    address. *)
Lemma SelectValidators_tie_follows_visit_order :
  let v1 := scenarios.validator_with scenarios.val1 scenarios.min_power in
  let v2 := scenarios.validator_with scenarios.val2 scenarios.min_power in
  range_order (validators scenarios.tied) [scenarios.val1; scenarios.val2] /\
  range_order (validators scenarios.tied) [scenarios.val2; scenarios.val1] /\
  fst (SelectValidators scenarios.sort_by_power [scenarios.val1; scenarios.val2]
         scenarios.tied) = Ok [v1; v2] /\
  fst (SelectValidators scenarios.sort_by_power [scenarios.val2; scenarios.val1]
         scenarios.tied) = Ok [v2; v1] /\
  fst (SelectValidators scenarios.sort_by_power [scenarios.val1; scenarios.val2]
         scenarios.tied)
  <> fst (SelectValidators scenarios.sort_by_power [scenarios.val2; scenarios.val1]
            scenarios.tied).
Proof.
  cbv zeta. split_and!.
  - split; [by apply (bool_decide_unpack _) | apply (bool_decide_unpack _); vm_compute; reflexivity].
  - split; [by apply (bool_decide_unpack _) | apply (bool_decide_unpack _); vm_compute; reflexivity].
  - vm_compute. reflexivity.
  - vm_compute. reflexivity.
  - vm_compute. intros H. discriminate H.
Qed.
End dpos.

(** ** Staking manager *)

Section unbonding.
Import types consensus staking.

Lemma elem_of_concat {A} (x : A) (ls : list (list A)) :
  x ∈ concat ls <-> exists l, x ∈ l /\ l ∈ ls.
Proof.
  induction ls as [| l ls IH]; simpl.
  - split; [intros H; by apply elem_of_nil in H | intros (l & _ & H); by apply elem_of_nil in H].
  - rewrite elem_of_app, IH. split.
    + intros [H | (l' & H1 & H2)]; [exists l; split; [done | by left] |].
      exists l'. split; [done | by right].
    + intros (l' & H1 & H2). apply elem_of_cons in H2 as [-> | H2]; [by left |].
      right. eauto.
Qed.

Lemma matured_pending cb (l : list UnbondingDelegation) : matured cb (pending cb l) = [].
Proof.
  unfold matured, pending. induction l as [| u l IH]; [done |].
  rewrite (filter_cons (fun u => ~ CompletionBlock u <= cb)).
  case_decide as Hu; [| done].
  rewrite filter_cons. case_decide; [done | exact IH].
Qed.

Lemma matured_nil cb : matured cb [] = [].
Proof. done. Qed.

Lemma pending_nil cb : pending cb [] = [].
Proof. done. Qed.

Lemma elem_of_matured cb l u : u ∈ matured cb l <-> CompletionBlock u <= cb /\ u ∈ l.
Proof. unfold matured. by rewrite list_elem_of_filter. Qed.

Lemma elem_of_pending cb l u : u ∈ pending cb l <-> cb < CompletionBlock u /\ u ∈ l.
Proof. unfold pending. rewrite list_elem_of_filter. split; intros [H1 H2]; split; try done; lia. Qed.

(** The outer loop of [ProcessUnbonding] over keys visited once each. *)
Lemma process_delegators cb order completed
    (queue : gmap Address (list UnbondingDelegation)) :
  NoDup order ->
  exists queue',
    fold_left (process_delegator cb) order (completed, queue)
    = ((completed ++ concat ((fun k => matured cb (default [] (queue !! k))) <$> order))%list,
       queue') /\
    (forall k, k ∈ order ->
       queue' !! k = (if (0 <? length (pending cb (default [] (queue !! k))))%nat
                      then Some (pending cb (default [] (queue !! k))) else None)) /\
    (forall k, k ∉ order -> queue' !! k = queue !! k).
Proof.
  intros Hnd. revert completed queue.
  induction Hnd as [| k order Hk Hnd IH]; intros completed queue; simpl.
  - exists queue. rewrite app_nil_r. split_and!; [done | | done].
    intros k Hk. by apply elem_of_nil in Hk.
  - destruct (queue !! k) as [unbondings |] eqn:Hq; simpl.
    + set (queue1 := if (0 <? length (pending cb unbondings))%nat
                     then <[k := pending cb unbondings]> queue else delete k queue).
      destruct (IH (completed ++ matured cb unbondings)%list queue1)
        as (queue' & Hfold & Hin & Hout).
      assert (forall k', k' <> k -> queue1 !! k' = queue !! k') as Hother.
      { intros k' Hne. subst queue1. case_match.
        - by rewrite lookup_insert_ne.
        - by rewrite lookup_delete_ne. }
      exists queue'. split_and!.
      * rewrite Hfold. f_equal. rewrite <- app_assoc. do 3 f_equal.
        apply list_fmap_ext. intros i k' Hk'.
        rewrite Hother; [done |]. intros ->. apply Hk.
        apply list_elem_of_lookup. eauto.
      * intros k' Hk'. apply elem_of_cons in Hk' as [-> | Hk'].
        -- rewrite Hout by done. rewrite Hq. simpl. subst queue1.
           case_match; [by rewrite lookup_insert_eq | by rewrite lookup_delete_eq].
        -- rewrite Hin by done. rewrite Hother; [done |]. by intros ->.
      * intros k' Hk'. apply not_elem_of_cons in Hk' as [Hne Hk'].
        rewrite Hout by done. by apply Hother.
    + destruct (IH completed queue) as (queue' & Hfold & Hin & Hout).
      exists queue'. split_and!.
      * by rewrite Hfold.
      * intros k' Hk'. apply elem_of_cons in Hk' as [-> | Hk'].
        -- rewrite Hout by done. by rewrite Hq.
        -- by apply Hin.
      * intros k' Hk'. apply not_elem_of_cons in Hk' as [Hne Hk']. by apply Hout.
Qed.

Lemma range_order_elem_of {V} (m : gmap N V) order k :
  range_order m order -> k ∈ order <-> is_Some (m !! k).
Proof.
  intros [_ Hdom]. by rewrite <- (elem_of_list_to_set (C := gset N)), Hdom, elem_of_dom.
Qed.

(** What [ProcessUnbonding] returns and leaves queued. *)
Lemma ProcessUnbonding_spec cb order sm :
  range_order (unbondingQueue sm) order ->
  exists sm',
    ProcessUnbonding cb order sm
    = (Ok (concat ((fun k => matured cb (queued sm k)) <$> order)), sm') /\
    (forall k, queued sm' k = pending cb (queued sm k)) /\
    (forall k, is_Some (unbondingQueue sm' !! k) <-> pending cb (queued sm k) <> []) /\
    sm_dpos sm' = sm_dpos sm.
Proof.
  intros Hro. unfold ProcessUnbonding.
  destruct (process_delegators cb order [] (unbondingQueue sm) (proj1 Hro))
    as (queue' & Hfold & Hin & Hout).
  rewrite Hfold. simpl. eexists. split; [reflexivity |].
  assert (forall k, queue' !! k
                    = if (0 <? length (pending cb (queued sm k)))%nat
                      then Some (pending cb (queued sm k)) else None) as Hq.
  { intros k. destruct (decide (k ∈ order)) as [Hk | Hk]; [by apply Hin |].
    rewrite Hout by done. unfold queued.
    destruct (unbondingQueue sm !! k) eqn:Hl; [| done].
    exfalso. apply Hk. eapply range_order_elem_of; eauto. }
  split_and!; [| | done].
  - intros k. unfold queued at 1. simpl. rewrite Hq.
    destruct (pending cb (queued sm k)); done.
  - intros k. simpl. rewrite Hq.
    destruct (pending cb (queued sm k)); simpl; split; intros H; try done;
      try by destruct H.
Qed.

(** C9: a successful [Unstake] at height [H] appends to the delegator's
    queue an entry with [CompletionBlock = H + UnbondingPeriod] (in [uint64]
    arithmetic), and [ProcessUnbonding(currentBlock)] returns exactly the
    queued entries whose completion block is at most [currentBlock], each as
    often as it is queued, and removes them: every delegator's queue keeps
    exactly its entries with a later completion block, and a second call at
    the same height returns nothing. *)
Theorem Unstake_then_ProcessUnbonding :
  (forall sm sm' delegator validator amount H,
     Unstake delegator validator amount H sm = (Ok tt, sm') ->
     let entry := {| ub_Delegator := delegator; ub_Validator := validator;
                     ub_Amount := amount;
                     CompletionBlock := u64 (H + unbondingPeriod sm) |} in
     unbondingQueue sm'
       = <[delegator := (queued sm delegator ++ [entry])%list]> (unbondingQueue sm) /\
     queued sm' delegator = (queued sm delegator ++ [entry])%list /\
     (unbondingPeriod sm = UnbondingPeriod -> 0 <= H < 2 ^ 64 - UnbondingPeriod ->
        CompletionBlock entry = H + UnbondingPeriod)) /\
  (forall sm currentBlock order,
     range_order (unbondingQueue sm) order ->
     exists completed sm',
       ProcessUnbonding currentBlock order sm = (Ok completed, sm') /\
       completed = concat ((fun k => matured currentBlock (queued sm k)) <$> order) /\
       (forall u, u ∈ completed <->
                  exists k, u ∈ queued sm k /\ CompletionBlock u <= currentBlock) /\
       (forall k, queued sm' k = pending currentBlock (queued sm k)) /\
       (forall k u, u ∈ queued sm' k <->
                    u ∈ queued sm k /\ currentBlock < CompletionBlock u) /\
       (forall order', range_order (unbondingQueue sm') order' ->
                       fst (ProcessUnbonding currentBlock order' sm') = Ok [])).
Proof.
  split.
  - intros sm sm' delegator validator amount H Hrun entry.
    unfold Unstake in Hrun. apply bind_ok in Hrun as ([] & sm1 & Hund & Hrun).
    unfold on_dpos in Hund.
    destruct (Undelegate delegator validator amount (sm_dpos sm)) as [r d] eqn:Hu.
    simplify_eq /=. split_and!; [done | |].
    + unfold queued at 1. simpl. by rewrite lookup_insert_eq.
    + intros -> Hrange. unfold u64. rewrite Z.mod_small; [done |].
      unfold UnbondingPeriod in *. lia.
  - intros sm cb order Hro.
    destruct (ProcessUnbonding_spec cb order sm Hro) as (sm' & Hrun & Hq & Hsome & _).
    eexists _, sm'. split_and!; [exact Hrun | done | | done | |].
    + intros u. rewrite elem_of_concat. split.
      * intros (l & Hu & Hl). apply list_elem_of_fmap in Hl as (k & -> & _).
        apply elem_of_matured in Hu as [Hcb Hu]. eauto.
      * intros (k & Hu & Hcb). exists (matured cb (queued sm k)). split.
        -- by apply elem_of_matured.
        -- apply list_elem_of_fmap. exists k. split; [done |].
           apply (range_order_elem_of (unbondingQueue sm)); [done |].
           unfold queued in Hu.
           destruct (unbondingQueue sm !! k) as [q |] eqn:Hk; [by exists q |].
           by apply elem_of_nil in Hu.
    + intros k u. rewrite Hq, elem_of_pending. tauto.
    + intros order' Hro'.
      destruct (ProcessUnbonding_spec cb order' sm' Hro') as (sm'' & -> & _).
      simpl. f_equal. clear Hro'. induction order' as [| k order' IH]; [done |].
      rewrite fmap_cons. simpl. rewrite Hq, matured_pending. exact IH.
Qed.

Lemma Unstake_then_ProcessUnbonding_witness :
  let entry := {| ub_Delegator := scenarios.alice; ub_Validator := scenarios.val1;
                  ub_Amount := 10 ^ 19; CompletionBlock := 1000 + UnbondingPeriod |} in
  queued scenarios.unstaking_manager scenarios.alice = [entry] /\
  fst (ProcessUnbonding (1000 + UnbondingPeriod - 1) [scenarios.alice]
         scenarios.unstaking_manager) = Ok [] /\
  fst (ProcessUnbonding (1000 + UnbondingPeriod) [scenarios.alice]
         scenarios.unstaking_manager) = Ok [entry].
Proof.
  destruct Unstake_then_ProcessUnbonding as [HA HB].
  assert (range_order (unbondingQueue scenarios.unstaking_manager) [scenarios.alice])
    as Hro.
  { split; [by apply (bool_decide_unpack _) |].
    apply (bool_decide_unpack _). vm_compute. reflexivity. }
  destruct (HA scenarios.staked_manager scenarios.unstaking_manager scenarios.alice
              scenarios.val1 (10 ^ 19) 1000) as (_ & Hq & _).
  { vm_compute. reflexivity. }
  assert (queued scenarios.unstaking_manager scenarios.alice
          = [{| ub_Delegator := scenarios.alice; ub_Validator := scenarios.val1;
                ub_Amount := 10 ^ 19; CompletionBlock := 1000 + UnbondingPeriod |}])
    as Hq' by (rewrite Hq; vm_compute; reflexivity).
  cbv zeta. split_and!; [exact Hq' | |].
  - destruct (HB scenarios.unstaking_manager (1000 + UnbondingPeriod - 1)
                [scenarios.alice] Hro) as (completed & sm' & Hrun & Hc & _).
    rewrite Hrun. cbn [fst]. rewrite Hc. vm_compute. reflexivity.
  - destruct (HB scenarios.unstaking_manager (1000 + UnbondingPeriod)
                [scenarios.alice] Hro) as (completed & sm' & Hrun & Hc & _).
    rewrite Hrun. cbn [fst]. rewrite Hc. vm_compute. reflexivity.
Defined.
End unbonding.

(** ** Mempool *)

Section pool.
Import types core goruntime mempool.

(** C5, the failing input: a pool of capacity 2 holding transactions of gas
    price 1 and 5 receives one of gas price 3. [PriorityQueue.Pop] removes
    the root of a heap whose [Less] puts the higher gas price first, so the
    transaction evicted is the one with the highest gas price, 5, and the one
    with the lowest, 1, stays. *)
Theorem AddTransaction_evicts_highest_gas_price :
  let r := AddTransaction scenarios.middle scenarios.full_pool in
  maxSize scenarios.full_pool = 2 /\
  size (transactions scenarios.full_pool) = 2%nat /\
  GasPrice <$> queue scenarios.full_pool = [5; 1] /\
  GasPrice scenarios.middle = 3 /\
  fst r = Ok tt /\
  transactions (snd r) !! tx_Hash scenarios.dear = None /\
  transactions (snd r) !! tx_Hash scenarios.cheap = Some scenarios.cheap /\
  transactions (snd r) !! tx_Hash scenarios.middle = Some scenarios.middle /\
  GasPrice <$> queue (snd r) = [3; 1].
Proof. cbv zeta. split_and!; vm_compute; reflexivity. Qed.
End pool.

(** * Further properties of the code *)

(** ** Executor: what every handler guarantees *)

Section executor_more.
Import types storage core.

Ltac exec_split :=
  repeat (simplify_eq /=; try done;
          match goal with
          | H : context [match ?x with _ => _ end] |- _ =>
              let E := fresh "E" in destruct x eqn:E
          | |- context [match ?x with _ => _ end] =>
              let E := fresh "E" in destruct x eqn:E
          end);
  simplify_eq /=; try done.

Ltac unfold_handlers :=
  unfold ExecuteTransaction, executeTransfer, executeStake, executeUnstake,
    executeDelegate, executeUndelegate, executeCreateValidator,
    bind, fail_if, unmarshal, or_else, or_fail, GetAccount, GetValidator,
    GetDelegation, SetAccount, SetValidator, SetDelegation, DeleteDelegation,
    modify, ret, fail in *.


(** X2: a transfer between two different accounts succeeds only from an
    account with the transaction's nonce and a balance of at least
    [GetCost]; it takes [GetCost] off the sender, advances its nonce, adds
    [Value] (not the gas) to the recipient, created empty if absent, and
    touches nothing else, so the two accounts together lose exactly the gas
    charge [int64(GasLimit) * GasPrice]. *)
Theorem transfer_moves_value (tx : Transaction) (s s' : StateDB) :
  keyed s -> From tx <> To tx ->
  ExecuteTransaction tx s = (Ok tt, s') -> tx_Type tx = TxTypeTransfer ->
  exists sender sender' recipient',
    accounts s !! From tx = Some sender /\
    Nonce sender = tx_Nonce tx /\ GetCost tx <= Balance sender /\
    accounts s' !! From tx = Some sender' /\
    accounts s' !! To tx = Some recipient' /\
    Balance sender' = Balance sender - GetCost tx /\
    Nonce sender' = u64 (Nonce sender + 1) /\
    Balance recipient' = Balance (default (NewAccount (To tx)) (accounts s !! To tx))
                         + Value tx /\
    TotalBalance sender' + TotalBalance recipient'
    = TotalBalance sender
      + TotalBalance (default (NewAccount (To tx)) (accounts s !! To tx))
      - to_int64 (GasLimit tx) * GasPrice tx /\
    (forall k, k <> From tx -> k <> To tx -> accounts s' !! k = accounts s !! k) /\
    validators s' = validators s /\ delegations s' = delegations s /\
    keyed s'.
Proof.
  intros Hk Hne H Hty. unfold ExecuteTransaction in H. rewrite Hty in H. simpl in H.
  destruct (executeTransfer_between _ _ _ Hk Hne H)
    as (sender & Hs & Hn & Hb & Hs' & Hr' & Hrest & Hv & Hd).
  eexists sender, _, _. split_and!; try done.
  - unfold TotalBalance, GetCost. simpl. lia.
  - intros k a Ha. destruct (decide (k = From tx)) as [-> | H1].
    { rewrite Hs' in Ha. by simplify_eq. }
    destruct (decide (k = To tx)) as [-> | H2].
    { rewrite Hr' in Ha. simplify_eq. simpl.
      destruct (accounts s !! To tx) eqn:E; simpl; [by apply Hk | done]. }
    rewrite Hrest in Ha by done. by apply Hk.
Qed.

(** X3: a transfer between two different accounts cannot be replayed: after
    it has succeeded, executing the same transaction again fails with
    "invalid nonce" and changes nothing. *)
Theorem transfer_cannot_be_replayed (tx : Transaction) (s s' : StateDB) :
  keyed s -> From tx <> To tx -> 0 <= tx_Nonce tx < 2 ^ 64 - 1 ->
  tx_Type tx = TxTypeTransfer ->
  ExecuteTransaction tx s = (Ok tt, s') ->
  ExecuteTransaction tx s' = (Err "invalid nonce", s').
Proof.
  intros Hk Hne Hn Hty H. unfold ExecuteTransaction in *. rewrite Hty in *. simpl in *.
  by eapply transfer_replay_rejected.
Qed.

(** X4: stake, unstake, delegate and create-validator transactions move
    funds between the three buckets of the sender's own account: its total
    balance (balance + staked + locked) is unchanged, and no other account is
    written. *)
Theorem staking_tx_keeps_total (tx : Transaction) (s s' : StateDB) :
  keyed s ->
  tx_Type tx = TxTypeStake \/ tx_Type tx = TxTypeUnstake \/
  tx_Type tx = TxTypeDelegate \/ tx_Type tx = TxTypeCreateValidator ->
  ExecuteTransaction tx s = (Ok tt, s') ->
  exists a a',
    accounts s !! From tx = Some a /\ accounts s' !! From tx = Some a' /\
    TotalBalance a' = TotalBalance a /\
    (forall k, k <> From tx -> accounts s' !! k = accounts s !! k).
Proof.
  intros Hk Hty H. unfold_handlers.
  unfold SubBalance, SubStake, AddStake, AddLocked, IncNonce in H.
  destruct (accounts s !! From tx) as [a |] eqn:Ha.
  2:{ destruct Hty as [Hty | [Hty | [Hty | Hty]]]; rewrite Hty in H; simpl in H; exec_split. }
  pose proof (Hk _ _ Ha) as Hka.
  exists a. destruct Hty as [Hty | [Hty | [Hty | Hty]]]; rewrite Hty in H; simpl in H; exec_split;
    rewrite Hka; eexists; (split_and!; [done | by rewrite lookup_insert_eq | |
                                        intros k Hne; by rewrite lookup_insert_ne]);
    unfold TotalBalance; simpl; lia.
Qed.

(** X5: an undelegate transaction adds its amount to the sender's locked
    funds whether or not the amount could be taken off the staked funds
    ([SubStake] refuses silently when the account has less staked): the
    total balance is unchanged when [Staked >= amount] and grows by the
    amount otherwise. *)
Theorem undelegate_total (tx : Transaction) (s s' : StateDB) :
  keyed s -> tx_Type tx = TxTypeUndelegate ->
  ExecuteTransaction tx s = (Ok tt, s') ->
  exists data a a',
    asStakeData (Data tx) = Some data /\
    accounts s !! From tx = Some a /\ accounts s' !! From tx = Some a' /\
    Locked a' = Locked a + sd_Amount data /\
    Staked a' = (if Staked a <? sd_Amount data then Staked a
                 else Staked a - sd_Amount data) /\
    TotalBalance a' = TotalBalance a
                      + (if Staked a <? sd_Amount data then sd_Amount data else 0).
Proof.
  intros Hk Hty H. unfold_handlers.
  unfold SubStake, AddLocked, IncNonce in H. rewrite Hty in H. simpl in H.
  destruct (asStakeData (Data tx)) as [data |] eqn:Hd; [| done].
  destruct (accounts s !! From tx) as [a |] eqn:Ha.
  2:{ exec_split. }
  pose proof (Hk _ _ Ha) as Hka.
  exists data, a. exec_split; rewrite Hka; eexists;
    (split_and!; [done | done | by rewrite lookup_insert_eq | done | done |]);
    unfold TotalBalance; simpl; lia.
Qed.

(** X6: the gas charge is computed from [int64(GasLimit)]: for a gas limit
    below [2^63] the cost is [Value + GasLimit * GasPrice], at least the
    value; from [2^63] on the conversion wraps and the cost of a transaction
    that passes [Validate] is below its value. *)
Theorem GetCost_int64_conversion (tx : Transaction) :
  0 <= GasLimit tx < 2 ^ 64 -> Validate tx = None ->
  (GasLimit tx < 2 ^ 63 ->
     GetCost tx = Value tx + GasLimit tx * GasPrice tx /\ Value tx < GetCost tx) /\
  (2 ^ 63 <= GasLimit tx ->
     GetCost tx = Value tx - (2 ^ 64 - GasLimit tx) * GasPrice tx /\
     GetCost tx < Value tx).
Proof.
  intros Hg Hv. unfold Validate in Hv.
  destruct (Value tx <? 0) eqn:E1; [done |].
  destruct (GasLimit tx =? 0) eqn:E2; [done |].
  destruct (GasPrice tx <=? 0) eqn:E3; [done |].
  apply Z.eqb_neq in E2. apply Z.leb_gt in E3.
  unfold GetCost, to_int64. split; intros H.
  - assert ((GasLimit tx <? 2 ^ 63) = true) as -> by (apply Z.ltb_lt; lia). split; [done | nia].
  - assert ((GasLimit tx <? 2 ^ 63) = false) as -> by (apply Z.ltb_ge; lia). split; [lia | nia].
Qed.

(** Every handler stores an account under the address the record carries. *)
Lemma ExecuteTransaction_keyed tx s : keyed s -> keyed (snd (ExecuteTransaction tx s)).
Proof.
  intros Hk.
  assert (forall key a (m : gmap Address Account),
            acc_Address a = key ->
            (forall k b, m !! k = Some b -> acc_Address b = k) ->
            forall k b, <[key := a]> m !! k = Some b -> acc_Address b = k) as Hins.
  { intros key a m <- Hm k b Hl. destruct (decide (acc_Address a = k)) as [<- | Hne].
    - rewrite lookup_insert_eq in Hl. by simplify_eq.
    - rewrite lookup_insert_ne in Hl by done. by apply Hm. }
  destruct (ExecuteTransaction tx s) as [[[] | e | e] s'] eqn:H; simpl.
  - unfold keyed in *. unfold_handlers.
    exec_split; repeat (apply Hins; [reflexivity |]); done.
  - apply ExecuteTransaction_err_unchanged in H. by subst.
  - by apply ExecuteTransaction_no_panic in H.
Qed.

Lemma keyed_ledger0 : keyed scenarios.ledger0.
Proof.
  intros k a H. unfold scenarios.ledger0 in H. simpl in H.
  apply lookup_singleton_Some in H as [<- <-]. reflexivity.
Qed.

Lemma keyed_ledger_val : keyed scenarios.ledger_val.
Proof.
  intros k a H. unfold scenarios.ledger_val in H. simpl in H.
  apply lookup_singleton_Some in H as [<- <-]. reflexivity.
Qed.

Lemma transfer_moves_value_witness :
  exists sender' recipient',
    accounts scenarios.ledger_paid !! scenarios.alice = Some sender' /\
    accounts scenarios.ledger_paid !! scenarios.bob = Some recipient' /\
    Balance sender' = 100000 - 21010 /\ Balance recipient' = 0 + 10.
Proof.
  destruct (transfer_moves_value scenarios.pay_bob scenarios.ledger0 scenarios.ledger_paid)
    as (sender & sender' & recipient' & Hs & _ & _ & Hs' & Hr' & Hb & _ & Hbr & _).
  - exact keyed_ledger0.
  - discriminate.
  - vm_compute. reflexivity.
  - reflexivity.
  - exists sender', recipient'. split_and!; [exact Hs' | exact Hr' | |].
    + rewrite Hb. vm_compute in Hs. injection Hs as <-. reflexivity.
    + rewrite Hbr. reflexivity.
Defined.

Lemma transfer_cannot_be_replayed_witness :
  ExecuteTransaction scenarios.pay_bob scenarios.ledger_paid
  = (Err "invalid nonce", scenarios.ledger_paid).
Proof.
  apply (transfer_cannot_be_replayed scenarios.pay_bob scenarios.ledger0).
  - exact keyed_ledger0.
  - discriminate.
  - vm_compute. split; [discriminate | reflexivity].
  - reflexivity.
  - vm_compute. reflexivity.
Defined.

Lemma staking_tx_keeps_total_witness :
  exists a',
    accounts (snd (ExecuteTransaction scenarios.stake10 scenarios.ledger0))
      !! scenarios.alice = Some a' /\
    TotalBalance a' = 100000.
Proof.
  destruct (staking_tx_keeps_total scenarios.stake10 scenarios.ledger0
              (snd (ExecuteTransaction scenarios.stake10 scenarios.ledger0)))
    as (a & a' & Ha & Ha' & Ht & _).
  - exact keyed_ledger0.
  - left. reflexivity.
  - vm_compute. reflexivity.
  - exists a'. split; [exact Ha' |]. rewrite Ht.
    vm_compute in Ha. injection Ha as <-. reflexivity.
Defined.

Lemma undelegate_total_witness :
  exists a a',
    accounts scenarios.ledger_unstaked !! scenarios.alice = Some a /\
    accounts (snd (ExecuteTransaction scenarios.undelegate10 scenarios.ledger_unstaked))
      !! scenarios.alice = Some a' /\
    TotalBalance a = 100000 /\ TotalBalance a' = 100010.
Proof.
  destruct (undelegate_total scenarios.undelegate10 scenarios.ledger_unstaked
              (snd (ExecuteTransaction scenarios.undelegate10 scenarios.ledger_unstaked)))
    as (data & a & a' & Hd & Ha & Ha' & _ & _ & Ht).
  - unfold scenarios.ledger_unstaked. simpl ExecuteBlock. unfold bind.
    destruct (ExecuteTransaction scenarios.delegate10 scenarios.ledger_val)
      as [[[] | e | e] s1] eqn:H1;
      [| simpl; apply ExecuteTransaction_err_unchanged in H1; subst; exact keyed_ledger_val
       | by apply ExecuteTransaction_no_panic in H1].
    assert (keyed s1) as Hk1.
    { replace s1 with (snd (ExecuteTransaction scenarios.delegate10 scenarios.ledger_val))
        by (by rewrite H1).
      apply ExecuteTransaction_keyed, keyed_ledger_val. }
    destruct (ExecuteTransaction scenarios.unstake10 s1) as [[[] | e | e] s2] eqn:H2.
    + replace (snd (ret tt s2)) with (snd (ExecuteTransaction scenarios.unstake10 s1))
        by (by rewrite H2).
      by apply ExecuteTransaction_keyed.
    + simpl. apply ExecuteTransaction_err_unchanged in H2. by subst.
    + by apply ExecuteTransaction_no_panic in H2.
  - reflexivity.
  - vm_compute. reflexivity.
  - exists a, a'. split_and!; [exact Ha | exact Ha' | |].
    + vm_compute in Ha. injection Ha as <-. reflexivity.
    + rewrite Ht. vm_compute in Hd. injection Hd as <-.
      vm_compute in Ha. injection Ha as <-. reflexivity.
Defined.

Lemma GetCost_int64_conversion_witness :
  GetCost scenarios.pay_bob = 10 + 21000 * 1.
Proof.
  destruct (GetCost_int64_conversion scenarios.pay_bob) as [H _].
  - vm_compute. split; [discriminate | reflexivity].
  - reflexivity.
  - destruct H as [H _]; [reflexivity | exact H].
Defined.
End executor_more.

(** ** DPoS engine: registration, delegation, jailing *)

Section dpos_more.
Import types goruntime consensus.

Lemma min_stake_value : ToWei MinStakeAmount = 10 ^ 23.
Proof. vm_compute. reflexivity. Qed.

(** X7: [RegisterValidator] rejects an address that is already registered
    and a self-stake below [10^23] without touching the registry; otherwise
    it stores the validator under its address, where [GetValidator] finds it,
    leaves every other entry alone, and a second registration of the same
    validator is rejected. *)
Theorem RegisterValidator_once (v : Validator) (d : DPoS) :
  (is_Some (validators d !! val_Address v) ->
   RegisterValidator v d = (Err "validator already registered", d)) /\
  (validators d !! val_Address v = None -> SelfStake v < 10 ^ 23 ->
   RegisterValidator v d = (Err "insufficient self-stake", d)) /\
  (validators d !! val_Address v = None -> 10 ^ 23 <= SelfStake v ->
   exists d',
     RegisterValidator v d = (Ok tt, d') /\
     GetValidator (val_Address v) d' = (Ok v, d') /\
     RegisterValidator v d' = (Err "validator already registered", d') /\
     (forall k, k <> val_Address v -> validators d' !! k = validators d !! k) /\
     delegations d' = delegations d /\ activeValidators d' = activeValidators d /\
     currentEpoch d' = currentEpoch d).
Proof.
  unfold RegisterValidator, GetValidator. split_and!.
  - intros H. by rewrite bool_decide_eq_true_2.
  - intros Hn Hs. rewrite bool_decide_eq_false_2 by (rewrite Hn; by intros [? ?]).
    rewrite min_stake_value.
    assert ((SelfStake v <? 10 ^ 23) = true) as ->; [by apply Z.ltb_lt | done].
  - intros Hn Hs. rewrite bool_decide_eq_false_2 by (rewrite Hn; by intros [? ?]).
    rewrite min_stake_value.
    assert ((SelfStake v <? 10 ^ 23) = false) as -> by by apply Z.ltb_ge.
    eexists. split_and!; [reflexivity | | | | done..].
    + simpl. by rewrite lookup_insert_eq.
    + simpl. rewrite bool_decide_eq_true_2; [done |]. by rewrite lookup_insert_eq.
    + intros k Hk. simpl. by rewrite lookup_insert_ne.
Qed.

Lemma RegisterValidator_once_witness :
  exists d',
    RegisterValidator (scenarios.validator_with scenarios.bob scenarios.min_power)
      scenarios.ranked = (Ok tt, d') /\
    RegisterValidator (scenarios.validator_with scenarios.bob scenarios.min_power) d'
    = (Err "validator already registered", d') /\
    RegisterValidator (scenarios.validator_with scenarios.alice 5) scenarios.ranked
    = (Err "insufficient self-stake", scenarios.ranked).
Proof.
  destruct (RegisterValidator_once
              (scenarios.validator_with scenarios.bob scenarios.min_power)
              scenarios.ranked) as (_ & _ & H).
  destruct H as (d' & H1 & _ & H2 & _); [vm_compute; reflexivity | vm_compute; discriminate |].
  exists d'. split_and!; [exact H1 | exact H2 |].
  apply (RegisterValidator_once (scenarios.validator_with scenarios.alice 5)
           scenarios.ranked); vm_compute; reflexivity.
Defined.

Lemma set_VotingPower_restore v p :
  set_VotingPower (set_VotingPower v p) (VotingPower v) = v.
Proof. by destruct v. Qed.

(** What a successful [Delegate] writes. *)
Lemma Delegate_ok (d : DPoS) (delegator validator : Address) (amount : Z) (v : Validator) :
  validators d !! validator = Some v ->
  exists d1,
    Delegate delegator validator amount d = (Ok tt, d1) /\
    validators d1 = <[validator := AddVotingPower v amount]> (validators d) /\
    inner d1 delegator
    = <[validator := match inner d delegator !! validator with
                     | Some dg => set_Amount dg (del_Amount dg + amount)
                     | None => NewDelegation delegator validator amount
                     end]> (inner d delegator) /\
    (forall k, k <> delegator -> inner d1 k = inner d k) /\
    activeValidators d1 = activeValidators d /\ currentEpoch d1 = currentEpoch d.
Proof.
  intros Hv. unfold Delegate. rewrite Hv. eexists. split; [reflexivity |].
  split_and!; try done.
  - unfold inner at 1. simpl. rewrite lookup_insert_eq. simpl.
    destruct (inner d delegator !! validator); done.
  - intros k Hk. unfold inner. simpl. by rewrite lookup_insert_ne.
Qed.

(** What a successful [Undelegate] writes. *)
Lemma Undelegate_ok (d : DPoS) (delegator validator : Address) (amount : Z)
    (dg : Delegation) (v : Validator) :
  inner d delegator !! validator = Some dg -> amount <= del_Amount dg ->
  validators d !! validator = Some v ->
  exists d2,
    Undelegate delegator validator amount d = (Ok tt, d2) /\
    validators d2 = <[validator := SubVotingPower v amount]> (validators d) /\
    inner d2 delegator
    = (if del_Amount dg - amount =? 0 then delete validator (inner d delegator)
       else <[validator := set_Amount dg (del_Amount dg - amount)]> (inner d delegator)) /\
    (forall k, k <> delegator -> inner d2 k = inner d k) /\
    activeValidators d2 = activeValidators d /\ currentEpoch d2 = currentEpoch d.
Proof.
  intros Hdg Ha Hv. unfold Undelegate. rewrite Hdg.
  assert ((del_Amount dg <? amount) = false) as -> by (apply Z.ltb_ge; lia).
  cbn [validators set_delegations]. rewrite Hv. cbn [del_Amount set_Amount].
  destruct (del_Amount dg - amount =? 0) eqn:Hz.
  - eexists. split; [reflexivity |]. split_and!; try done.
    + unfold inner. simpl. rewrite !lookup_insert_eq. simpl.
      by rewrite delete_insert_eq.
    + intros k Hk. unfold inner. simpl. by rewrite !lookup_insert_ne.
  - eexists. split; [reflexivity |]. split_and!; try done.
    + unfold inner. simpl. by rewrite !lookup_insert_eq.
    + intros k Hk. unfold inner. simpl. by rewrite !lookup_insert_ne.
Qed.

(** [Undelegate] returns an error only before it has written anything. *)
Lemma Undelegate_err_unchanged (d d' : DPoS) delegator validator amount e :
  Undelegate delegator validator amount d = (Err e, d') -> d' = d.
Proof.
  unfold Undelegate. intros H.
  destruct (inner d delegator !! validator); [| by simplify_eq].
  destruct (del_Amount d0 <? amount); [by simplify_eq |].
  cbn [validators set_delegations] in H.
  destruct (validators d !! validator); [| done].
  by destruct (del_Amount (set_Amount d0 (del_Amount d0 - amount)) =? 0).
Qed.

(** X8: delegating an amount and undelegating it again both succeed and
    give back the registry of validators exactly as it was, whenever the
    validator's voting power and the delegator's previous delegation, if
    any, are not negative; in between the voting power is raised by the
    amount. The delegation record goes back to its previous amount, and is
    dropped if that amount is zero. *)
Theorem Delegate_Undelegate_round_trip (d : DPoS) (delegator validator : Address)
    (amount : Z) (v : Validator) :
  validators d !! validator = Some v -> 0 <= VotingPower v ->
  (forall dg, inner d delegator !! validator = Some dg -> 0 <= del_Amount dg) ->
  exists d1 d2,
    Delegate delegator validator amount d = (Ok tt, d1) /\
    VotingPower <$> validators d1 !! validator = Some (VotingPower v + amount) /\
    Undelegate delegator validator amount d1 = (Ok tt, d2) /\
    validators d2 = validators d /\
    inner d2 delegator !! validator
    = match inner d delegator !! validator with
      | Some dg => if del_Amount dg =? 0 then None else Some dg
      | None => None
      end.
Proof.
  intros Hv Hp Hdg.
  destruct (Delegate_ok d delegator validator amount v Hv)
    as (d1 & H1 & Hv1 & Hi1 & _).
  set (dg1 := match inner d delegator !! validator with
              | Some dg => set_Amount dg (del_Amount dg + amount)
              | None => NewDelegation delegator validator amount
              end) in *.
  assert (amount <= del_Amount dg1) as Hle.
  { subst dg1. destruct (inner d delegator !! validator) as [dg |] eqn:E;
      simpl; [specialize (Hdg dg eq_refl); lia | lia]. }
  destruct (Undelegate_ok d1 delegator validator amount dg1 (AddVotingPower v amount))
    as (d2 & H2 & Hv2 & Hi2 & _).
  { by rewrite Hi1, lookup_insert_eq. }
  { done. }
  { by rewrite Hv1, lookup_insert_eq. }
  exists d1, d2. split_and!; [done | by rewrite Hv1, lookup_insert_eq | done | |].
  - rewrite Hv2, Hv1, insert_insert_eq.
    assert (SubVotingPower (AddVotingPower v amount) amount = v) as ->.
    { unfold SubVotingPower, AddVotingPower. simpl.
      replace (VotingPower v + amount - amount) with (VotingPower v) by lia.
      assert ((VotingPower v <? 0) = false) as -> by (apply Z.ltb_ge; lia).
      apply set_VotingPower_restore. }
    by apply insert_id.
  - rewrite Hi2, Hi1. subst dg1.
    destruct (inner d delegator !! validator) as [dg |] eqn:E; simpl.
    + replace (del_Amount dg + amount - amount) with (del_Amount dg) by lia.
      destruct (del_Amount dg =? 0); [by rewrite lookup_delete_eq |].
      rewrite lookup_insert_eq. by destruct dg.
    + replace (amount - amount) with 0 by lia. simpl. by rewrite lookup_delete_eq.
Qed.

Lemma Delegate_Undelegate_round_trip_witness :
  exists d1 d2,
    Delegate scenarios.alice scenarios.val1 5000 scenarios.ranked = (Ok tt, d1) /\
    Undelegate scenarios.alice scenarios.val1 5000 d1 = (Ok tt, d2) /\
    validators d2 = validators scenarios.ranked.
Proof.
  destruct (Delegate_Undelegate_round_trip scenarios.ranked scenarios.alice scenarios.val1
              5000 (scenarios.validator_with scenarios.val1 scenarios.min_power))
    as (d1 & d2 & H1 & _ & H2 & H3 & _).
  - vm_compute. reflexivity.
  - vm_compute. discriminate.
  - intros dg H. vm_compute in H. discriminate H.
  - exists d1, d2. split_and!; [exact H1 | exact H2 | exact H3].
Defined.

(** *** Slashing and jailing *)

(** The effect of a slashing on the registry and on the event log, field by
    field. *)
Lemma SlashValidator_effect (s : Slasher) (address : Address) (reason blockNum : Z)
    (v : Validator) :
  validators (dpos s) !! address = Some v ->
  reason = SlashingReasonDoubleSign \/ reason = SlashingReasonDowntime \/
  reason = SlashingReasonInvalidBlock ->
  exists v',
    SlashValidator address reason blockNum s
    = (Ok tt, {| dpos := set_validators (dpos s) (<[address := v']> (validators (dpos s)));
                 events := (events s ++
                            [{| ev_Validator := address; ev_Reason := reason;
                                ev_Amount := VotingPower v * percent reason / 100;
                                ev_BlockNum := blockNum |}])%list |}) /\
    VotingPower v' = Z.max 0 (VotingPower v - VotingPower v * percent reason / 100) /\
    SelfStake v' = SelfStake v - SelfStake v * percent reason / 100 /\
    Jailed v' = (Jailed v || bool_decide (reason <> SlashingReasonDowntime)) /\
    Status v' = (if bool_decide (reason <> SlashingReasonDowntime)
                 then ValidatorStatusJailed else Status v) /\
    val_Address v' = val_Address v /\ LastActiveEpoch v' = LastActiveEpoch v.
Proof.
  intros Hv Hr.
  destruct (slashPercentage_percent reason Hr) as (pct & Hpct & Hbp).
  unfold SlashValidator, bind, on_dpos, GetValidator. rewrite Hv. simpl.
  rewrite Hpct, !Hbp.
  set (amount := VotingPower v * percent reason / 100).
  set (v1 := SubVotingPower v amount).
  assert (VotingPower v1 = Z.max 0 (VotingPower v - amount)) as Hp1.
  { subst v1. unfold SubVotingPower. case_match eqn:E; simpl.
    - apply Z.ltb_lt in E. lia.
    - apply Z.ltb_ge in E. lia. }
  assert (SelfStake v1 = SelfStake v /\ Jailed v1 = Jailed v /\ Status v1 = Status v /\
          val_Address v1 = val_Address v /\ LastActiveEpoch v1 = LastActiveEpoch v)
    as (Hs1 & Hj1 & Hst1 & Ha1 & Hl1)
    by (subst v1; unfold SubVotingPower; case_match; done).
  eexists. split; [reflexivity |].
  destruct Hr as [-> | [-> | ->]]; simpl; rewrite ?Hp1, ?Hs1, ?Hj1, ?Hst1, ?Ha1, ?Hl1;
    split_and!; try done; by rewrite ?orb_true_r, ?orb_false_r.
Qed.

Section jailing.
Variable sort_slice : list (Address * Validator) -> list (Address * Validator).
Hypothesis sort_slice_ok : sort_contract by_power sort_slice.

(** X9: whatever is selected may produce blocks, so a validator slashed for
    double-signing or for an invalid block, which is jailed by the slashing,
    is not in the active set of the next selection, in whatever order the
    registry is visited. *)
Theorem jailed_validator_not_selected (s s' : Slasher) (address : Address)
    (reason blockNum : Z) (order : list Address) :
  reason = SlashingReasonDoubleSign \/ reason = SlashingReasonInvalidBlock ->
  SlashValidator address reason blockNum s = (Ok tt, s') ->
  let r := SelectValidators sort_slice order (dpos s') in
  (address ∉ activeValidators (snd r)) /\
  (exists selected, fst r = Ok selected /\
                    Forall (fun x => CanProduceBlocks x = true) selected).
Proof.
  intros Hr Hrun r.
  assert (exists v', validators (dpos s') !! address = Some v' /\ Jailed v' = true)
    as (v' & Hv' & Hj).
  { unfold SlashValidator, bind, on_dpos, GetValidator in Hrun.
    destruct (validators (dpos s) !! address) as [v |] eqn:Hv; [| done].
    destruct (SlashValidator_effect s address reason blockNum v Hv) as (v' & Hrun' & _ & _ & Hj & _).
    { destruct Hr as [-> | ->]; auto. }
    unfold SlashValidator, bind, on_dpos, GetValidator in Hrun'. rewrite Hv in Hrun'.
    rewrite Hrun' in Hrun. simplify_eq. exists v'. split.
    - simpl. by rewrite lookup_insert_eq.
    - rewrite Hj. destruct Hr as [-> | ->]; by rewrite orb_true_r. }
  subst r. unfold SelectValidators. simpl.
  set (l := filter (fun kv => CanProduceBlocks kv.2 = true) (ranged (dpos s') order)).
  destruct (sort_slice_ok l) as [Hp _].
  set (n := Z.to_nat _).
  assert (forall kv, kv ∈ take n (sort_slice l) ->
                     CanProduceBlocks kv.2 = true /\
                     validators (dpos s') !! kv.1 = Some kv.2) as Hin.
  { intros kv Hkv. apply elem_of_take in Hkv as (i & Hi & _).
    assert (kv ∈ l) as Hl by (rewrite <- Hp; apply list_elem_of_lookup; eauto).
    subst l. apply list_elem_of_filter in Hl as [Hc Hl]. split; [done |].
    unfold ranged in Hl. apply list_elem_of_omap in Hl as (k & _ & Hk).
    destruct (validators (dpos s') !! k) eqn:E; simpl in Hk; by simplify_eq. }
  split.
  - intros Hmem. apply list_elem_of_fmap in Hmem as ([k v] & Hk & Hkv). simpl in Hk. subst k.
    destruct (Hin _ Hkv) as [Hc Hl]. simpl in *. rewrite Hv' in Hl. simplify_eq.
    unfold CanProduceBlocks, IsActive in Hc. rewrite Hj in Hc.
    by rewrite andb_false_r in Hc.
  - eexists. split; [reflexivity |]. apply Forall_forall. intros x Hx.
    apply list_elem_of_fmap in Hx as ([k v] & -> & Hkv). by apply Hin in Hkv as [? _].
Qed.
End jailing.

Lemma jailed_validator_not_selected_witness :
  scenarios.val2
  ∉ activeValidators
      (snd (SelectValidators scenarios.sort_by_power [scenarios.val1; scenarios.val2]
              (dpos (snd (SlashValidator scenarios.val2 SlashingReasonDoubleSign 3
                            scenarios.ranked_slasher))))).
Proof.
  apply (jailed_validator_not_selected scenarios.sort_by_power sort_by_power_contract
           scenarios.ranked_slasher
           (snd (SlashValidator scenarios.val2 SlashingReasonDoubleSign 3
                   scenarios.ranked_slasher))
           scenarios.val2 SlashingReasonDoubleSign 3).
  - left. reflexivity.
  - vm_compute. reflexivity.
Defined.

(** X10: [CheckDowntime] does nothing below 50 missed blocks; from 50 on it
    slashes a registered validator by 1% for downtime, without jailing it,
    and logs the event under the validator's [LastActiveEpoch] (the value it
    passes as block number); the slashing history of the validator grows by
    that event and no other history changes. *)
Theorem CheckDowntime_from_threshold (s : Slasher) (address : Address) (missedBlocks : Z)
    (v : Validator) :
  validators (dpos s) !! address = Some v ->
  (missedBlocks < 50 -> CheckDowntime address missedBlocks s = (Ok tt, s)) /\
  (50 <= missedBlocks ->
   exists s' v',
     CheckDowntime address missedBlocks s = (Ok tt, s') /\
     validators (dpos s') !! address = Some v' /\
     VotingPower v' = Z.max 0 (VotingPower v - VotingPower v / 100) /\
     Jailed v' = Jailed v /\ Status v' = Status v /\
     GetValidatorSlashingHistory address s'
     = (GetValidatorSlashingHistory address s ++
        [{| ev_Validator := address; ev_Reason := SlashingReasonDowntime;
            ev_Amount := VotingPower v / 100;
            ev_BlockNum := LastActiveEpoch v |}])%list /\
     (forall other, other <> address ->
        GetValidatorSlashingHistory other s' = GetValidatorSlashingHistory other s)).
Proof.
  intros Hv. unfold CheckDowntime, downtimeThreshold. split.
  - intros Hlt. by assert ((50 <=? missedBlocks) = false) as -> by (apply Z.leb_gt; lia).
  - intros Hge. assert ((50 <=? missedBlocks) = true) as -> by (apply Z.leb_le; lia).
    destruct (SlashValidator_effect s address SlashingReasonDowntime (LastActiveEpoch v) v Hv)
      as (v' & Hrun & Hp & _ & Hj & Hst & _); [auto |].
    change (percent SlashingReasonDowntime) with 1 in *. rewrite Z.mul_1_r in *.
    unfold bind, on_dpos at 1, GetValidator. rewrite Hv. simpl. destruct s as [d evs].
    simpl in *. rewrite Hrun. eexists _, v'.
    split_and!; [reflexivity | simpl; by rewrite lookup_insert_eq | done
                | by rewrite Hj, orb_false_r | done | |].
    + unfold GetValidatorSlashingHistory. simpl. rewrite filter_app.
      rewrite filter_cons_True by done. done.
    + intros other Hne. unfold GetValidatorSlashingHistory. simpl. rewrite filter_app.
      rewrite filter_cons_False by (simpl; congruence). by rewrite filter_nil, app_nil_r.
Qed.

Lemma CheckDowntime_from_threshold_witness :
  CheckDowntime scenarios.val1 49 scenarios.million = (Ok tt, scenarios.million) /\
  exists s', CheckDowntime scenarios.val1 50 scenarios.million = (Ok tt, s') /\
             GetValidatorSlashingHistory scenarios.val1 s'
             = [{| ev_Validator := scenarios.val1; ev_Reason := SlashingReasonDowntime;
                   ev_Amount := 10000; ev_BlockNum := 0 |}].
Proof.
  destruct (CheckDowntime_from_threshold scenarios.million scenarios.val1 49
              (scenarios.validator_with scenarios.val1 1000000)) as [H49 _];
    [vm_compute; reflexivity |].
  destruct (CheckDowntime_from_threshold scenarios.million scenarios.val1 50
              (scenarios.validator_with scenarios.val1 1000000)) as [_ H50];
    [vm_compute; reflexivity |].
  split; [apply H49; reflexivity |].
  destruct H50 as (s' & v' & Hrun & _ & _ & _ & _ & Hh & _); [discriminate |].
  exists s'. split; [exact Hrun |]. rewrite Hh. vm_compute. reflexivity.
Defined.

(** X11: [DetectDoubleSign] acts only when the two heights are equal; it then
    takes 5% off the validator's voting power, jails it, so that it is
    neither active nor able to produce blocks, and logs the event at that
    height. *)
Theorem DetectDoubleSign_same_height (s : Slasher) (address : Address) (h1 h2 : Z)
    (v : Validator) :
  validators (dpos s) !! address = Some v ->
  (h1 <> h2 -> DetectDoubleSign address h1 h2 s = (Ok tt, s)) /\
  (h1 = h2 ->
   exists s' v',
     DetectDoubleSign address h1 h2 s = (Ok tt, s') /\
     validators (dpos s') !! address = Some v' /\
     VotingPower v' = Z.max 0 (VotingPower v - VotingPower v * 5 / 100) /\
     Jailed v' = true /\ Status v' = ValidatorStatusJailed /\
     IsActive v' = false /\ CanProduceBlocks v' = false /\
     events s' = (events s ++
                  [{| ev_Validator := address; ev_Reason := SlashingReasonDoubleSign;
                      ev_Amount := VotingPower v * 5 / 100; ev_BlockNum := h1 |}])%list).
Proof.
  intros Hv. unfold DetectDoubleSign. split.
  - intros Hne. by assert ((h1 =? h2) = false) as -> by by apply Z.eqb_neq.
  - intros <-. rewrite Z.eqb_refl.
    destruct (SlashValidator_effect s address SlashingReasonDoubleSign h1 v Hv)
      as (v' & Hrun & Hp & _ & Hj & Hst & _); [auto |].
    change (percent SlashingReasonDoubleSign) with 5 in *.
    rewrite Hrun. eexists _, v'. rewrite orb_true_r in Hj. simpl in Hst.
    split_and!; [reflexivity | simpl; by rewrite lookup_insert_eq | done | done | done
                | | | done].
    + unfold IsActive. by rewrite Hj, andb_false_r.
    + unfold CanProduceBlocks, IsActive. by rewrite Hj, andb_false_r.
Qed.

Lemma DetectDoubleSign_same_height_witness :
  DetectDoubleSign scenarios.val1 7 8 scenarios.million = (Ok tt, scenarios.million) /\
  exists s' v', DetectDoubleSign scenarios.val1 7 7 scenarios.million = (Ok tt, s') /\
                validators (dpos s') !! scenarios.val1 = Some v' /\
                VotingPower v' = 950000 /\ Jailed v' = true.
Proof.
  destruct (DetectDoubleSign_same_height scenarios.million scenarios.val1 7 8
              (scenarios.validator_with scenarios.val1 1000000)) as [Hne _];
    [vm_compute; reflexivity |].
  destruct (DetectDoubleSign_same_height scenarios.million scenarios.val1 7 7
              (scenarios.validator_with scenarios.val1 1000000)) as [_ Heq];
    [vm_compute; reflexivity |].
  split; [apply Hne; discriminate |].
  destruct Heq as (s' & v' & Hrun & Hv' & Hp & Hj & _); [reflexivity |].
  exists s', v'. split_and!; [exact Hrun | exact Hv' | exact Hp | exact Hj].
Defined.
End dpos_more.

(** ** Staking manager: redelegation and failed unstaking *)

Section staking_more.
Import types consensus staking.

Lemma SubVotingPower_max v amount :
  VotingPower (SubVotingPower v amount) = Z.max 0 (VotingPower v - amount).
Proof.
  unfold SubVotingPower. destruct (VotingPower v - amount <? 0) eqn:E; simpl;
    [apply Z.ltb_lt in E | apply Z.ltb_ge in E]; lia.
Qed.

(** X12: [Redelegate] between two different registered validators takes the
    amount off the source's voting power (stopping at zero) and adds it to
    the destination's, moves it from the one delegation to the other, and
    queues nothing for unbonding. *)
Theorem Redelegate_moves_power (sm : StakingManager) (delegator src dst : Address)
    (amount : Z) (dg : Delegation) (vs vd : Validator) :
  src <> dst ->
  validators (sm_dpos sm) !! src = Some vs ->
  validators (sm_dpos sm) !! dst = Some vd ->
  inner (sm_dpos sm) delegator !! src = Some dg -> amount <= del_Amount dg ->
  exists sm',
    Redelegate delegator src dst amount sm = (Ok tt, sm') /\
    VotingPower <$> validators (sm_dpos sm') !! src
    = Some (Z.max 0 (VotingPower vs - amount)) /\
    VotingPower <$> validators (sm_dpos sm') !! dst = Some (VotingPower vd + amount) /\
    del_Amount <$> inner (sm_dpos sm') delegator !! src
    = (if del_Amount dg - amount =? 0 then None else Some (del_Amount dg - amount)) /\
    del_Amount <$> inner (sm_dpos sm') delegator !! dst
    = Some (default 0 (del_Amount <$> inner (sm_dpos sm) delegator !! dst) + amount) /\
    unbondingQueue sm' = unbondingQueue sm.
Proof.
  intros Hne Hvs Hvd Hdg Ha.
  destruct (Undelegate_ok (sm_dpos sm) delegator src amount dg vs Hdg Ha Hvs)
    as (d1 & H1 & Hv1 & Hi1 & _).
  assert (validators d1 !! dst = Some vd) as Hvd1
    by (by rewrite Hv1, lookup_insert_ne).
  destruct (Delegate_ok d1 delegator dst amount vd Hvd1) as (d2 & H2 & Hv2 & Hi2 & _).
  exists (set_dpos (set_dpos sm d1) d2). split_and!.
  - unfold Redelegate, bind, on_dpos. rewrite H1. simpl. by rewrite H2.
  - simpl. rewrite Hv2, lookup_insert_ne by done. rewrite Hv1, lookup_insert_eq. simpl.
    by rewrite SubVotingPower_max.
  - simpl. by rewrite Hv2, lookup_insert_eq.
  - simpl. rewrite Hi2, lookup_insert_ne by done. rewrite Hi1.
    destruct (del_Amount dg - amount =? 0).
    + by rewrite lookup_delete_eq.
    + by rewrite lookup_insert_eq.
  - simpl. rewrite Hi2, lookup_insert_eq.
    assert (inner d1 delegator !! dst = inner (sm_dpos sm) delegator !! dst) as ->.
    { rewrite Hi1. destruct (del_Amount dg - amount =? 0).
      - by rewrite lookup_delete_ne.
      - by rewrite lookup_insert_ne. }
    destruct (inner (sm_dpos sm) delegator !! dst); simpl; f_equal; lia.
  - done.
Qed.

(** X13: [Redelegate] is not atomic: when the destination is not a registered
    validator it returns "validator not found", but the undelegation from
    the source has already been applied and stays: the source has lost the
    voting power and the delegation is reduced. *)
Theorem Redelegate_unknown_destination (sm : StakingManager) (delegator src dst : Address)
    (amount : Z) (dg : Delegation) (vs : Validator) :
  validators (sm_dpos sm) !! src = Some vs ->
  validators (sm_dpos sm) !! dst = None ->
  inner (sm_dpos sm) delegator !! src = Some dg -> amount <= del_Amount dg ->
  exists sm',
    Redelegate delegator src dst amount sm = (Err "validator not found", sm') /\
    VotingPower <$> validators (sm_dpos sm') !! src
    = Some (Z.max 0 (VotingPower vs - amount)) /\
    del_Amount <$> inner (sm_dpos sm') delegator !! src
    = (if del_Amount dg - amount =? 0 then None else Some (del_Amount dg - amount)).
Proof.
  intros Hvs Hvd Hdg Ha.
  destruct (Undelegate_ok (sm_dpos sm) delegator src amount dg vs Hdg Ha Hvs)
    as (d1 & H1 & Hv1 & Hi1 & _).
  assert (src <> dst) as Hne by (intros ->; congruence).
  assert (validators d1 !! dst = None) as Hvd1 by (by rewrite Hv1, lookup_insert_ne).
  exists (set_dpos (set_dpos sm d1) d1). split_and!.
  - unfold Redelegate, bind, on_dpos. rewrite H1. simpl.
    unfold Delegate. by rewrite Hvd1.
  - simpl. rewrite Hv1, lookup_insert_eq. simpl.
    by rewrite SubVotingPower_max.
  - simpl. rewrite Hi1. destruct (del_Amount dg - amount =? 0).
    + by rewrite lookup_delete_eq.
    + by rewrite lookup_insert_eq.
Qed.

(** X14: when the undelegation is refused, [Unstake] returns its error and
    leaves the manager as it was: nothing is queued for unbonding. *)
Theorem Unstake_refused (sm : StakingManager) (delegator validator : Address)
    (amount currentBlock : Z) (e : string) :
  fst (Undelegate delegator validator amount (sm_dpos sm)) = Err e ->
  Unstake delegator validator amount currentBlock sm = (Err e, sm).
Proof.
  intros H. unfold Unstake, bind, on_dpos.
  destruct (Undelegate delegator validator amount (sm_dpos sm)) as [r d] eqn:Hu.
  simpl in H. subst r. apply Undelegate_err_unchanged in Hu as ->. by destruct sm.
Qed.

Lemma Redelegate_moves_power_witness :
  exists sm',
    Redelegate scenarios.alice scenarios.val1 scenarios.val2 (10 ^ 19)
      scenarios.staked_manager = (Ok tt, sm') /\
    VotingPower <$> validators (sm_dpos sm') !! scenarios.val1
    = Some (10 ^ 23 + 10 ^ 19) /\
    VotingPower <$> validators (sm_dpos sm') !! scenarios.val2
    = Some (2 * 10 ^ 23 + 10 ^ 19).
Proof.
  destruct (Redelegate_moves_power scenarios.staked_manager scenarios.alice scenarios.val1
              scenarios.val2 (10 ^ 19)
              (NewDelegation scenarios.alice scenarios.val1 (2 * 10 ^ 19))
              (AddVotingPower (scenarios.validator_with scenarios.val1 (10 ^ 23)) (2 * 10 ^ 19))
              (scenarios.validator_with scenarios.val2 (2 * 10 ^ 23)))
    as (sm' & Hrun & Hs & Hd & _).
  - discriminate.
  - vm_compute. reflexivity.
  - vm_compute. reflexivity.
  - vm_compute. reflexivity.
  - vm_compute. discriminate.
  - exists sm'. split_and!; [exact Hrun | rewrite Hs | rewrite Hd]; vm_compute; reflexivity.
Defined.

Lemma Redelegate_unknown_destination_witness :
  exists sm',
    Redelegate scenarios.alice scenarios.val1 scenarios.bob (10 ^ 19)
      scenarios.staked_manager = (Err "validator not found", sm') /\
    VotingPower <$> validators (sm_dpos sm') !! scenarios.val1
    = Some (10 ^ 23 + 10 ^ 19) /\
    VotingPower <$> validators (sm_dpos scenarios.staked_manager) !! scenarios.val1
    = Some (10 ^ 23 + 2 * 10 ^ 19).
Proof.
  destruct (Redelegate_unknown_destination scenarios.staked_manager scenarios.alice
              scenarios.val1 scenarios.bob (10 ^ 19)
              (NewDelegation scenarios.alice scenarios.val1 (2 * 10 ^ 19))
              (AddVotingPower (scenarios.validator_with scenarios.val1 (10 ^ 23)) (2 * 10 ^ 19)))
    as (sm' & Hrun & Hs & _).
  - vm_compute. reflexivity.
  - vm_compute. reflexivity.
  - vm_compute. reflexivity.
  - vm_compute. discriminate.
  - exists sm'. split_and!; [exact Hrun | rewrite Hs |]; vm_compute; reflexivity.
Defined.

Lemma Unstake_refused_witness :
  Unstake scenarios.bob scenarios.val1 5 1000 scenarios.staked_manager
  = (Err "delegation not found", scenarios.staked_manager).
Proof.
  apply (Unstake_refused scenarios.staked_manager scenarios.bob scenarios.val1 5 1000).
  vm_compute. reflexivity.
Defined.
End staking_more.

(** ** Reward calculator *)

Section rewards.
Import types goruntime consensus.

(** [ToWei] in [big.Float] arithmetic: exact on 2, 10 and 100000, five units
    above [10^17] on 0.1, which is no binary fraction. *)
Lemma ToWeiFloat_values :
  ToWeiFloat 2 = 2 * 10 ^ 18 /\ ToWeiFloat 10 = ToWei 10 /\
  ToWeiFloat 100000 = ToWei MinStakeAmount /\
  ToWeiFloat 0.1 = 100000000000000005.
Proof. vm_compute. auto. Qed.

Lemma iter_halving (n : nat) (x : Z) :
  Nat.iter n (fun reward => reward / 2) x = x / 2 ^ Z.of_nat n.
Proof.
  induction n as [| n IH]; [by rewrite Z.div_1_r |].
  rewrite Nat.iter_succ, IH, Nat2Z.inj_succ, Z.pow_succ_r by lia.
  rewrite Z.div_div by lia. f_equal. lia.
Qed.

(** X15: the block reward is 2 tokens for the first 42,048,000 blocks and
    half the previous reward in each following period of 42,048,000 blocks,
    down to 0.125 tokens; from block 210,240,000 on it is the floor
    [ToWei(0.1)], which is 100000000000000005 wei. *)
Theorem CalculateBlockReward_schedule (h : Z) :
  0 <= h ->
  CalculateBlockReward h
  = if h <? 42048000 then 2000000000000000000
    else if h <? 84096000 then 1000000000000000000
    else if h <? 126144000 then 500000000000000000
    else if h <? 168192000 then 250000000000000000
    else if h <? 210240000 then 125000000000000000
    else 100000000000000005.
Proof.
  intros Hh. unfold CalculateBlockReward.
  destruct ToWeiFloat_values as (-> & _ & _ & ->).
  change halvingPeriod with 42048000.
  rewrite iter_halving, Z2Nat.id by (apply Z.div_pos; lia).
  pose proof (Z.div_mod h 42048000 ltac:(lia)) as Hdm.
  pose proof (Z.mod_pos_bound h 42048000 ltac:(lia)) as Hmb.
  set (k := h / 42048000) in *.
  assert (0 <= k) as Hk by (subst k; apply Z.div_pos; lia).
  destruct (Z.ltb_spec h 42048000);
    [assert (k = 0) as -> by lia; vm_compute; reflexivity |].
  destruct (Z.ltb_spec h 84096000);
    [assert (k = 1) as -> by lia; vm_compute; reflexivity |].
  destruct (Z.ltb_spec h 126144000);
    [assert (k = 2) as -> by lia; vm_compute; reflexivity |].
  destruct (Z.ltb_spec h 168192000);
    [assert (k = 3) as -> by lia; vm_compute; reflexivity |].
  destruct (Z.ltb_spec h 210240000);
    [assert (k = 4) as -> by lia; vm_compute; reflexivity |].
  assert (5 <= k) as Hk5 by lia.
  assert (2 * 10 ^ 18 / 2 ^ k <= 2 * 10 ^ 18 / 2 ^ 5) as Hle
    by (apply Z.div_le_compat_l; [lia | split; [lia | by apply Z.pow_le_mono_r]]).
  change (2 * 10 ^ 18 / 2 ^ 5) with 62500000000000000 in Hle.
  destruct (Z.ltb_spec (2 * 10 ^ 18 / 2 ^ k) 100000000000000005); [done | lia].
Qed.

Lemma CalculateBlockReward_schedule_witness :
  CalculateBlockReward 42048000 = 1000000000000000000 /\
  CalculateBlockReward (2 ^ 64 - 1) = 100000000000000005.
Proof.
  split.
  - rewrite (CalculateBlockReward_schedule 42048000); [reflexivity | discriminate].
  - rewrite (CalculateBlockReward_schedule (2 ^ 64 - 1)); [reflexivity | discriminate].
Defined.

(** The loop of [distributeToDelegate] over keys visited once each. *)
Lemma fold_reward_delegator va tr vp order (ds : gmap Address (gmap Address Delegation)) :
  NoDup order ->
  forall k,
    fold_left (reward_delegator va tr vp) order ds !! k
    = if decide (k ∈ order) then credit_share va tr vp <$> ds !! k else ds !! k.
Proof.
  intros Hnd. revert ds. induction Hnd as [| k0 order Hk0 Hnd IH]; intros ds k;
    cbn [fold_left].
  - destruct (decide (k ∈ [])) as [H | H]; [by apply elem_of_nil in H | done].
  - rewrite IH.
    assert (reward_delegator va tr vp ds k0 !! k0 = credit_share va tr vp <$> ds !! k0) as H0.
    { unfold reward_delegator, credit_share.
      destruct (ds !! k0) as [m |] eqn:E; [| by rewrite E].
      destruct (m !! va) as [dg |] eqn:E'; simpl.
      - by rewrite lookup_insert_eq, E'.
      - by rewrite E, E'. }
    assert (forall k', k' <> k0 -> reward_delegator va tr vp ds k0 !! k' = ds !! k') as Hne.
    { intros k' Hk'. unfold reward_delegator.
      destruct (ds !! k0) as [m |]; [| done].
      destruct (m !! va); [| done]. by rewrite lookup_insert_ne. }
    destruct (decide (k ∈ order)) as [Hin | Hin];
      destruct (decide (k ∈ k0 :: order)) as [Hin' | Hin'].
    + rewrite Hne; [done |]. by intros ->.
    + exfalso. apply Hin'. by right.
    + apply elem_of_cons in Hin' as [-> | ?]; done.
    + rewrite Hne; [done |]. intros ->. apply Hin'. by left.
Qed.

Lemma range_order_lookup {V} (m : gmap N V) order k :
  range_order m order -> k ∉ order -> m !! k = None.
Proof.
  intros [_ Hdom] Hk. apply not_elem_of_dom. rewrite <- Hdom.
  by rewrite elem_of_list_to_set.
Qed.

(** X16: [DistributeBlockReward] adds the commission
    [total * Commission / 10000] to the validator's accumulated rewards and,
    when the voting power is positive, credits every delegation to that
    validator with [(total - commission) * amount / votingPower], rounded
    down; nothing else changes. Each delegation is credited on its own, so
    the result does not depend on the order in which the delegators are
    visited. *)
Theorem DistributeBlockReward_effect (d : DPoS) (validatorAddr : Address)
    (blockNumber txFees : Z) (order : list Address) (v : Validator) :
  validators d !! validatorAddr = Some v ->
  range_order (delegations d) order ->
  let total := CalculateBlockReward blockNumber + txFees in
  let commission := CalculateCommission v total in
  exists d',
    DistributeBlockReward validatorAddr blockNumber txFees order d = (Ok tt, d') /\
    validators d'
    = <[validatorAddr := set_TotalRewards v (TotalRewards v + commission)]> (validators d) /\
    delegations d'
    = (if 0 <? VotingPower v
       then credit_share validatorAddr (total - commission) (VotingPower v) <$> delegations d
       else delegations d) /\
    activeValidators d' = activeValidators d /\ currentEpoch d' = currentEpoch d /\
    (forall order', range_order (delegations d) order' ->
       DistributeBlockReward validatorAddr blockNumber txFees order' d = (Ok tt, d')).
Proof.
  intros Hv Hro total commission.
  assert (forall order0, range_order (delegations d) order0 ->
            fold_left (reward_delegator validatorAddr (total - commission) (VotingPower v))
              order0 (delegations d)
            = credit_share validatorAddr (total - commission) (VotingPower v)
                <$> delegations d) as Hfold.
  { intros order0 Hro0. apply map_eq. intros k.
    rewrite fold_reward_delegator by apply Hro0. rewrite lookup_fmap.
    case_decide as Hin; [done |].
    assert (delegations d !! k = None) as Hnone
      by exact (range_order_lookup _ _ _ Hro0 Hin).
    by rewrite Hnone. }
  assert (forall order0, range_order (delegations d) order0 ->
            DistributeBlockReward validatorAddr blockNumber txFees order0 d
            = (Ok tt,
               if 0 <? VotingPower v
               then set_delegations
                      (set_validators d
                         (<[validatorAddr := set_TotalRewards v (TotalRewards v + commission)]>
                            (validators d)))
                      (credit_share validatorAddr (total - commission) (VotingPower v)
                         <$> delegations d)
               else set_validators d
                      (<[validatorAddr := set_TotalRewards v (TotalRewards v + commission)]>
                         (validators d)))) as Hrun.
  { intros order0 Hro0.
    unfold DistributeBlockReward, bind, GetValidator, modify, distributeToDelegate.
    rewrite Hv. fold total. fold commission. cbn [VotingPower set_TotalRewards].
    destruct (0 <? VotingPower v) eqn:Hp; [| done].
    cbn [validators set_validators delegations]. rewrite lookup_insert_eq.
    cbn [VotingPower]. by rewrite Hfold. }
  eexists. split; [by apply Hrun |].
  destruct (0 <? VotingPower v); split_and!; try done; intros order' Hro'; by apply Hrun.
Qed.

Lemma DistributeBlockReward_effect_witness :
  TotalRewards <$> validators scenarios.rewarded_engine !! scenarios.val1
  = Some (2 * 10 ^ 17) /\
  del_Rewards <$> inner scenarios.rewarded_engine scenarios.alice !! scenarios.val1
  = Some (18 * 10 ^ 17 * (2 * 10 ^ 19) / (10 ^ 23 + 2 * 10 ^ 19)).
Proof.
  destruct (DistributeBlockReward_effect scenarios.staked_engine scenarios.val1 1 0
              [scenarios.alice]
              (AddVotingPower (scenarios.validator_with scenarios.val1 (10 ^ 23))
                 (2 * 10 ^ 19)))
    as (d' & Hrun & Hv & Hd & _).
  - vm_compute. reflexivity.
  - split; [by apply (bool_decide_unpack _) |].
    apply (bool_decide_unpack _). vm_compute. reflexivity.
  - assert (scenarios.rewarded_engine = d') as ->
      by (unfold scenarios.rewarded_engine; by rewrite Hrun).
    split.
    + rewrite Hv, lookup_insert_eq. vm_compute. reflexivity.
    + unfold inner. rewrite Hd. vm_compute. reflexivity.
Defined.

Lemma CalculateBlockReward_min h : 100000000000000005 <= CalculateBlockReward h.
Proof.
  unfold CalculateBlockReward. destruct ToWeiFloat_values as (_ & _ & _ & ->).
  case_match eqn:E; [done | by apply Z.ltb_ge in E].
Qed.

Lemma Zsum_cons x l : Zsum (x :: l) = x + Zsum l.
Proof. reflexivity. Qed.

Lemma Zsum_shares (R V : Z) (a : Address -> Z) (order : list Address) :
  0 <= R -> 0 < V -> (forall k, 0 <= a k) ->
  0 <= Zsum ((fun k => R * a k / V) <$> order) /\
  V * Zsum ((fun k => R * a k / V) <$> order) <= R * Zsum (a <$> order).
Proof.
  intros HR HV Ha. induction order as [| k order [IH0 IH]]; [simpl; lia |].
  rewrite !fmap_cons, !Zsum_cons.
  pose proof (Z.div_mod (R * a k) V ltac:(lia)) as Hdm.
  pose proof (Z.mod_pos_bound (R * a k) V HV) as Hmb.
  assert (0 <= R * a k / V) by (apply Z.div_pos; [specialize (Ha k); nia | lia]).
  split; [lia | nia].
Qed.

Lemma Zsum_pointwise (f g e : Address -> Z) (order : list Address) :
  (forall k, g k = f k + e k) ->
  Zsum (g <$> order) = Zsum (f <$> order) + Zsum (e <$> order).
Proof.
  intros H. induction order as [| k order IH]; [done |].
  rewrite !fmap_cons, !Zsum_cons, H, IH. lia.
Qed.

(** X17: what [DistributeBlockReward] pays out, the commission plus the
    shares credited to the delegators, never exceeds the block reward plus
    the fees, provided the commission rate is at most 10000 basis points, the
    fees and the delegated amounts are not negative, and the delegators do
    not hold more than the validator's voting power; the rounding of each
    share is kept, not redistributed. *)
Theorem DistributeBlockReward_pays_at_most (d : DPoS) (validatorAddr : Address)
    (blockNumber txFees : Z) (order : list Address) (v : Validator) :
  validators d !! validatorAddr = Some v ->
  range_order (delegations d) order ->
  0 <= Commission v <= 10000 -> 0 <= txFees ->
  (forall k dg, inner d k !! validatorAddr = Some dg -> 0 <= del_Amount dg) ->
  delegated_to d validatorAddr order <= VotingPower v ->
  let d' := snd (DistributeBlockReward validatorAddr blockNumber txFees order d) in
  let total := CalculateBlockReward blockNumber + txFees in
  exists v',
    validators d' !! validatorAddr = Some v' /\
    0 <= TotalRewards v' - TotalRewards v <= total /\
    0 <= rewards_of d' validatorAddr order - rewards_of d validatorAddr order /\
    (TotalRewards v' - TotalRewards v)
    + (rewards_of d' validatorAddr order - rewards_of d validatorAddr order) <= total.
Proof.
  intros Hv Hro Hc Hf Hamt Hsum d' total.
  destruct (DistributeBlockReward_effect d validatorAddr blockNumber txFees order v Hv Hro)
    as (d1 & Hrun & Hv1 & Hd1 & _).
  assert (d' = d1) as -> by (subst d'; by rewrite Hrun).
  fold total in Hv1, Hd1.
  pose proof (CalculateBlockReward_min blockNumber) as Hmin.
  assert (0 <= total) as Ht by (subst total; lia).
  set (commission := CalculateCommission v total) in *.
  assert (0 <= commission <= total) as Hcom.
  { subst commission. unfold CalculateCommission. rewrite to_int64_small by lia.
    split.
    - apply Z.div_pos; nia.
    - apply Z.div_le_upper_bound; nia. }
  exists (set_TotalRewards v (TotalRewards v + commission)).
  split; [by rewrite Hv1, lookup_insert_eq |]. simpl.
  split; [lia |].
  destruct (0 <? VotingPower v) eqn:Hp.
  2:{ assert (rewards_of d1 validatorAddr order = rewards_of d validatorAddr order) as ->.
      { unfold rewards_of, inner. by rewrite Hd1. }
      lia. }
  apply Z.ltb_lt in Hp.
  set (a := fun k => default 0 (del_Amount <$> inner d k !! validatorAddr)).
  assert (forall k, 0 <= a k) as Ha.
  { intros k. subst a. simpl. destruct (inner d k !! validatorAddr) as [dg |] eqn:E; simpl;
      [by eapply Hamt | done]. }
  assert (rewards_of d1 validatorAddr order
          = rewards_of d validatorAddr order
            + Zsum ((fun k => (total - commission) * a k / VotingPower v) <$> order)) as Hrew.
  { unfold rewards_of. apply Zsum_pointwise. intros k. subst a. simpl.
    unfold inner. rewrite Hd1, lookup_fmap.
    destruct (delegations d !! k) as [m |] eqn:Em; simpl.
    - unfold credit_share. destruct (m !! validatorAddr) as [dg |] eqn:Edg; simpl.
      + rewrite lookup_insert_eq. simpl. done.
      + rewrite Edg. simpl. by rewrite Z.mul_0_r, Z.div_0_l by lia.
    - rewrite lookup_empty. simpl. by rewrite Z.mul_0_r, Z.div_0_l by lia. }
  destruct (Zsum_shares (total - commission) (VotingPower v) a order) as [H0 Hle];
    [lia | done | done |].
  change (delegated_to d validatorAddr order) with (Zsum (a <$> order)) in Hsum.
  set (S := Zsum ((fun k => (total - commission) * a k / VotingPower v) <$> order)) in *.
  set (A := Zsum (a <$> order)) in *.
  rewrite Hrew. split; [lia |].
  assert (S <= total - commission); [| lia].
  assert (VotingPower v * S <= (total - commission) * VotingPower v) by nia.
  nia.
Qed.

Lemma DistributeBlockReward_pays_at_most_witness :
  exists v',
    validators scenarios.rewarded_engine !! scenarios.val1 = Some v' /\
    (TotalRewards v' - 0)
    + (rewards_of scenarios.rewarded_engine scenarios.val1 [scenarios.alice]
       - rewards_of scenarios.staked_engine scenarios.val1 [scenarios.alice])
    <= 2 * 10 ^ 18.
Proof.
  destruct (DistributeBlockReward_pays_at_most scenarios.staked_engine scenarios.val1 1 0
              [scenarios.alice]
              (AddVotingPower (scenarios.validator_with scenarios.val1 (10 ^ 23))
                 (2 * 10 ^ 19)))
    as (v' & Hv' & _ & _ & Hle).
  - vm_compute. reflexivity.
  - split; [by apply (bool_decide_unpack _) |].
    apply (bool_decide_unpack _). vm_compute. reflexivity.
  - vm_compute. split; discriminate.
  - reflexivity.
  - intros k dg H. unfold inner in H.
    destruct (decide (k = scenarios.alice)) as [-> | Hne].
    + vm_compute in H. injection H as <-. vm_compute. discriminate.
    + assert (delegations scenarios.staked_engine !! k = None) as Hn.
      { change (delegations scenarios.staked_engine) with
          (<[scenarios.alice :=
               <[scenarios.val1 := NewDelegation scenarios.alice scenarios.val1 (2 * ToWei 10)]>
                 (∅ : gmap Address Delegation)]>
             (∅ : gmap Address (gmap Address Delegation))).
        rewrite lookup_insert_ne by done. apply lookup_empty. }
      rewrite Hn in H. cbn [default] in H. rewrite lookup_empty in H. discriminate H.
  - vm_compute. discriminate.
  - exists v'. split; [exact Hv' |]. exact Hle.
Defined.

(** X18: [ClaimRewards] pays out exactly the rewards the delegation has
    accumulated, which are not zero, resets them to zero without touching
    the delegated amount or any validator, and a second claim right after it
    fails with "no rewards to claim" and changes nothing. *)
Theorem ClaimRewards_once (d d' : DPoS) (delegatorAddr validatorAddr : Address) (r : Z) :
  ClaimRewards delegatorAddr validatorAddr d = (Ok r, d') ->
  r <> 0 /\
  (exists dg, inner d delegatorAddr !! validatorAddr = Some dg /\
              r = del_Rewards dg /\
              inner d' delegatorAddr !! validatorAddr = Some (set_Rewards dg 0)) /\
  validators d' = validators d /\
  ClaimRewards delegatorAddr validatorAddr d' = (Err "no rewards to claim", d').
Proof.
  unfold ClaimRewards, bind, GetDelegation, inner. intros H.
  destruct (delegations d !! delegatorAddr) as [ds |] eqn:Hds; [| done].
  destruct (ds !! validatorAddr) as [dg |] eqn:Hdg; [| done].
  destruct (del_Rewards dg =? 0) eqn:Hz; [done |].
  apply Z.eqb_neq in Hz. unfold modify, ret in H. simplify_eq. simpl.
  rewrite Hds. simpl. rewrite !lookup_insert_eq. simpl. rewrite !lookup_insert_eq.
  split_and!; [done | | done | done].
  exists dg. by rewrite Hdg.
Qed.

Lemma ClaimRewards_once_witness :
  fst (ClaimRewards scenarios.alice scenarios.val1 scenarios.rewarded_engine)
  = Ok (18 * 10 ^ 17 * (2 * 10 ^ 19) / (10 ^ 23 + 2 * 10 ^ 19)) /\
  fst (ClaimRewards scenarios.alice scenarios.val1
         (snd (ClaimRewards scenarios.alice scenarios.val1 scenarios.rewarded_engine)))
  = Err "no rewards to claim".
Proof.
  destruct (ClaimRewards_once scenarios.rewarded_engine
              (snd (ClaimRewards scenarios.alice scenarios.val1 scenarios.rewarded_engine))
              scenarios.alice scenarios.val1
              (18 * 10 ^ 17 * (2 * 10 ^ 19) / (10 ^ 23 + 2 * 10 ^ 19)))
    as (_ & _ & _ & H2).
  - vm_compute. reflexivity.
  - split; [vm_compute; reflexivity | by rewrite H2].
Defined.
End rewards.

(** ** Blocks: gas accounting while a block is filled *)

Section blocks.
Import types core.

Lemma AddTransaction_step (tx : Transaction) (b : Block) :
  0 <= GasUsed (Header b) <= hdr_GasLimit (Header b) ->
  let r := AddTransaction tx b in
  0 <= GasUsed (Header (fst r)) <= hdr_GasLimit (Header (fst r)) /\
  hdr_GasLimit (Header (fst r)) = hdr_GasLimit (Header b) /\
  (snd r = false -> fst r = b) /\
  (snd r = true ->
     Transactions (fst r) = (Transactions b ++ [tx])%list /\
     GasUsed (Header (fst r)) = u64 (GasUsed (Header b) + GasLimit tx)).
Proof.
  intros Hb. cbv zeta. unfold AddTransaction.
  destruct (hdr_GasLimit (Header b) <? u64 (GasUsed (Header b) + GasLimit tx)) eqn:E; simpl.
  - split_and!; try done; lia.
  - apply Z.ltb_ge in E. split_and!; try done.
    unfold u64 in *. pose proof (Z.mod_pos_bound (GasUsed (Header b) + GasLimit tx) (2 ^ 64)).
    lia.
Qed.

(** X19: filling a block keeps [GasUsed] within the block's gas limit, takes
    the accepted transactions in the order offered, after the ones already
    there, and collects as fees the sum of their gas prices (the price, not
    price times gas); when no offered gas limit can overflow the [uint64]
    sum, [GasUsed] grows by exactly the gas limits of the accepted ones. *)
Theorem fill_block_accounting (txs : list Transaction) (b : Block) (fees : Z) :
  0 <= GasUsed (Header b) <= hdr_GasLimit (Header b) ->
  hdr_GasLimit (Header b) < 2 ^ 64 ->
  let r := fill_block txs b fees in
  exists included,
    Transactions (fst r) = (Transactions b ++ included)%list /\
    sublist included txs /\
    snd r = fees + foldr Z.add 0 (GasPrice <$> included) /\
    0 <= GasUsed (Header (fst r)) <= hdr_GasLimit (Header (fst r)) /\
    hdr_GasLimit (Header (fst r)) = hdr_GasLimit (Header b) /\
    (Forall (fun tx => 0 <= GasLimit tx < 2 ^ 64 - hdr_GasLimit (Header b)) txs ->
       GasUsed (Header (fst r))
       = GasUsed (Header b) + foldr Z.add 0 (GasLimit <$> included)).
Proof.
  cbv zeta. revert b fees. induction txs as [| tx txs IH]; intros b fees Hb Hlim; simpl.
  - exists []. rewrite app_nil_r. simpl. split_and!; try done; try lia.
  - pose proof (AddTransaction_step tx b Hb) as (Hb1 & Hl1 & Hrej & Hacc).
    destruct (AddTransaction tx b) as [b1 added] eqn:Hadd. simpl in *.
    destruct added.
    + destruct Hacc as [Htx Hgas]; [done |].
      destruct (IH b1 (fees + GasPrice tx) Hb1 ltac:(lia))
        as (inc & Ht & Hsub & Hfee & Hb' & Hl' & Hexact).
      exists (tx :: inc).
      split_and!; [by rewrite Ht, Htx, <- app_assoc | by constructor
                  | rewrite Hfee, fmap_cons; cbn [foldr]; lia | lia | lia | lia |].
      intros Hall. inversion Hall as [| ? ? Hhd Htl]; subst.
      rewrite Hexact by (by rewrite Hl1).
      rewrite Hgas, u64_small, fmap_cons by lia. cbn [foldr]. lia.
    + rewrite (Hrej eq_refl) in *.
      destruct (IH b fees Hb Hlim) as (inc & Ht & Hsub & Hfee & Hb' & Hl' & Hexact).
      exists inc.
      split_and!; [done | by constructor | done | lia | lia | done |].
      intros Hall. inversion Hall; subst. by apply Hexact.
Qed.

(** X20: a transaction whose gas limit makes the [uint64] sum
    [GasUsed + GasLimit] overflow is always accepted, and [GasUsed] goes
    down instead of up. *)
Theorem AddTransaction_gas_overflow (tx : Transaction) (b : Block) :
  0 <= GasUsed (Header b) <= hdr_GasLimit (Header b) ->
  hdr_GasLimit (Header b) < 2 ^ 64 ->
  0 <= GasLimit tx < 2 ^ 64 ->
  2 ^ 64 <= GasUsed (Header b) + GasLimit tx ->
  snd (AddTransaction tx b) = true /\
  GasUsed (Header (fst (AddTransaction tx b)))
  = GasUsed (Header b) + GasLimit tx - 2 ^ 64 /\
  GasUsed (Header (fst (AddTransaction tx b))) < GasUsed (Header b).
Proof.
  intros Hb Hlim Hg Hov. unfold AddTransaction.
  assert (u64 (GasUsed (Header b) + GasLimit tx)
          = GasUsed (Header b) + GasLimit tx - 2 ^ 64) as Hw.
  { unfold u64.
    replace (GasUsed (Header b) + GasLimit tx)
      with (GasUsed (Header b) + GasLimit tx - 2 ^ 64 + 1 * 2 ^ 64) at 1 by lia.
    rewrite Z.mod_add by lia. apply Z.mod_small. lia. }
  rewrite Hw.
  assert ((hdr_GasLimit (Header b) <? GasUsed (Header b) + GasLimit tx - 2 ^ 64) = false)
    as -> by (apply Z.ltb_ge; lia).
  simpl. split_and!; [done | done | lia].
Qed.

Lemma fill_block_accounting_witness :
  let r := fill_block [scenarios.pay_bob; scenarios.pay_bob_stale] scenarios.block1 0 in
  Transactions (fst r) = [scenarios.pay_bob; scenarios.pay_bob_stale] /\
  GasUsed (Header (fst r)) = 42000 /\ snd r = 2.
Proof.
  destruct (fill_block_accounting [scenarios.pay_bob; scenarios.pay_bob_stale]
              scenarios.block1 0) as (inc & Ht & _ & Hfee & _ & _ & Hgas).
  - vm_compute. split; discriminate.
  - reflexivity.
  - cbv zeta. vm_compute in Ht. subst inc.
    split_and!; [vm_compute; reflexivity | | exact Hfee].
    rewrite Hgas; [reflexivity |].
    repeat constructor; vm_compute; try discriminate; reflexivity.
Defined.

Lemma AddTransaction_gas_overflow_witness :
  let b := fst (AddTransaction scenarios.pay_bob scenarios.block1) in
  GasUsed (Header b) = 21000 /\
  snd (AddTransaction scenarios.greedy b) = true /\
  GasUsed (Header (fst (AddTransaction scenarios.greedy b))) = 20999.
Proof.
  cbv zeta.
  destruct (AddTransaction_gas_overflow scenarios.greedy
              (fst (AddTransaction scenarios.pay_bob scenarios.block1)))
    as (Hacc & Hgas & _).
  - vm_compute. split; discriminate.
  - reflexivity.
  - vm_compute. split; [discriminate | reflexivity].
  - vm_compute. discriminate.
  - split_and!; [reflexivity | exact Hacc | rewrite Hgas; reflexivity].
Defined.
End blocks.

(** ** Validator manager *)

Section manager.
Import types consensus.

Lemma registry_sound_insert d k v :
  registry_sound d -> val_Address v = k -> Commission v <= 10000 ->
  ToWei MinStakeAmount <= SelfStake v ->
  registry_sound (set_validators d (<[k := v]> (validators d))).
Proof.
  intros Hd Hk Hc Hs. unfold registry_sound. simpl. by apply map_Forall_insert_2.
Qed.

Lemma run_manager_op_sound op d : registry_sound d -> registry_sound (snd (run_manager_op op d)).
Proof.
  intros Hd.
  destruct op as [address pubKey selfStake commission | address commission
                 | address | address]; simpl.
  - unfold CreateValidator.
    destruct (10000 <? commission) eqn:Hc; [done |].
    destruct (selfStake <? ToWei MinStakeAmount) eqn:Hs; [done |].
    apply Z.ltb_ge in Hc, Hs. unfold RegisterValidator. simpl.
    case_bool_decide; [done |].
    destruct (selfStake <? ToWei MinStakeAmount); [done |]. simpl.
    by apply registry_sound_insert.
  - unfold EditValidator, bind, GetValidator.
    destruct (validators d !! address) as [v |] eqn:Hv; [| done].
    destruct commission as [c |]; [| done].
    destruct (10000 <? c) eqn:Hc; [done |]. apply Z.ltb_ge in Hc. simpl.
    destruct (Hd _ _ Hv) as (Ha & _ & Hs). by apply registry_sound_insert.
  - unfold JailValidator, bind, GetValidator.
    destruct (validators d !! address) as [v |] eqn:Hv; [| done].
    destruct (Jailed v); [done |]. simpl.
    destruct (Hd _ _ Hv) as (Ha & Hc & Hs). by apply registry_sound_insert.
  - unfold IncrementMissedBlocks, bind, GetValidator.
    destruct (validators d !! address) as [v |] eqn:Hv; [| done].
    destruct (Hd _ _ Hv) as (Ha & Hc & Hs). unfold modify. cbn [fst snd].
    assert (registry_sound
              (set_validators d
                 (<[address := set_MissedBlocks v (u64 (MissedBlocks v + 1))]> (validators d))))
      as Hd1 by by apply registry_sound_insert.
    destruct ((missedBlockThreshold <=? MissedBlocks
                 (set_MissedBlocks v (u64 (MissedBlocks v + 1))))
              && negb (Jailed (set_MissedBlocks v (u64 (MissedBlocks v + 1))))); [| done].
    unfold JailValidator, bind, GetValidator. cbn [validators set_validators].
    rewrite lookup_insert_eq. cbn [Jailed set_MissedBlocks].
    destruct (Jailed v); [done |]. simpl.
    rewrite insert_insert_eq.
    by apply (registry_sound_insert d).
Qed.

(** X21: the validator manager keeps the registry sound: after any sequence
    of [CreateValidator], [EditValidator], [JailValidator] and
    [IncrementMissedBlocks] calls, whatever each returned, every validator is
    still registered under its own address with a commission of at most
    10000 basis points and a self-stake of at least [10^23]. *)
Theorem manager_keeps_registry_sound (ops : list ManagerOp) (d : DPoS) :
  registry_sound d -> registry_sound (run_manager_ops ops d).
Proof.
  revert d. induction ops as [| op ops IH]; intros d Hd; simpl; [done |].
  by apply IH, run_manager_op_sound.
Qed.

Lemma manager_keeps_registry_sound_witness :
  registry_sound (run_manager_ops scenarios.manager_ops scenarios.ranked).
Proof.
  apply (manager_keeps_registry_sound scenarios.manager_ops scenarios.ranked).
  unfold registry_sound. apply (bool_decide_unpack _). vm_compute. reflexivity.
Defined.

(** X22: [IncrementMissedBlocks] counts, and jails at the hundredth miss:
    on a validator that starts unjailed with no missed block, every one of
    [n] consecutive calls succeeds, the counter then reads [n], and the
    validator is jailed exactly when [n >= 100]; its voting power is not
    touched. *)
Theorem IncrementMissedBlocks_jails_at_100 (d : DPoS) (address : Address) (v : Validator)
    (n : nat) :
  validators d !! address = Some v -> MissedBlocks v = 0 -> Jailed v = false ->
  Z.of_nat n < 2 ^ 64 ->
  let d' := Nat.iter n (fun d => snd (IncrementMissedBlocks address d)) d in
  exists v',
    validators d' !! address = Some v' /\
    MissedBlocks v' = Z.of_nat n /\
    Jailed v' = bool_decide (100 <= Z.of_nat n) /\
    Status v' = (if bool_decide (100 <= Z.of_nat n) then ValidatorStatusJailed else Status v) /\
    VotingPower v' = VotingPower v /\
    (forall m, (m < n)%nat ->
       fst (IncrementMissedBlocks address
              (Nat.iter m (fun d => snd (IncrementMissedBlocks address d)) d)) = Ok tt).
Proof.
  intros Hv Hm Hj. cbv zeta. induction n as [| n IH]; intros Hn.
  - exists v. change (Z.of_nat 0) with 0. rewrite !bool_decide_eq_false_2 by lia.
    cbn [Nat.iter nat_rect]. split_and!; try done. intros m Hlt. lia.
  - destruct IH as (vn & Hvn & Hmn & Hjn & Hsn & Hpn & Hok); [lia |].
    rewrite Nat.iter_succ.
    set (dn := Nat.iter n (fun d => snd (IncrementMissedBlocks address d)) d) in *.
    assert (u64 (MissedBlocks vn + 1) = Z.of_nat (S n)) as Hu
      by (rewrite u64_small; lia).
    assert (exists v',
              IncrementMissedBlocks address dn
              = (Ok tt, set_validators dn (<[address := v']> (validators dn))) /\
              MissedBlocks v' = Z.of_nat (S n) /\
              Jailed v' = bool_decide (100 <= Z.of_nat (S n)) /\
              Status v' = (if bool_decide (100 <= Z.of_nat (S n))
                           then ValidatorStatusJailed else Status v) /\
              VotingPower v' = VotingPower v) as (v' & Hrun & Hm' & Hj' & Hs' & Hp').
    { unfold IncrementMissedBlocks, bind, GetValidator, modify.
      rewrite Hvn. cbn [fst snd MissedBlocks Jailed set_MissedBlocks]. rewrite Hu.
      unfold missedBlockThreshold.
      destruct (100 <=? Z.of_nat (S n)) eqn:H100; cbn [andb].
      - apply Z.leb_le in H100. rewrite Hjn.
        destruct (bool_decide (100 <= Z.of_nat n)) eqn:Hprev; cbn [negb].
        + eexists. split; [reflexivity |]. simpl.
          rewrite bool_decide_eq_true_2 by lia.
          rewrite Hsn. split_and!; done.
        + unfold JailValidator, bind, GetValidator, modify.
          cbn [validators set_validators]. rewrite lookup_insert_eq.
          cbn [Jailed set_MissedBlocks]. rewrite Hjn.
          exists (set_Jailed (set_MissedBlocks vn (Z.of_nat (S n)))).
          split; [cbn [validators set_validators]; by rewrite insert_insert_eq |]. simpl.
          rewrite bool_decide_eq_true_2 by lia. split_and!; done.
      - apply Z.leb_gt in H100. eexists. split; [reflexivity |]. simpl.
        rewrite bool_decide_eq_false_2 by lia.
        rewrite Hsn, Hjn. rewrite !bool_decide_eq_false_2 by lia. split_and!; done. }
    exists v'. rewrite Hrun. simpl. rewrite lookup_insert_eq.
    split_and!; try done.
    intros m Hlt. destruct (decide (m = n)) as [-> | Hne].
    + fold dn. by rewrite Hrun.
    + apply Hok. lia.
Qed.

Lemma IncrementMissedBlocks_jails_at_100_witness :
  exists v99 v100,
    validators (Nat.iter 99 (fun d => snd (IncrementMissedBlocks scenarios.val1 d))
                  scenarios.ranked) !! scenarios.val1 = Some v99 /\
    validators (Nat.iter 100 (fun d => snd (IncrementMissedBlocks scenarios.val1 d))
                  scenarios.ranked) !! scenarios.val1 = Some v100 /\
    Jailed v99 = false /\ Jailed v100 = true.
Proof.
  destruct (IncrementMissedBlocks_jails_at_100 scenarios.ranked scenarios.val1
              (scenarios.validator_with scenarios.val1 scenarios.min_power) 99)
    as (v99 & H99 & _ & Hj99 & _); [vm_compute; reflexivity | reflexivity | reflexivity
                                   | reflexivity |].
  destruct (IncrementMissedBlocks_jails_at_100 scenarios.ranked scenarios.val1
              (scenarios.validator_with scenarios.val1 scenarios.min_power) 100)
    as (v100 & H100 & _ & Hj100 & _); [vm_compute; reflexivity | reflexivity | reflexivity
                                      | reflexivity |].
  exists v99, v100. split_and!; [exact H99 | exact H100 | exact Hj99 | exact Hj100].
Defined.
End manager.

(** ** Mempool: the index, the heap and the capacity *)

Section heap_facts.
Import goruntime.
Context {A : Type} (less : A -> A -> bool).

Lemma Swap_length (h : list A) (i j : nat) : length (Swap h i j) = length h.
Proof. unfold Swap. repeat case_match; by rewrite ?length_insert. Qed.

Lemma Swap_lookup_ne (h : list A) (i j k : nat) :
  k <> i -> k <> j -> Swap h i j !! k = h !! k.
Proof.
  intros Hi Hj. unfold Swap. repeat case_match; try done.
  by rewrite !list_lookup_insert_ne.
Qed.

Lemma Swap_lookup_l (h : list A) (i j : nat) :
  (i < length h)%nat -> (j < length h)%nat -> Swap h i j !! i = h !! j.
Proof.
  intros Hi Hj. unfold Swap.
  destruct (lookup_lt_is_Some_2 h i Hi) as [a Ha].
  destruct (lookup_lt_is_Some_2 h j Hj) as [b Hb].
  rewrite Ha, Hb. rewrite list_lookup_insert_eq by (by rewrite length_insert).
  done.
Qed.

Lemma Swap_lookup_r (h : list A) (i j : nat) :
  (i < length h)%nat -> (j < length h)%nat -> Swap h i j !! j = h !! i.
Proof.
  intros Hi Hj. unfold Swap.
  destruct (lookup_lt_is_Some_2 h i Hi) as [a Ha].
  destruct (lookup_lt_is_Some_2 h j Hj) as [b Hb].
  rewrite Ha, Hb. destruct (decide (i = j)) as [-> | Hne].
  - rewrite list_lookup_insert_eq by (by rewrite length_insert). congruence.
  - rewrite list_lookup_insert_ne by done. by rewrite list_lookup_insert_eq.
Qed.

Lemma Swap_Permutation (h : list A) (i j : nat) : Swap h i j ≡ₚ h.
Proof.
  destruct (decide (i < length h)%nat) as [Hi |];
    [| unfold Swap; by rewrite (lookup_ge_None_2 h i) by lia].
  destruct (decide (j < length h)%nat) as [Hj |];
    [| unfold Swap; rewrite (lookup_ge_None_2 h j) by lia; by case_match].
  apply Permutation_inj. split; [apply Swap_length |].
  exists (fun k => if decide (k = i) then j else if decide (k = j) then i else k).
  split.
  - intros x y. repeat case_decide; lia.
  - intros k. repeat case_decide; subst.
    + by apply Swap_lookup_l.
    + by apply Swap_lookup_r.
    + by apply Swap_lookup_ne.
Qed.

Lemma up_loop_Permutation (fuel : nat) (h : list A) (j : nat) :
  up_loop less fuel h j ≡ₚ h.
Proof.
  revert h j. induction fuel as [| fuel IH]; intros h j; [done |].
  cbn [up_loop]. cbv zeta. case_match; [done |].
  rewrite IH. apply Swap_Permutation.
Qed.

Lemma down_loop_Permutation (fuel : nat) (h : list A) (i n : nat) :
  down_loop less fuel h i n ≡ₚ h.
Proof.
  revert h i. induction fuel as [| fuel IH]; intros h i; [done |].
  cbn [down_loop]. cbv zeta. repeat case_match; try done.
  all: rewrite IH; apply Swap_Permutation.
Qed.

Lemma up_loop_length (fuel : nat) (h : list A) (j : nat) :
  length (up_loop less fuel h j) = length h.
Proof. apply Permutation_length, up_loop_Permutation. Qed.

Lemma down_loop_length (fuel : nat) (h : list A) (i n : nat) :
  length (down_loop less fuel h i n) = length h.
Proof. apply Permutation_length, down_loop_Permutation. Qed.

(** Sifting down inside the first [n] slots leaves the others alone. *)
Lemma down_loop_lookup_ge (fuel : nat) (h : list A) (i n k : nat) :
  (n <= k)%nat -> down_loop less fuel h i n !! k = h !! k.
Proof.
  intros Hk. revert h i. induction fuel as [| fuel IH]; intros h i; [done |].
  cbn [down_loop]. cbv zeta. case_bool_decide as Hn; [done |].
  case_match; [done |]. rewrite IH.
  apply Swap_lookup_ne; [lia |]. case_match; [| lia].
  apply andb_true_iff in H0 as [Hj2%bool_decide_eq_true _]. lia.
Qed.

Lemma heap_Push_Permutation (h : list A) (x : A) : heap_Push less h x ≡ₚ x :: h.
Proof.
  unfold heap_Push, up. cbv zeta. rewrite up_loop_Permutation.
  by rewrite Permutation_app_comm.
Qed.

(** [heap.Pop] hands out the element in slot 0 and keeps the others. *)
Lemma heap_Pop_root (x : A) (l : list A) :
  exists rest, heap_Pop less (x :: l) = Some (x, rest) /\ rest ≡ₚ l.
Proof.
  unfold heap_Pop, down. cbv zeta. cbn [length]. rewrite Nat.sub_1_r, Nat.pred_succ.
  set (n := length l).
  set (h1 := Swap (x :: l) 0 n).
  set (h2 := down_loop less n h1 0 n).
  assert (length h2 = S n) as Hlen
    by (unfold h2, h1; by rewrite down_loop_length, Swap_length).
  assert (h2 !! n = Some x) as Hn.
  { unfold h2. rewrite down_loop_lookup_ge by done. unfold h1.
    rewrite Swap_lookup_r by (cbn [length]; lia). done. }
  assert (last h2 = Some x) as ->
    by (rewrite last_lookup, Hlen; exact Hn).
  eexists. split; [reflexivity |].
  assert (h2 ≡ₚ x :: l) as Hperm
    by (unfold h2, h1; by rewrite down_loop_Permutation, Swap_Permutation).
  rewrite <- (take_drop n h2) in Hperm.
  rewrite (drop_S _ _ _ Hn), drop_ge in Hperm by lia.
  rewrite Permutation_app_comm in Hperm. cbn [app] in Hperm.
  by apply (inj (cons x)) in Hperm.
Qed.
End heap_facts.

Section heap_order_facts.
Import goruntime.
Context {A : Type} (less : A -> A -> bool).
Hypothesis less_asym : forall a b, less a b = true -> less b a = false.
Hypothesis less_negtrans :
  forall a b c, less a b = false -> less b c = false -> less a c = false.

Lemma parent_children (k i : nat) :
  (0 < k)%nat -> parent k = i <-> k = (2 * i + 1)%nat \/ k = (2 * i + 2)%nat.
Proof.
  intros Hk. unfold parent.
  pose proof (Nat.div_mod_eq (k - 1) 2). pose proof (Nat.mod_upper_bound (k - 1) 2).
  lia.
Qed.

Lemma parent_lt (k : nat) : (0 < k)%nat -> (parent k < k)%nat.
Proof.
  intros Hk. destruct (proj1 (parent_children k (parent k) Hk) eq_refl); lia.
Qed.

Lemma up_parent (j : nat) : Z.to_nat (Z.quot (Z.of_nat j - 1) 2) = parent j.
Proof.
  unfold parent. destruct j as [| j]; [done |].
  rewrite Z.quot_div_nonneg by lia.
  replace (Z.of_nat (S j) - 1) with (Z.of_nat (S j - 1)) by lia.
  change 2 with (Z.of_nat 2). by rewrite <- Nat2Z.inj_div, Nat2Z.id.
Qed.

Lemma Swap_lookup (h : list A) (i j k : nat) :
  (i < length h)%nat -> (j < length h)%nat ->
  Swap h i j !! k = h !! swapped i j k.
Proof.
  intros Hi Hj. unfold swapped. repeat case_decide; subst.
  - by apply Swap_lookup_l.
  - by apply Swap_lookup_r.
  - by apply Swap_lookup_ne.
Qed.

Lemma Less_Swap (h : list A) (i j a b : nat) :
  (i < length h)%nat -> (j < length h)%nat ->
  Less less (Swap h i j) a b = Less less h (swapped i j a) (swapped i j b).
Proof. intros Hi Hj. unfold Less. by rewrite !Swap_lookup. Qed.

Lemma Less_asym (h : list A) (a b : nat) :
  Less less h a b = true -> Less less h b a = false.
Proof. unfold Less. repeat case_match; try done. apply less_asym. Qed.

Lemma Less_negtrans (h : list A) (a b c : nat) :
  (b < length h)%nat ->
  Less less h a b = false -> Less less h b c = false -> Less less h a c = false.
Proof.
  intros Hb. destruct (lookup_lt_is_Some_2 h b Hb) as [y Hy].
  unfold Less. rewrite Hy. repeat case_match; try done. apply less_negtrans.
Qed.

Lemma Less_lt (h : list A) (a b : nat) :
  Less less h a b = true -> (a < length h)%nat /\ (b < length h)%nat.
Proof.
  unfold Less. destruct (h !! a) eqn:Ha; [| done]. destruct (h !! b) eqn:Hb; [| done].
  intros _. split; by eapply lookup_lt_Some.
Qed.

Lemma up_loop_ordered (fuel : nat) (h : list A) (j n : nat) :
  (j < fuel)%nat -> (j < n <= length h)%nat -> up_inv less n h j ->
  heap_ordered_upto less n (up_loop less fuel h j).
Proof.
  revert h j. induction fuel as [| fuel IH]; intros h j Hfuel Hj [Hinv1 Hinv2]; [lia |].
  cbn [up_loop]. cbv zeta. rewrite up_parent.
  case_bool_decide as Hroot; cbn [orb].
  { intros k Hk. apply Hinv1; [done |].
    destruct (decide (0 < j)%nat) as [Hpos |]; [| lia].
    pose proof (parent_lt j Hpos). lia. }
  destruct (Less less h j (parent j)) eqn:Hless; cbn [negb];
    [| intros k Hk; destruct (decide (k = j)) as [-> |]; [done | by apply Hinv1]].
  assert (0 < j)%nat as Hpos by (destruct j; [done | lia]).
  pose proof (parent_lt j Hpos) as Hpj.
  set (i := parent j) in *.
  pose proof (Less_asym _ _ _ Hless) as Hij.
  apply IH; [lia | rewrite Swap_length; lia |].
  split; intros k Hk.
  - intros Hki. rewrite Less_Swap by lia. unfold swapped.
    destruct (decide (k = i)) as [| _]; [done |].
    destruct (decide (k = j)) as [-> | Hkj].
    + fold i. rewrite decide_True by done. exact Hij.
    + destruct (decide (parent k = i)) as [Hp | Hp].
      * apply (Less_negtrans h k i j); [lia | rewrite <- Hp; by apply Hinv1 | exact Hij].
      * destruct (decide (parent k = j)) as [Hp' | Hp'].
        -- by apply Hinv2.
        -- by apply Hinv1.
  - intros Hp Hi. pose proof (parent_lt i Hi) as Hpi.
    rewrite Less_Swap by lia. unfold swapped.
    assert (i < k)%nat by (rewrite <- Hp; apply parent_lt; lia).
    destruct (decide (k = i)) as [| _]; [lia |].
    rewrite (decide_False (P := parent i = i)) by lia.
    rewrite (decide_False (P := parent i = j)) by lia.
    destruct (decide (k = j)) as [-> | Hkj].
    + apply Hinv1; lia.
    + apply (Less_negtrans h k i (parent i)); [lia | |].
      * rewrite <- Hp. by apply Hinv1.
      * apply Hinv1; lia.
Qed.

Lemma down_inv_Swap (n : nat) (h : list A) (i j : nat) :
  (n <= length h)%nat -> (0 < j < n)%nat -> parent j = i ->
  down_inv less n h i ->
  Less less h j i = true ->
  (forall k, (0 < k < n)%nat -> parent k = i -> k <> j -> Less less h k j = false) ->
  down_inv less n (Swap h i j) j.
Proof.
  intros Hn Hj Hp [Hinv1 Hinv2] Hless Hsib.
  pose proof (parent_lt j (proj1 Hj)) as Hij. rewrite Hp in Hij.
  pose proof (Less_asym _ _ _ Hless) as Hasym.
  split; intros k Hk Hpk.
  - rewrite Less_Swap by lia. unfold swapped.
    destruct (decide (k = i)) as [-> | Hki].
    + pose proof (parent_lt i (proj1 Hk)).
      rewrite (decide_False (P := parent i = i)) by lia.
      rewrite (decide_False (P := parent i = j)) by lia.
      apply Hinv2; [lia | done | lia].
    + destruct (decide (k = j)) as [-> | Hkj].
      * rewrite Hp. rewrite decide_True by done. exact Hasym.
      * destruct (decide (parent k = i)) as [Hpi | Hpi]; [by apply Hsib |].
        rewrite decide_False by done. by apply Hinv1.
  - intros _. rewrite Less_Swap by lia. unfold swapped.
    assert (j < k)%nat by (rewrite <- Hpk; apply parent_lt; lia).
    rewrite (decide_False (P := k = i)) by lia.
    rewrite (decide_False (P := k = j)) by lia.
    rewrite Hp. rewrite decide_True by done.
    rewrite <- Hpk. apply Hinv1; [done | lia].
Qed.

Lemma down_loop_ordered (fuel : nat) (h : list A) (i n : nat) :
  (n <= length h)%nat -> (n <= fuel + i)%nat -> down_inv less n h i ->
  heap_ordered_upto less n (down_loop less fuel h i n).
Proof.
  revert h i. induction fuel as [| fuel IH]; intros h i Hn Hfuel [Hinv1 Hinv2].
  { intros k Hk. apply Hinv1; [done |]. pose proof (parent_lt k (proj1 Hk)). lia. }
  cbn [down_loop]. cbv zeta.
  case_bool_decide as Hj1.
  { intros k Hk. apply Hinv1; [done |]. intros Hp.
    apply parent_children in Hp; lia. }
  destruct (bool_decide (2 * i + 1 + 1 < n)%nat && Less less h (2 * i + 1 + 1) (2 * i + 1))
    eqn:Hpick.
  - apply andb_true_iff in Hpick as [Hj2%bool_decide_eq_true Hlt21].
    pose proof (Less_asym _ _ _ Hlt21) as Hlt12.
    destruct (Less less h (2 * i + 1 + 1) i) eqn:Hless; cbn [negb].
    + apply IH; [by rewrite Swap_length | lia |].
      apply down_inv_Swap; [done | lia | apply parent_children; lia | done | done |].
      intros k Hk Hp Hne. apply parent_children in Hp; [| lia].
      assert (k = (2 * i + 1)%nat) as -> by lia. exact Hlt12.
    + intros k Hk. destruct (decide (parent k = i)) as [Hp | Hp]; [| by apply Hinv1].
      rewrite Hp. apply parent_children in Hp; [| lia].
      destruct Hp as [-> | ->].
      * apply (Less_negtrans h _ (2 * i + 1 + 1)%nat); [lia | done | done].
      * by replace (2 * i + 2)%nat with (2 * i + 1 + 1)%nat by lia.
  - destruct (Less less h (2 * i + 1) i) eqn:Hless; cbn [negb].
    + apply IH; [by rewrite Swap_length | lia |].
      apply down_inv_Swap; [done | lia | apply parent_children; lia | done | done |].
      intros k Hk Hp Hne. apply parent_children in Hp; [| lia].
      assert (k = (2 * i + 1 + 1)%nat) as -> by lia.
      apply andb_false_iff in Hpick as [Hge%bool_decide_eq_false | Hlt]; [lia | done].
    + intros k Hk. destruct (decide (parent k = i)) as [Hp | Hp]; [| by apply Hinv1].
      rewrite Hp. apply parent_children in Hp; [| lia].
      destruct Hp as [-> | ->]; [done |].
      replace (2 * i + 2)%nat with (2 * i + 1 + 1)%nat by lia.
      apply andb_false_iff in Hpick as [Hge%bool_decide_eq_false | Hlt]; [lia |].
      apply (Less_negtrans h _ (2 * i + 1)%nat); [lia | done | done].
Qed.

Lemma heap_Push_ordered (h : list A) (x : A) :
  heap_ordered less h -> heap_ordered less (heap_Push less h x).
Proof.
  intros Hord. unfold heap_Push, up. cbv zeta.
  unfold heap_ordered. rewrite up_loop_length.
  rewrite length_app. cbn [length].
  apply up_loop_ordered; [lia | rewrite length_app; cbn [length]; lia |].
  replace (length h + 1 - 1)%nat with (length h) by lia.
  split; intros k Hk.
  - intros Hne. pose proof (parent_lt k (proj1 Hk)).
    unfold Less. rewrite !lookup_app_l by lia. apply Hord. lia.
  - intros Hp. pose proof (parent_lt k (proj1 Hk)). lia.
Qed.

Lemma heap_Pop_unfold (x : A) (l : list A) :
  heap_Pop less (x :: l)
  = Some (x, take (length l)
               (down_loop less (length l) (Swap (x :: l) 0 (length l)) 0 (length l))).
Proof.
  unfold heap_Pop, down. cbv zeta. cbn [length]. rewrite Nat.sub_1_r, Nat.pred_succ.
  set (n := length l).
  set (h2 := down_loop less n (Swap (x :: l) 0 n) 0 n).
  assert (length h2 = S n) as Hlen
    by (unfold h2; by rewrite down_loop_length, Swap_length).
  assert (h2 !! n = Some x) as Hn.
  { unfold h2. rewrite down_loop_lookup_ge by done.
    rewrite Swap_lookup_r by (cbn [length]; lia). done. }
  rewrite last_lookup, Hlen. cbn [Nat.pred]. by rewrite Hn.
Qed.

Lemma heap_Pop_ordered (x : A) (l rest : list A) (y : A) :
  heap_ordered less (x :: l) -> heap_Pop less (x :: l) = Some (y, rest) ->
  heap_ordered less rest.
Proof.
  intros Hord. rewrite heap_Pop_unfold. intros [= _ <-].
  set (n := length l).
  set (h1 := Swap (x :: l) 0 n).
  assert (heap_ordered_upto less n (down_loop less n h1 0 n)) as Hupto.
  { apply down_loop_ordered; [unfold h1; rewrite Swap_length; cbn [length]; lia | lia |].
    split; intros k Hk Hp; [| lia].
    pose proof (parent_lt k (proj1 Hk)).
    unfold h1. rewrite Less_Swap by (cbn [length]; lia). unfold swapped.
    rewrite (decide_False (P := k = 0%nat)) by lia.
    rewrite (decide_False (P := k = n)) by lia.
    rewrite (decide_False (P := parent k = 0%nat)) by lia.
    rewrite (decide_False (P := parent k = n)) by lia.
    apply Hord. cbn [length]. lia. }
  intros k Hk. rewrite length_take, down_loop_length in Hk.
  unfold h1 in Hk. rewrite Swap_length in Hk. cbn [length] in Hk.
  pose proof (parent_lt k (proj1 Hk)).
  unfold Less. rewrite !lookup_take_lt by lia. apply Hupto. lia.
Qed.

(** In an ordered heap no element is less than the root. *)
Lemma heap_ordered_root (h : list A) (k : nat) :
  heap_ordered less h -> Less less h k 0 = false.
Proof.
  intros Hord. induction (lt_wf k) as [k _ IH].
  destruct (decide (k < length h)%nat) as [Hk |];
    [| unfold Less; by rewrite (lookup_ge_None_2 h k) by lia].
  destruct (decide (k = 0)%nat) as [-> | Hpos].
  { destruct (Less less h 0 0) eqn:E; [| done]. pose proof (Less_asym _ _ _ E). congruence. }
  pose proof (parent_lt k ltac:(lia)) as Hp.
  apply (Less_negtrans h k (parent k)); [lia | apply Hord; lia | apply IH; lia].
Qed.


Lemma take_ordered (n : nat) (h : list A) :
  (n <= length h)%nat -> heap_ordered_upto less n h -> heap_ordered less (take n h).
Proof.
  intros Hn Hupto k Hk. rewrite length_take in Hk.
  pose proof (parent_lt k (proj1 Hk)).
  unfold Less. rewrite !lookup_take_lt by lia. apply Hupto. lia.
Qed.

Lemma up_loop_lookup_gt (fuel : nat) (h : list A) (j k : nat) :
  (j < k)%nat -> up_loop less fuel h j !! k = h !! k.
Proof.
  revert h j. induction fuel as [| fuel IH]; intros h j Hk; [done |].
  cbn [up_loop]. cbv zeta. rewrite up_parent. case_match; [done |].
  assert (parent j <= j)%nat.
  { destruct j; [done |]. pose proof (parent_lt (S j)). lia. }
  rewrite IH by lia. apply Swap_lookup_ne; lia.
Qed.

Lemma down_step (fuel : nat) (h : list A) (i n : nat) :
  (n <= length h)%nat ->
  (down_loop less (S fuel) h i n = h /\ down_stop less (S fuel) h i n = i /\
   settled less n h i) \/
  (exists j, (i < j < n)%nat /\ parent j = i /\ Less less h j i = true /\
             down_loop less (S fuel) h i n = down_loop less fuel (Swap h i j) j n /\
             down_stop less (S fuel) h i n = down_stop less fuel (Swap h i j) j n).
Proof.
  intros Hn. cbn [down_loop down_stop]. cbv zeta.
  case_bool_decide as Hj1.
  { left. split_and!; try done. intros k Hk Hp. apply parent_children in Hp; lia. }
  destruct (bool_decide (2 * i + 1 + 1 < n)%nat && Less less h (2 * i + 1 + 1) (2 * i + 1))
    eqn:Hpick.
  - apply andb_true_iff in Hpick as [Hj2%bool_decide_eq_true Hlt21].
    pose proof (Less_asym _ _ _ Hlt21) as Hlt12.
    destruct (Less less h (2 * i + 1 + 1) i) eqn:Hless; cbn [negb].
    + right. exists (2 * i + 1 + 1)%nat.
      split; [lia |]. split; [apply parent_children; lia |]. by split_and!.
    + left. split_and!; try done. intros k Hk Hp.
      apply parent_children in Hp; [| lia]. destruct Hp as [-> | ->].
      * apply (Less_negtrans h _ (2 * i + 1 + 1)%nat); [lia | done | done].
      * by replace (2 * i + 2)%nat with (2 * i + 1 + 1)%nat by lia.
  - destruct (Less less h (2 * i + 1) i) eqn:Hless; cbn [negb].
    + right. exists (2 * i + 1)%nat.
      split; [lia |]. split; [apply parent_children; lia |]. by split_and!.
    + left. split_and!; try done. intros k Hk Hp.
      apply parent_children in Hp; [| lia]. destruct Hp as [-> | ->]; [done |].
      replace (2 * i + 2)%nat with (2 * i + 1 + 1)%nat by lia.
      apply andb_false_iff in Hpick as [Hge%bool_decide_eq_false | Hlt]; [lia |].
      apply (Less_negtrans h _ (2 * i + 1)%nat); [lia | done | done].
Qed.

Lemma down_stop_ge (fuel : nat) (h : list A) (i n : nat) :
  (i <= down_stop less fuel h i n)%nat.
Proof.
  revert h i. induction fuel as [| fuel IH]; intros h i; [done |].
  cbn [down_stop]. cbv zeta. case_bool_decide; [done |].
  case_match; [done |].
  etrans; [| apply IH]. case_match; lia.
Qed.

(** Sifting the element put in slot [i] of an ordered heap, as
    [heap.Remove] and [heap.Fix] do: down, and up if it did not move. *)
Lemma fix_ordered (h : list A) (i n : nat) :
  (i < n <= length h)%nat ->
  (forall k, (0 < k < n)%nat -> k <> i -> parent k <> i ->
             Less less h k (parent k) = false) ->
  (forall k, (0 < k < n)%nat -> parent k = i -> (0 < i)%nat ->
             Less less h k (parent i) = false) ->
  heap_ordered_upto less n
    (if bool_decide (i < down_stop less n h i n)%nat then down less h i n
     else up less (down less h i n) i).
Proof.
  intros Hi Hrest Hgrand. unfold down, up.
  destruct n as [| fuel]; [lia |].
  destruct (down_step fuel h i (S fuel)) as
    [(Hsame & Hstop & Hsettled) | (j & Hj & Hpj & Hless & Hloop & Hstop)]; [lia | |].
  - rewrite Hstop, Hsame. rewrite bool_decide_eq_false_2 by lia.
    apply up_loop_ordered; [lia | lia |]. split.
    + intros k Hk Hne. destruct (decide (parent k = i)) as [Hp | Hp].
      * rewrite Hp. by apply Hsettled.
      * by apply Hrest.
    + done.
  - rewrite bool_decide_eq_true_2
      by (rewrite Hstop; pose proof (down_stop_ge fuel (Swap h i j) j (S fuel)); lia).
    apply down_loop_ordered; [lia | lia |]. split; [| done].
    intros k Hk Hp. destruct (decide (k = i)) as [-> | Hne]; [| by apply Hrest].
    destruct (Less less h i (parent i)) eqn:Hup; [| done].
    pose proof (parent_lt i (proj1 Hk)).
    apply Less_asym in Hup.
    assert (Less less h j i = false); [| congruence].
    apply (Less_negtrans h j (parent i)); [lia | | done].
    apply Hgrand; [lia | done | lia].
Qed.

(** [heap.Remove] hands out the element in slot [i], keeps the others, and
    keeps an ordered heap ordered. *)
Lemma heap_Remove_spec (h : list A) (i : nat) (x : A) :
  h !! i = Some x ->
  exists rest,
    heap_Remove less h i = Some (x, rest) /\ x :: rest ≡ₚ h /\
    (heap_ordered less h -> heap_ordered less rest).
Proof.
  intros Hx. pose proof (lookup_lt_Some _ _ _ Hx) as Hi.
  unfold heap_Remove. cbv zeta.
  set (n := (length h - 1)%nat).
  assert (length h = S n) as Hlen by lia.
  set (h2 := if bool_decide (n = i) then h else _).
  assert (length h2 = S n /\ h2 !! n = Some x /\ h2 ≡ₚ h /\
          (heap_ordered less h -> heap_ordered_upto less n h2))
    as (Hlen2 & Hlast & Hperm & Hord).
  { unfold h2. case_bool_decide as Hin.
    { subst i. split_and!; try done. intros Hord k Hk. apply Hord. lia. }
    set (h1 := Swap h i n).
    assert (length h1 = S n) as Hlen1 by (unfold h1; by rewrite Swap_length).
    assert (h1 !! n = Some x) as Hn1
      by (unfold h1; rewrite Swap_lookup_r by lia; done).
    split_and!.
    - case_match; unfold up, down;
        by rewrite ?up_loop_length, ?down_loop_length.
    - case_match; unfold up, down.
      + by rewrite down_loop_lookup_ge.
      + rewrite up_loop_lookup_gt by lia. by rewrite down_loop_lookup_ge.
    - case_match; unfold up, down;
        rewrite ?up_loop_Permutation, ?down_loop_Permutation;
        apply Swap_Permutation.
    - intros Hord. apply fix_ordered; [lia | |].
      + intros k Hk Hki Hpi. pose proof (parent_lt k (proj1 Hk)).
        unfold h1. rewrite Less_Swap by lia. unfold swapped.
        rewrite (decide_False (P := k = i)) by lia.
        rewrite (decide_False (P := k = n)) by lia.
        rewrite (decide_False (P := parent k = i)) by lia.
        rewrite (decide_False (P := parent k = n)) by lia.
        apply Hord. lia.
      + intros k Hk Hpi Hpos. pose proof (parent_lt k (proj1 Hk)).
        pose proof (parent_lt i Hpos).
        unfold h1. rewrite Less_Swap by lia. unfold swapped.
        rewrite (decide_False (P := k = i)) by lia.
        rewrite (decide_False (P := k = n)) by lia.
        rewrite (decide_False (P := parent i = i)) by lia.
        rewrite (decide_False (P := parent i = n)) by lia.
        apply (Less_negtrans h k i); [lia | |].
        * rewrite <- Hpi. apply Hord. lia.
        * apply Hord. lia. }
  rewrite last_lookup, Hlen2. cbn [Nat.pred]. rewrite Hlast.
  eexists. split; [reflexivity |]. split.
  - pose proof (take_drop n h2) as Hsplit.
    rewrite (drop_S _ _ _ Hlast), drop_ge in Hsplit by lia.
    assert (x :: take n h2 ≡ₚ take n h2 ++ [x]) as ->
      by (by rewrite Permutation_app_comm).
    by rewrite Hsplit.
  - intros Hh. apply take_ordered; [lia | by apply Hord].
Qed.
End heap_order_facts.

Section pool_more.
Import types core goruntime mempool.

Lemma txLess_asym (a b : Transaction) : txLess a b = true -> txLess b a = false.
Proof. unfold txLess. lia. Qed.

Lemma txLess_negtrans (a b c : Transaction) :
  txLess a b = false -> txLess b c = false -> txLess a c = false.
Proof. unfold txLess. lia. Qed.

Lemma pool_sound_elem_of (m : Mempool) (tx : Transaction) :
  pool_sound m ->
  tx ∈ queue m <-> transactions m !! tx_Hash tx = Some tx.
Proof.
  intros (Hperm & Hkeyed & _). rewrite Hperm, list_elem_of_fmap. split.
  - intros ([k t] & -> & Hin%elem_of_map_to_list). cbn [snd].
    by rewrite (Hkeyed _ _ Hin).
  - intros Hin. exists (tx_Hash tx, tx). split; [done |]. by apply elem_of_map_to_list.
Qed.

(** What an accepted [AddTransaction] does: at capacity it first pops the
    root of the queue and drops it from the index. *)
Lemma AddTransaction_accepted (tx : Transaction) (m : Mempool) :
  pool_sound m ->
  transactions m !! tx_Hash tx = None -> Validate tx = None ->
  exists m1,
    AddTransaction tx m
    = (Ok tt, {| transactions := <[tx_Hash tx := tx]> (transactions m1);
                 queue := Push (queue m1) tx; maxSize := maxSize m |}) /\
    pool_sound m1 /\
    ((maxSize m <= Z.of_nat (size (transactions m)) /\
      exists victim l,
        queue m = victim :: l /\
        transactions m !! tx_Hash victim = Some victim /\
        transactions m1 = delete (tx_Hash victim) (transactions m)) \/
     ((Z.of_nat (size (transactions m)) < maxSize m \/ transactions m = ∅) /\
      transactions m1 = transactions m)).
Proof.
  intros Hsound Hnew Hvalid. unfold AddTransaction.
  rewrite bool_decide_eq_false_2 by (rewrite Hnew; by intros [? ?]).
  rewrite Hvalid.
  destruct (maxSize m <=? Z.of_nat (size (transactions m))) eqn:Hfull;
    [apply Z.leb_le in Hfull | apply Z.leb_gt in Hfull].
  2: { exists m. split; [done |]. split; [done |]. right. split; [by left | done]. }
  unfold Pop. destruct (queue m) as [| victim l] eqn:Hq.
  { cbn [length Nat.eqb].
    exists m. rewrite Hq. split; [done |]. split; [done |]. right. split; [| done].
    right. destruct Hsound as (Hperm & _). rewrite Hq in Hperm.
    symmetry in Hperm. apply Permutation_nil_r in Hperm.
    apply fmap_nil_inv in Hperm. by apply map_to_list_empty_iff. }
  cbn [length Nat.eqb].
  destruct (heap_Pop_root txLess victim l) as (rest & Hpop & Hrest).
  rewrite Hpop.
  assert (transactions m !! tx_Hash victim = Some victim) as Hin
    by (apply pool_sound_elem_of; [done | rewrite Hq; apply elem_of_cons; by left]).
  eexists {| transactions := _; queue := _; maxSize := maxSize m |}.
  split; [reflexivity |]. cbn [transactions queue].
  split; [| left; split; [done |]; by exists victim, l].
  destruct Hsound as (Hperm & Hkeyed & Hord). split_and!; cbn [transactions queue].
  - rewrite Hrest. rewrite Hq in Hperm.
    rewrite <- (map_to_list_delete _ _ _ Hin) in Hperm. cbn [fmap list_fmap snd] in Hperm.
    by apply (inj (cons victim)) in Hperm.
  - by apply map_Forall_delete.
  - rewrite Hq in Hord.
    exact (heap_Pop_ordered txLess txLess_asym txLess_negtrans _ _ _ _ Hord Hpop).
Qed.

Lemma NewMempool_sound (n : Z) : pool_sound (NewMempool n).
Proof.
  split_and!; cbn [NewMempool queue transactions].
  - by rewrite map_to_list_empty.
  - apply map_Forall_empty.
  - intros k Hk. cbn [length] in Hk. lia.
Qed.

Lemma AddTransaction_rejected (tx : Transaction) (m : Mempool) :
  is_Some (transactions m !! tx_Hash tx) \/ is_Some (Validate tx) ->
  exists e, AddTransaction tx m = (Err e, m).
Proof.
  intros Hcase. unfold AddTransaction. case_bool_decide as Hdup; [by eexists |].
  destruct Hcase as [? | [e He]]; [done |]. rewrite He. by eexists.
Qed.

Lemma AddTransaction_sound (tx : Transaction) (m : Mempool) :
  pool_sound m -> pool_sound (snd (AddTransaction tx m)).
Proof.
  intros Hsound.
  destruct (transactions m !! tx_Hash tx) as [old |] eqn:Hnew.
  { destruct (AddTransaction_rejected tx m) as [e ->]; [left; by rewrite Hnew | done]. }
  destruct (Validate tx) as [e |] eqn:Hvalid.
  { destruct (AddTransaction_rejected tx m) as [e' ->]; [right; by rewrite Hvalid | done]. }
  destruct (AddTransaction_accepted tx m Hsound Hnew Hvalid)
    as (m1 & -> & (Hperm & Hkeyed & Hord) & Hcase).
  assert (transactions m1 !! tx_Hash tx = None) as Hnew1.
  { destruct Hcase as [(_ & victim & l & _ & _ & ->) | (_ & ->)]; [| done].
    apply lookup_delete_None. by right. }
  cbn [snd]. split_and!; cbn [queue transactions].
  - unfold Push. rewrite heap_Push_Permutation.
    rewrite map_to_list_insert by done. cbn [fmap list_fmap snd]. by rewrite Hperm.
  - by apply map_Forall_insert_2.
  - unfold Push. by apply heap_Push_ordered; [apply txLess_asym | apply txLess_negtrans |].
Qed.

(** X23: [AddTransaction] keeps the pool consistent, whatever it answers:
    the index and the queue hold the same transactions, each one indexed
    under its own hash, and the queue stays a heap for [txLess]. The
    capacity does not change. *)
Theorem AddTransaction_keeps_pool_sound (tx : Transaction) (m : Mempool) :
  pool_sound m ->
  pool_sound (snd (AddTransaction tx m)) /\
  maxSize (snd (AddTransaction tx m)) = maxSize m.
Proof.
  intros Hsound. split; [by apply AddTransaction_sound |].
  unfold AddTransaction. repeat case_match; done.
Qed.

Lemma full_pool_sound : pool_sound scenarios.full_pool.
Proof. do 2 apply AddTransaction_sound. apply NewMempool_sound. Qed.

Lemma AddTransaction_keeps_pool_sound_witness :
  pool_sound (snd (AddTransaction scenarios.middle scenarios.full_pool)) /\
  maxSize (snd (AddTransaction scenarios.middle scenarios.full_pool)) = 2.
Proof.
  exact (AddTransaction_keeps_pool_sound scenarios.middle scenarios.full_pool
           full_pool_sound).
Defined.

Lemma pool_sound_root (m : Mempool) (root : Transaction) (l : list Transaction) :
  pool_sound m -> queue m = root :: l ->
  forall hash tx, transactions m !! hash = Some tx -> GasPrice tx <= GasPrice root.
Proof.
  intros Hsound Hq hash tx Hin.
  assert (tx ∈ queue m) as [k Hk]%list_elem_of_lookup_1.
  { apply pool_sound_elem_of; [done |].
    destruct Hsound as (_ & Hkeyed & _). by rewrite (Hkeyed _ _ Hin). }
  destruct Hsound as (_ & _ & Hord).
  pose proof (heap_ordered_root txLess txLess_asym txLess_negtrans (queue m) k Hord)
    as Hroot.
  unfold Less in Hroot. rewrite Hk, Hq in Hroot. cbn [lookup list_lookup] in Hroot.
  unfold txLess in Hroot. lia.
Qed.

(** X24: a full, non-empty pool that accepts a transaction makes room by
    dropping a pooled transaction whose gas price is the highest in the
    pool: every pooled transaction has a gas price at most the victim's.
    The victim is gone afterwards and the new transaction is indexed. *)
Theorem AddTransaction_evicts_top (tx : Transaction) (m : Mempool) :
  pool_sound m ->
  transactions m !! tx_Hash tx = None -> Validate tx = None ->
  maxSize m <= Size m -> 0 < Size m ->
  exists victim,
    transactions m !! tx_Hash victim = Some victim /\
    (forall hash t, transactions m !! hash = Some t -> GasPrice t <= GasPrice victim) /\
    fst (AddTransaction tx m) = Ok tt /\
    transactions (snd (AddTransaction tx m))
    = <[tx_Hash tx := tx]> (delete (tx_Hash victim) (transactions m)) /\
    Has (snd (AddTransaction tx m)) (tx_Hash victim) = false.
Proof.
  intros Hsound Hnew Hvalid Hfull Hpos. unfold Size in *.
  destruct (AddTransaction_accepted tx m Hsound Hnew Hvalid)
    as (m1 & -> & _ & [(_ & victim & l & Hq & Hin & Hm1) | ([Hlt | Hempty] & _)]).
  - exists victim. rewrite Hm1. cbn [fst snd transactions]. split_and!; try done.
    + by apply (pool_sound_root m victim l).
    + unfold Has. cbn [transactions]. apply bool_decide_eq_false_2.
      assert (tx_Hash tx <> tx_Hash victim) as Hne by (intros Heq; congruence).
      rewrite lookup_insert_ne by done. rewrite lookup_delete_eq. by intros [? ?].
  - lia.
  - rewrite Hempty, map_size_empty in Hpos. lia.
Qed.

Lemma AddTransaction_evicts_top_witness :
  exists victim,
    transactions scenarios.full_pool !! tx_Hash victim = Some victim /\
    (forall hash t, transactions scenarios.full_pool !! hash = Some t ->
                    GasPrice t <= GasPrice victim) /\
    fst (AddTransaction scenarios.middle scenarios.full_pool) = Ok tt /\
    transactions (snd (AddTransaction scenarios.middle scenarios.full_pool))
    = <[tx_Hash scenarios.middle := scenarios.middle]>
        (delete (tx_Hash victim) (transactions scenarios.full_pool)) /\
    Has (snd (AddTransaction scenarios.middle scenarios.full_pool)) (tx_Hash victim)
    = false.
Proof.
  apply (AddTransaction_evicts_top scenarios.middle scenarios.full_pool
           full_pool_sound); [vm_compute; reflexivity | vm_compute; reflexivity
                             | vm_compute; discriminate | vm_compute; reflexivity].
Defined.

(** X25: the pool never grows beyond its capacity, or beyond one
    transaction when the capacity is zero or negative: a pool holding at
    most [max 1 maxSize] transactions still does after [AddTransaction]. *)
Theorem AddTransaction_respects_capacity (tx : Transaction) (m : Mempool) :
  pool_sound m ->
  Size m <= Z.max 1 (maxSize m) ->
  Size (snd (AddTransaction tx m)) <= Z.max 1 (maxSize m).
Proof.
  intros Hsound Hsize.
  destruct (transactions m !! tx_Hash tx) as [old |] eqn:Hnew.
  { destruct (AddTransaction_rejected tx m) as [e ->]; [left; by rewrite Hnew | done]. }
  destruct (Validate tx) as [e |] eqn:Hvalid.
  { destruct (AddTransaction_rejected tx m) as [e' ->]; [right; by rewrite Hvalid | done]. }
  destruct (AddTransaction_accepted tx m Hsound Hnew Hvalid)
    as (m1 & -> & _ & Hcase).
  unfold Size in *. cbn [snd transactions].
  destruct Hcase as [(Hfull & victim & l & _ & Hin & ->) | ([Hlt | Hempty] & ->)].
  - rewrite map_size_insert_None by (apply lookup_delete_None; by right).
    rewrite map_size_delete_Some by done.
    assert (size (transactions m) <> 0%nat)
      by (apply map_size_non_empty_iff; intros Hm; by rewrite Hm in Hin).
    lia.
  - rewrite map_size_insert_None by done. lia.
  - rewrite map_size_insert_None by done. rewrite Hempty, map_size_empty. lia.
Qed.

Lemma AddTransaction_respects_capacity_witness :
  Size (snd (AddTransaction scenarios.middle scenarios.full_pool))
  <= Z.max 1 (maxSize scenarios.full_pool).
Proof.
  apply (AddTransaction_respects_capacity scenarios.middle scenarios.full_pool
           full_pool_sound).
  vm_compute. discriminate.
Defined.

Lemma pool_sound_length (m : Mempool) :
  pool_sound m -> length (queue m) = size (transactions m).
Proof.
  intros (Hperm & _). rewrite Hperm, length_fmap. apply length_map_to_list.
Qed.

(** X26: [GetTransactions] panics on a negative limit. Otherwise it
    returns the first [min limit Size] slots of the queue, and in a
    consistent pool the first transaction returned has the highest gas price
    of the pool. *)
Theorem GetTransactions_best_first (limit : Z) (m : Mempool) :
  pool_sound m ->
  (limit < 0 -> exists msg, GetTransactions limit m = Panic msg) /\
  (0 <= limit ->
   exists txs,
     GetTransactions limit m = Ok txs /\
     txs = take (Z.to_nat (Z.min limit (Size m))) (queue m) /\
     Z.of_nat (length txs) = Z.min limit (Size m) /\
     forall best hash t,
       head txs = Some best -> transactions m !! hash = Some t ->
       GasPrice t <= GasPrice best).
Proof.
  intros Hsound. pose proof (pool_sound_length m Hsound) as Hlen.
  unfold GetTransactions, Top, Size. cbv zeta. rewrite Hlen. split.
  - intros Hneg.
    destruct (Z.ltb_spec (Z.of_nat (size (transactions m))) limit) as [? | _]; [lia |].
    destruct (Z.ltb_spec limit 0); [by eexists | lia].
  - intros Hpos.
    assert ((if Z.of_nat (size (transactions m)) <? limit
             then Z.of_nat (size (transactions m)) else limit)
            = Z.min limit (Z.of_nat (size (transactions m)))) as -> by (case_match; lia).
    destruct (Z.ltb_spec (Z.min limit (Z.of_nat (size (transactions m)))) 0); [lia |].
    eexists. split; [reflexivity |]. split; [reflexivity |].
    split; [rewrite length_take; lia |].
    intros best hash t Hhead Hin.
    destruct (queue m) as [| root l] eqn:Hq.
    { by rewrite take_nil in Hhead. }
    destruct (Z.to_nat (Z.min limit (Z.of_nat (size (transactions m))))) as [| n];
      [done |].
    cbn [take head] in Hhead. injection Hhead as <-.
    by apply (pool_sound_root m root l Hsound Hq hash t).
Qed.

Lemma GetTransactions_best_first_witness :
  (exists msg, GetTransactions (-1) scenarios.full_pool = Panic msg) /\
  (exists txs,
     GetTransactions 1 scenarios.full_pool = Ok txs /\
     txs = take (Z.to_nat (Z.min 1 (Size scenarios.full_pool)))
             (queue scenarios.full_pool) /\
     Z.of_nat (length txs) = Z.min 1 (Size scenarios.full_pool) /\
     forall best hash t,
       head txs = Some best -> transactions scenarios.full_pool !! hash = Some t ->
       GasPrice t <= GasPrice best).
Proof.
  split.
  - apply (proj1 (GetTransactions_best_first (-1) scenarios.full_pool full_pool_sound)).
    lia.
  - apply (proj2 (GetTransactions_best_first 1 scenarios.full_pool full_pool_sound)).
    lia.
Defined.

Lemma Remove_spec (m : Mempool) (hash : Hash) (tx : Transaction) :
  pool_sound m -> transactions m !! hash = Some tx ->
  tx :: Remove (queue m) tx ≡ₚ queue m /\ heap_ordered txLess (Remove (queue m) tx).
Proof.
  intros Hsound Hin. pose proof Hsound as (Hperm & Hkeyed & Hord).
  pose proof (Hkeyed _ _ Hin) as Hhash.
  assert (tx ∈ queue m) as Helem
    by (apply pool_sound_elem_of; [done | by rewrite Hhash]).
  unfold Remove.
  destruct (list_find_elem_of (fun item => tx_Hash item = tx_Hash tx) (queue m) tx
              Helem eq_refl) as [[i found] Hfind].
  rewrite Hfind. apply list_find_Some in Hfind as (Hi & Hsame & _).
  assert (found = tx) as ->.
  { assert (transactions m !! tx_Hash found = Some found) as Hfound
      by (apply pool_sound_elem_of; [done | by eapply list_elem_of_lookup_2]).
    rewrite Hsame, Hhash, Hin in Hfound. congruence. }
  destruct (heap_Remove_spec txLess txLess_asym txLess_negtrans (queue m) i tx Hi)
    as (rest & -> & Hrest & Hkeep).
  split; [done | by apply Hkeep].
Qed.

Lemma RemoveTransaction_sound (hash : Hash) (m : Mempool) :
  pool_sound m -> pool_sound (RemoveTransaction hash m).
Proof.
  intros Hsound. unfold RemoveTransaction.
  destruct (transactions m !! hash) as [tx |] eqn:Hin; [| done].
  destruct (Remove_spec m hash tx Hsound Hin) as (Hrest & Hord).
  destruct Hsound as (Hperm & Hkeyed & _).
  split_and!; cbn [queue transactions].
  - rewrite <- Hrest, <- (map_to_list_delete _ _ _ Hin) in Hperm.
    cbn [fmap list_fmap snd] in Hperm. by apply (inj (cons tx)) in Hperm.
  - by apply map_Forall_delete.
  - done.
Qed.

Lemma RemoveTransaction_index (hash : Hash) (m : Mempool) :
  transactions (RemoveTransaction hash m) = delete hash (transactions m).
Proof.
  unfold RemoveTransaction.
  destruct (transactions m !! hash) as [tx |] eqn:Hin; [done |].
  by rewrite delete_id.
Qed.

(** X27: [RemoveTransaction] keeps the pool consistent: the transaction
    indexed under the hash leaves both the index and the queue, every other
    transaction stays in both, and the queue stays a heap. An unknown
    hash changes nothing. *)
Theorem RemoveTransaction_keeps_pool_sound (hash : Hash) (m : Mempool) :
  pool_sound m ->
  pool_sound (RemoveTransaction hash m) /\
  Has (RemoveTransaction hash m) hash = false /\
  (forall other, other <> hash ->
     transactions (RemoveTransaction hash m) !! other = transactions m !! other) /\
  (Has m hash = false -> RemoveTransaction hash m = m) /\
  (Has m hash = true -> Size (RemoveTransaction hash m) = Size m - 1).
Proof.
  intros Hsound. split; [by apply RemoveTransaction_sound |].
  unfold Has, Size. rewrite RemoveTransaction_index. split_and!.
  - apply bool_decide_eq_false_2. rewrite lookup_delete_eq. by intros [? ?].
  - intros other Hne. by rewrite lookup_delete_ne.
  - intros Hno%bool_decide_eq_false. unfold RemoveTransaction.
    destruct (transactions m !! hash) eqn:Hin; [| done]. destruct Hno. by eexists.
  - intros [tx Hin]%bool_decide_eq_true.
    rewrite map_size_delete_Some by done.
    assert (size (transactions m) <> 0%nat)
      by (apply map_size_non_empty_iff; intros Hm; by rewrite Hm in Hin).
    lia.
Qed.

Lemma RemoveTransaction_keeps_pool_sound_witness :
  pool_sound (RemoveTransaction (tx_Hash scenarios.cheap) scenarios.full_pool) /\
  Size (RemoveTransaction (tx_Hash scenarios.cheap) scenarios.full_pool) = 1.
Proof.
  destruct (RemoveTransaction_keeps_pool_sound (tx_Hash scenarios.cheap)
              scenarios.full_pool full_pool_sound) as (Hsound & _ & _ & _ & Hsize).
  split; [exact Hsound |]. rewrite Hsize; vm_compute; reflexivity.
Defined.

(** X28: [RemoveTransactions] removes exactly the listed hashes: afterwards
    a hash is indexed if and only if it was indexed before and is not
    listed, with the same transaction, and the pool is still consistent. *)
Theorem RemoveTransactions_removes_listed (hashes : list Hash) (m : Mempool) :
  pool_sound m ->
  pool_sound (RemoveTransactions hashes m) /\
  forall hash,
    transactions (RemoveTransactions hashes m) !! hash
    = if bool_decide (hash ∈ hashes) then None else transactions m !! hash.
Proof.
  unfold RemoveTransactions. revert m.
  induction hashes as [| first hashes IH]; intros m Hsound.
  { split; [done |]. intros hash.
    by rewrite bool_decide_eq_false_2 by apply not_elem_of_nil. }
  cbn [foldl].
  destruct (IH (RemoveTransaction first m) (RemoveTransaction_sound first m Hsound))
    as (Hsound' & Hlookup).
  split; [done |]. intros hash. rewrite Hlookup, RemoveTransaction_index.
  destruct (decide (hash = first)) as [-> | Hne].
  - rewrite lookup_delete_eq.
    rewrite (bool_decide_eq_true_2 (first ∈ first :: hashes))
      by (apply elem_of_cons; by left).
    by case_bool_decide.
  - rewrite lookup_delete_ne by done.
    case_bool_decide as Hin.
    + by rewrite bool_decide_eq_true_2 by (apply elem_of_cons; by right).
    + by rewrite bool_decide_eq_false_2 by (apply not_elem_of_cons; by split).
Qed.

Lemma RemoveTransactions_removes_listed_witness :
  pool_sound (RemoveTransactions [tx_Hash scenarios.cheap; tx_Hash scenarios.middle]
                scenarios.full_pool) /\
  forall hash,
    transactions (RemoveTransactions [tx_Hash scenarios.cheap; tx_Hash scenarios.middle]
                    scenarios.full_pool) !! hash
    = if bool_decide (hash ∈ [tx_Hash scenarios.cheap; tx_Hash scenarios.middle])
      then None else transactions scenarios.full_pool !! hash.
Proof.
  exact (RemoveTransactions_removes_listed
           [tx_Hash scenarios.cheap; tx_Hash scenarios.middle] scenarios.full_pool
           full_pool_sound).
Defined.

(** X29: adding a transaction to a pool with room and removing it again
    restores the index, and the queue holds the same transactions as
    before. *)
Theorem AddTransaction_RemoveTransaction_round_trip (tx : Transaction) (m : Mempool) :
  pool_sound m ->
  transactions m !! tx_Hash tx = None -> Validate tx = None ->
  Size m < maxSize m ->
  let added := snd (AddTransaction tx m) in
  fst (AddTransaction tx m) = Ok tt /\
  transactions added !! tx_Hash tx = Some tx /\
  Size added = Size m + 1 /\
  transactions (RemoveTransaction (tx_Hash tx) added) = transactions m /\
  queue (RemoveTransaction (tx_Hash tx) added) ≡ₚ queue m.
Proof.
  intros Hsound Hnew Hvalid Hroom added.
  pose proof (AddTransaction_sound tx m Hsound) as Hadded. fold added in Hadded.
  pose proof (RemoveTransaction_sound (tx_Hash tx) added Hadded) as (Hperm & _).
  assert (AddTransaction tx m
          = (Ok tt, {| transactions := <[tx_Hash tx := tx]> (transactions m);
                       queue := Push (queue m) tx; maxSize := maxSize m |})) as Hrun.
  { unfold AddTransaction, Size in *.
    rewrite bool_decide_eq_false_2 by (rewrite Hnew; by intros [? ?]).
    rewrite Hvalid. by rewrite (proj2 (Z.leb_gt _ _)) by lia. }
  assert (transactions (RemoveTransaction (tx_Hash tx) added) = transactions m) as Hindex.
  { rewrite RemoveTransaction_index. unfold added. rewrite Hrun. cbn [snd transactions].
    by apply delete_insert_id. }
  split_and!.
  - by rewrite Hrun.
  - unfold added. rewrite Hrun. cbn [snd transactions]. by rewrite lookup_insert_eq.
  - unfold added, Size. rewrite Hrun. cbn [snd transactions].
    rewrite map_size_insert_None by done. lia.
  - done.
  - rewrite Hperm, Hindex. symmetry. apply Hsound.
Qed.

Lemma AddTransaction_RemoveTransaction_round_trip_witness :
  let m := snd (AddTransaction scenarios.cheap (NewMempool 2)) in
  let added := snd (AddTransaction scenarios.dear m) in
  fst (AddTransaction scenarios.dear m) = Ok tt /\
  transactions added !! tx_Hash scenarios.dear = Some scenarios.dear /\
  Size added = Size m + 1 /\
  transactions (RemoveTransaction (tx_Hash scenarios.dear) added) = transactions m /\
  queue (RemoveTransaction (tx_Hash scenarios.dear) added) ≡ₚ queue m.
Proof.
  apply (AddTransaction_RemoveTransaction_round_trip scenarios.dear
           (snd (AddTransaction scenarios.cheap (NewMempool 2)))).
  - apply AddTransaction_sound, NewMempool_sound.
  - vm_compute; reflexivity.
  - vm_compute; reflexivity.
  - vm_compute; reflexivity.
Defined.
End pool_more.
